(** * Sounds from the Rainbow Radio: station-weighted selection and the
      dual-deck playback engine of [App.tsx]

    A shallow embedding of the selection code ([normalizeTag],
    [weightedPick], [scoreTrack], [pickNextTrack]), of the transport code
    ([ensureCtx], [startTick], [playTrack], [play], [pause], [next],
    [stop], the volume and crossfade-sync effects) of the React component
    [App], and of the utilities that build the catalog ([dedupe],
    [encodePathPreserveSlashes], [inferTagsFromPath], the mapping of
    [loadFromIA]).

    Conventions of the embedding.
    - A JavaScript [number] that the code computes with is an exact
      rational ([Q]): every finite double is one, and the constants of the
      code (0.05, 0.15, 0.25, 2, 500) are written as the decimals they
      denote.  Rounding is not modelled.  The one place where the code
      tests for a non-finite number ([isFinite(a.duration)]) has its own
      type [jsnum].
    - A string is a [string] of ASCII characters; [normalizeTag] is
      embedded on those.
    - [Math.random()] is an argument [u] of the function that calls it,
      and what [uid()] returns is an argument of [loadFromIA].
    - [items[i]] is list lookup, [None] standing for [undefined].
    - A handler reads the React state of the render that created it
      ([Render.t]) and writes through the setters and the refs of the
      component ([World]); timers, promises of the monitor and the calls
      made are part of the world.
    - The body of an [async] function runs in one piece; what the platform
      decides while it runs is an [Oracle]. *)

From Stdlib Require Import Ascii String QArith Qabs Qround Qminmax Lqa.
From stdpp Require Import base option list strings gmap.

Local Open Scope Z_scope.
Local Open Scope Q_scope.
Local Open Scope nat_scope.
Local Open Scope string_scope.
Local Open Scope list_scope.

(** ** Numbers *)

(** [a <= b] on numbers, as a boolean. *)
Definition Qleb (a b : Q) : bool := Qle_bool a b.

(** [Math.floor] *)
Definition Math_floor (x : Q) : Z := Qfloor x.

(** The length of an array, as a number. *)
Definition num_of_nat (n : nat) : Q := inject_Z (Z.of_nat n).

(** ** Utilities *)

Module Chars.

Definition code (c : ascii) : N := Ascii.N_of_ascii c.

(** The ASCII members of the class [\s]. *)
Definition is_space (c : ascii) : bool :=
  let n := code c in
  ((9 <=? n) && (n <=? 13))%N || (n =? 32)%N.

Definition toLowerCase (c : ascii) : ascii :=
  let n := code c in
  if ((65 <=? n) && (n <=? 90))%N then Ascii.ascii_of_N (n + 32) else c.

(** The class [[a-z0-9\- _]]. *)
Definition is_tag_char (c : ascii) : bool :=
  let n := code c in
  ((97 <=? n) && (n <=? 122))%N || ((48 <=? n) && (n <=? 57))%N
  || (n =? 45)%N || (n =? 32)%N || (n =? 95)%N.

Fixpoint skip_spaces (l : list ascii) : list ascii :=
  match l with
  | [] => []
  | c :: r => if is_space c then skip_spaces r else l
  end.

(** [.trim()] *)
Definition trim (l : list ascii) : list ascii :=
  rev (skip_spaces (rev (skip_spaces l))).

(** [.replace(/\s+/g, " ")]: [in_run] says that the previous character
    belonged to the run of white space being replaced. *)
Fixpoint squeeze (in_run : bool) (l : list ascii) : list ascii :=
  match l with
  | [] => []
  | c :: r =>
      if is_space c
      then (if in_run then squeeze true r else " "%char :: squeeze true r)
      else c :: squeeze false r
  end.

End Chars.

Definition normalizeTag (s : string) : string :=
  let lowered := map Chars.toLowerCase (list_ascii_of_string s) in
  let trimmed := Chars.trim lowered in
  let spaced := Chars.squeeze false trimmed in
  string_of_list_ascii (filter (fun c => Is_true (Chars.is_tag_char c)) spaced).

(** [items[k]] for an index computed as a number. *)
Definition item_at {T : Type} (items : list T) (k : Z) : option T :=
  if (k <? 0)%Z then None else items !! Z.to_nat k.

(** [items[items.length - 1]] *)
Definition last_item {T : Type} (items : list T) : option T :=
  item_at items (Z.of_nat (length items) - 1).

(** The [for] loop of [weightedPick], entered at index [i] with [n]
    iterations to go and the running remainder [r].  [weights[i]] past the
    end of [weights] is [undefined], which makes [r] a NaN: no later test
    [r <= 0] succeeds and the loop runs to its end. *)
Fixpoint weightedPick_loop {T : Type} (items : list T) (weights : list Q)
    (i n : nat) (r : Q) : option T :=
  match n with
  | O => last_item items
  | S n' =>
      match weights !! i with
      | None => last_item items
      | Some w =>
          let r := (r - Qmax 0 w)%Q in
          if Qleb r 0 then items !! i
          else weightedPick_loop items weights (S i) n' r
      end
  end.

Definition weightedPick {T : Type} (items : list T) (weights : list Q) (u : Q)
    : option T :=
  let total := foldl (fun a w => (a + Qmax 0 w)%Q) 0%Q weights in
  if Qleb total 0
  then item_at items (Math_floor (u * num_of_nat (length items)))
  else weightedPick_loop items weights 0 (length items) (u * total).

(** ** Types *)

Module Track.
(** [weight] is [None] where the field is [null] or [undefined], the case
    that [t.weight ?? 1] provides for. *)
Record t : Type := mk {
  id : string;
  name : string;
  fileName : string;
  url : string;
  tags : list string;
  weight : option Q
}.
End Track.

Module Station.
(** [tagWeights] is a finite map from keys to numbers, as its type
    [Record<string, number>] has it. *)
Record t : Type := mk {
  name : string;
  description : string;
  tagWeights : gmap string Q;
  crossfadeDefaultSec : Q
}.
End Station.

(** ** Stations *)

Definition AllField : Station.t :=
  Station.mk "All Field" "A broad shuffle across the whole archive." ∅ 6.

Definition CampfireDrift : Station.t :=
  Station.mk "Campfire Drift"
    "Crackle-forward, night-songs, drum edges, human warmth."
    (list_to_map
       [("campfire", 4%Q); ("night", 3%Q); ("crickets", 2%Q); ("drum", 2%Q);
        ("guitar", 2%Q); ("fiddle", 2%Q); ("flute", 1%Q); ("crowd", 1%Q);
        ("chant", 1%Q)])
    7.

Definition KitchenRadio : Station.t :=
  Station.mk "Kitchen Radio"
    "Work-as-rhythm: voices, clatter, logistics, mutual-aid energy."
    (list_to_map
       [("kitchen", 5%Q); ("voice", 3%Q); ("interview", 3%Q); ("story", 2%Q);
        ("crowd", 2%Q); ("evening", 1%Q)])
    5.

Definition DawnSoundTrail : Station.t :=
  Station.mk "Dawn Sound-Trail" "Birds, wind, river—gentle waking woods."
    (list_to_map
       [("dawn", 5%Q); ("birds", 4%Q); ("wind", 3%Q); ("river", 3%Q);
        ("rain", 2%Q); ("silence", 1%Q); ("morning", 2%Q)])
    9.

Definition NightTrail : Station.t :=
  Station.mk "Night Trail"
    "Dark woods, distant drums, crickets—slow luminous drift."
    (list_to_map
       [("night", 5%Q); ("crickets", 4%Q); ("campfire", 2%Q); ("drum", 2%Q);
        ("chant", 2%Q); ("wind", 1%Q); ("crowd", 1%Q); ("silence", 1%Q)])
    8.

Definition STATIONS : list Station.t :=
  [AllField; CampfireDrift; KitchenRadio; DawnSoundTrail; NightTrail].

(** [STATIONS.find((s) => s.name === stationName) ?? STATIONS[0]] *)
Definition station_of (stationName : string) : Station.t :=
  default AllField
    (find (fun s => bool_decide (Station.name s = stationName)) STATIONS).

(** ** Station-weighted selection *)

(** [nowPlaying?.id && t.id === nowPlaying.id]: the empty string is falsy,
    as is the [undefined] that [?.] gives when nothing is playing. *)
Definition is_now_playing (nowPlaying : option Track.t) (t : Track.t) : bool :=
  match nowPlaying with
  | None => false
  | Some p =>
      negb (bool_decide (Track.id p = "")) &&
      bool_decide (Track.id t = Track.id p)
  end.

Definition scoreTrack (station : Station.t) (nowPlaying : option Track.t)
    (t : Track.t) : Q :=
  let w := default 1%Q (Track.weight t) in
  let tw := Station.tagWeights station in
  let hasWeights := (0 <? size tw)%nat in
  let w :=
    if hasWeights then
      let w :=
        foldl (fun w tag =>
                 let key := normalizeTag tag in
                 match tw !! key with
                 | Some x => (w + x)%Q
                 | None => w
                 end) w (Track.tags t) in
      (w + Qmin 2 (num_of_nat (length (Track.tags t)) * 0.15))%Q
    else
      (w + Qmin 2 (num_of_nat (length (Track.tags t)) * 0.25))%Q in
  let w := if is_now_playing nowPlaying t then (w * 0.05)%Q else w in
  Qmax 0 w.

(** [null] where the catalog is empty. *)
Definition pickNextTrack (tracks : list Track.t) (station : Station.t)
    (nowPlaying : option Track.t) (u : Q) : option Track.t :=
  match length tracks with
  | 0 => None
  | 1 => tracks !! 0
  | _ =>
      let pool := tracks in
      let weights := map (scoreTrack station nowPlaying) pool in
      weightedPick pool weights u
  end.

(** ** Crossfade engine: the state *)

(** The values [a.duration] can take: [NaN] while the duration is unknown,
    [Infinity] for an unbounded stream, a rational otherwise. *)
Inductive jsnum : Type :=
| JNaN
| JInfinity
| JFin (q : Q).

Definition isFinite (x : jsnum) : bool :=
  match x with
  | JFin _ => true
  | _ => false
  end.

Inductive DeckId : Type := A | B.

Definition other (d : DeckId) : DeckId :=
  match d with
  | A => B
  | B => A
  end.

(** The React state that one render of [App] closes over.  A handler created
    in a render reads these values, whatever the setters have done since. *)
Module Render.
Record t : Type := mk {
  tracks : list Track.t;
  stationName : string;
  nowPlaying : option Track.t;
  isPlaying : bool;
  radioMode : bool;
  volume : Q;
  crossfadeSec : Q
}.

Definition station (r : t) : Station.t := station_of (stationName r).

Definition setTracks (v : list Track.t) (r : t) : t :=
  mk v (stationName r) (nowPlaying r) (isPlaying r) (radioMode r) (volume r)
     (crossfadeSec r).
Definition setStationName (v : string) (r : t) : t :=
  mk (tracks r) v (nowPlaying r) (isPlaying r) (radioMode r) (volume r)
     (crossfadeSec r).
Definition setNowPlaying (v : option Track.t) (r : t) : t :=
  mk (tracks r) (stationName r) v (isPlaying r) (radioMode r) (volume r)
     (crossfadeSec r).
Definition setIsPlaying (v : bool) (r : t) : t :=
  mk (tracks r) (stationName r) (nowPlaying r) v (radioMode r) (volume r)
     (crossfadeSec r).
Definition setRadioMode (v : bool) (r : t) : t :=
  mk (tracks r) (stationName r) (nowPlaying r) (isPlaying r) v (volume r)
     (crossfadeSec r).
Definition setVolume (v : Q) (r : t) : t :=
  mk (tracks r) (stationName r) (nowPlaying r) (isPlaying r) (radioMode r) v
     (crossfadeSec r).
Definition setCrossfadeSec (v : Q) (r : t) : t :=
  mk (tracks r) (stationName r) (nowPlaying r) (isPlaying r) (radioMode r)
     (volume r) v.
End Render.

(** An [HTMLAudioElement], as far as the engine uses it.  [onended] holds
    the render whose handler is installed. *)
Module Audio.
Record t : Type := mk {
  src : string;
  paused : bool;
  currentTime : Q;
  duration : jsnum;
  volume : Q;
  onended : option Render.t
}.

(** [new Audio()] *)
Definition fresh : t := mk "" true 0 JNaN 1 None.

Definition setPaused (v : bool) (a : t) : t :=
  mk (src a) v (currentTime a) (duration a) (volume a) (onended a).
Definition setVolume (v : Q) (a : t) : t :=
  mk (src a) (paused a) (currentTime a) (duration a) v (onended a).
Definition setOnended (v : option Render.t) (a : t) : t :=
  mk (src a) (paused a) (currentTime a) (duration a) (volume a) v.
(** The media clock, moved by the browser. *)
Definition setClock (time : Q) (dur : jsnum) (a : t) : t :=
  mk (src a) (paused a) time dur (volume a) (onended a).
(** [a.src = url; a.currentTime = 0; a.load()]: the element is reset, and
    its duration is unknown until the new resource has metadata. *)
Definition loadSrc (url : string) (a : t) : t :=
  mk url true 0 JNaN (volume a) (onended a).
End Audio.

(** A deck.  [gain] is [gain.gain.value]; [ramp] is the last ramp that
    [rampGain] scheduled on it, as (target, seconds). *)
Module Deck.
Record t : Type := mk {
  audio : Audio.t;
  gain : Q;
  ramp : option (Q * Q);
  track : option Track.t
}.

Definition setAudio (f : Audio.t -> Audio.t) (d : t) : t :=
  mk (f (audio d)) (gain d) (ramp d) (track d).
Definition setGain (v : Q) (d : t) : t :=
  mk (audio d) v (ramp d) (track d).
Definition setRamp (v : option (Q * Q)) (d : t) : t :=
  mk (audio d) (gain d) v (track d).
Definition setTrack (v : option Track.t) (d : t) : t :=
  mk (audio d) (gain d) (ramp d) v.
End Deck.

(** [createDeck] *)
Definition createDeck : Deck.t := Deck.mk Audio.fresh 0 None None.

Inductive CtxState : Type := suspended | running.

(** What a pending [setTimeout] will do. *)
Inductive Timeout : Type :=
| PauseDeck (d : DeckId)      (* [cur.audio.pause()] after a crossfade *)
| ReleaseFade.                (* [pendingFadeRef.current = false] *)

(** Calls that leave no other mark on the state. *)
Inductive Call : Type :=
| CallPickNextTrack
| CallAudioPlay (d : DeckId)
| CallAudioPause (d : DeckId)
| CallRampGain (d : DeckId) (to seconds : Q)
| CallSetInterval
| CallClearInterval
| CallAutoNext.

(** The component instance: the state of the latest render, the refs, the
    timeouts that are pending with the milliseconds they have left, the
    [next(true)] promises of the monitor that have not settled (each with
    the render its [next] closes over), and the calls made so far, latest
    first. *)
Record World : Type := mkWorld {
  react : Render.t;
  ctxRef : option CtxState;
  deckARef : option Deck.t;
  deckBRef : option Deck.t;
  activeRef : DeckId;
  tickRef : option Render.t;
  pendingFadeRef : bool;
  timeouts : list (Q * Timeout);
  advancing : list Render.t;
  calls : list Call
}.

Definition setReact (f : Render.t -> Render.t) (w : World) : World :=
  mkWorld (f (react w)) (ctxRef w) (deckARef w) (deckBRef w) (activeRef w)
    (tickRef w) (pendingFadeRef w) (timeouts w) (advancing w) (calls w).
Definition setCtxRef (v : option CtxState) (w : World) : World :=
  mkWorld (react w) v (deckARef w) (deckBRef w) (activeRef w)
    (tickRef w) (pendingFadeRef w) (timeouts w) (advancing w) (calls w).
Definition setDeckARef (v : option Deck.t) (w : World) : World :=
  mkWorld (react w) (ctxRef w) v (deckBRef w) (activeRef w)
    (tickRef w) (pendingFadeRef w) (timeouts w) (advancing w) (calls w).
Definition setDeckBRef (v : option Deck.t) (w : World) : World :=
  mkWorld (react w) (ctxRef w) (deckARef w) v (activeRef w)
    (tickRef w) (pendingFadeRef w) (timeouts w) (advancing w) (calls w).
Definition setActiveRef (v : DeckId) (w : World) : World :=
  mkWorld (react w) (ctxRef w) (deckARef w) (deckBRef w) v
    (tickRef w) (pendingFadeRef w) (timeouts w) (advancing w) (calls w).
Definition setTickRef (v : option Render.t) (w : World) : World :=
  mkWorld (react w) (ctxRef w) (deckARef w) (deckBRef w) (activeRef w)
    v (pendingFadeRef w) (timeouts w) (advancing w) (calls w).
Definition setPendingFadeRef (v : bool) (w : World) : World :=
  mkWorld (react w) (ctxRef w) (deckARef w) (deckBRef w) (activeRef w)
    (tickRef w) v (timeouts w) (advancing w) (calls w).
Definition setTimeouts (v : list (Q * Timeout)) (w : World) : World :=
  mkWorld (react w) (ctxRef w) (deckARef w) (deckBRef w) (activeRef w)
    (tickRef w) (pendingFadeRef w) v (advancing w) (calls w).
Definition setAdvancing (v : list Render.t) (w : World) : World :=
  mkWorld (react w) (ctxRef w) (deckARef w) (deckBRef w) (activeRef w)
    (tickRef w) (pendingFadeRef w) (timeouts w) v (calls w).
Definition called (c : Call) (w : World) : World :=
  mkWorld (react w) (ctxRef w) (deckARef w) (deckBRef w) (activeRef w)
    (tickRef w) (pendingFadeRef w) (timeouts w) (advancing w) (c :: calls w).

(** The component as mounted: nothing loaded, first station selected. *)
Definition mounted : World :=
  mkWorld
    (Render.mk [] (Station.name AllField) None false true 0.9
       (Station.crossfadeDefaultSec AllField))
    None None None A None false [] [] [].

(** An object reference or [null], used as a condition. *)
Definition truthy {X : Type} (o : option X) : bool :=
  match o with
  | Some _ => true
  | None => false
  end.

Definition deckRef (d : DeckId) (w : World) : option Deck.t :=
  match d with
  | A => deckARef w
  | B => deckBRef w
  end.

Definition activeDeck (w : World) : option Deck.t := deckRef (activeRef w) w.
Definition inactiveDeck (w : World) : option Deck.t :=
  deckRef (other (activeRef w)) w.

(** A write through a reference to deck [d]; nothing happens where the ref
    is still [null]. *)
Definition onDeck (d : DeckId) (f : Deck.t -> Deck.t) (w : World) : World :=
  match d with
  | A => setDeckARef (f <$> deckARef w) w
  | B => setDeckBRef (f <$> deckBRef w) w
  end.

(** [window.setTimeout(action, ms)] *)
Definition setTimeout (action : Timeout) (ms : Q) (w : World) : World :=
  setTimeouts (timeouts w ++ [(ms, action)]) w.

(** ** Effects *)

(** What the platform decides during one call of a handler: the value of
    [Math.random()], the state a new [AudioContext] starts in, and whether
    the promises of [ctx.resume()], of the [cur.audio.play()] of [play] and
    of the [nxt.audio.play()] of [playTrack] are fulfilled. *)
Record Oracle : Type := mkOracle {
  random : Q;
  ctxStartsSuspended : bool;
  ctxResumeOk : bool;
  resumeOk : bool;
  startOk : bool
}.

(** An [async] function either returns or rejects; either way it leaves a
    world behind.  The body of an [async] function is run in one piece: what
    other callbacks do while it is suspended at an [await] is not
    modelled. *)
Inductive Completion (X : Type) : Type :=
| Returned (x : X)
| Thrown.
Arguments Returned {X} x.
Arguments Thrown {X}.

Definition Eff (X : Type) : Type := World -> Completion X * World.

Definition ret {X : Type} (x : X) : Eff X := fun w => (Returned x, w).

Definition bind {X Y : Type} (c : Eff X) (k : X -> Eff Y) : Eff Y :=
  fun w =>
    match c w with
    | (Returned x, w') => k x w'
    | (Thrown, w') => (Thrown, w')
    end.

(** [try { body } catch {}], followed by [rest] when control leaves the
    block normally or through the empty handler; [body] returns [true] when
    it executed a [return]. *)
Definition try_or (body : Eff bool) (rest : Eff unit) : Eff unit :=
  fun w =>
    match body w with
    | (Returned true, w') => (Returned tt, w')
    | (Returned false, w') => rest w'
    | (Thrown, w') => rest w'
    end.

Definition get : Eff World := fun w => (Returned w, w).
Definition act (f : World -> World) : Eff unit := fun w => (Returned tt, f w).

Declare Scope eff_scope.
Delimit Scope eff_scope with eff.
Notation "x <- c ;; k" := (bind c (fun x => k))
  (at level 20, c at level 99, k at level 200, only parsing) : eff_scope.
Notation "c ;; k" := (bind c (fun _ => k))
  (at level 100, k at level 200, only parsing, right associativity) : eff_scope.

(** [await <deck d>.audio.play()]; a rejected call leaves the element as
    it was. *)
Definition audioPlay (d : DeckId) (ok : bool) : Eff unit :=
  fun w =>
    let w := called (CallAudioPlay d) w in
    if ok then (Returned tt, onDeck d (Deck.setAudio (Audio.setPaused false)) w)
    else (Thrown, w).

(** [<deck d>.audio.pause()] *)
Definition audioPause (d : DeckId) (w : World) : World :=
  called (CallAudioPause d) (onDeck d (Deck.setAudio (Audio.setPaused true)) w).

Definition rampGain (d : DeckId) (to seconds : Q) (w : World) : World :=
  called (CallRampGain d to seconds)
    (onDeck d (Deck.setRamp (Some (to, Qmax 0.01 seconds))) w).

Definition ensureCtx (env : Render.t) (o : Oracle) (w : World) : World :=
  let w :=
    match ctxRef w with
    | None =>
        let w := setCtxRef (Some (if ctxStartsSuspended o then suspended
                                  else running)) w in
        let w := setDeckARef (Some createDeck) w in
        let w := setDeckBRef (Some createDeck) w in
        let w := onDeck A (Deck.setAudio (Audio.setVolume (Render.volume env))) w in
        onDeck B (Deck.setAudio (Audio.setVolume (Render.volume env))) w
    | Some _ => w
    end in
  match ctxRef w with
  | Some suspended => if ctxResumeOk o then setCtxRef (Some running) w else w
  | _ => w
  end.

(** ** Playback and crossfade *)

Definition stopTick (w : World) : World :=
  match tickRef w with
  | Some _ => setTickRef None (called CallClearInterval w)
  | None => w
  end.

(** The interval keeps the callback of the render that started it. *)
Definition startTick (env : Render.t) (w : World) : World :=
  match tickRef w with
  | Some _ => w
  | None => setTickRef (Some env) (called CallSetInterval w)
  end.

(** The callback of the interval.  Where it reaches [next(true)], the
    promise joins [advancing]; its body runs when the promise settles (see
    [advanceSettles]). *)
Definition tick (env : Render.t) (w : World) : World :=
  match activeDeck w with
  | None => w
  | Some deck =>
      if negb (Render.radioMode env) || negb (Render.isPlaying env) then w
      else
        let a := Deck.audio deck in
        if negb (isFinite (Audio.duration a)) then w
        else
          match Audio.duration a with
          | JFin duration =>
              if Qleb duration 0 then w
              else
                let remaining := (duration - Audio.currentTime a)%Q in
                if Qleb remaining (Render.crossfadeSec env + 0.25)
                then
                  if pendingFadeRef w then w
                  else
                    let w := setPendingFadeRef true w in
                    setAdvancing (advancing w ++ [env]) (called CallAutoNext w)
                else w
          | _ => w
          end
  end.

Definition playTrack (env : Render.t) (track : Track.t) (crossfade : bool)
    (o : Oracle) : Eff unit :=
  (act (ensureCtx env o) ;;
   let xfade := crossfade && Render.isPlaying env in
   w <- get ;;
   let cur := activeRef w in
   let nxt := other (activeRef w) in
   match deckRef nxt w with
   | None => ret tt
   | Some _ =>
       act (onDeck nxt (Deck.setTrack (Some track))) ;;
       act (onDeck nxt (Deck.setAudio (Audio.loadSrc (Track.url track)))) ;;
       act (onDeck nxt (Deck.setGain 0)) ;;
       audioPlay nxt (startOk o) ;;
       w <- get ;;
       (if xfade && truthy (deckRef cur w)
        then
          act (rampGain nxt 1 (Render.crossfadeSec env)) ;;
          act (rampGain cur 0 (Render.crossfadeSec env)) ;;
          act (setTimeout (PauseDeck cur)
                 (Qmax 250 (Render.crossfadeSec env * 1000 + 100)))
        else
          (if truthy (deckRef cur w)
           then act (onDeck cur (Deck.setGain 0)) ;; act (audioPause cur)
           else ret tt) ;;
          act (onDeck nxt (Deck.setGain 1))) ;;
       act (fun w => setActiveRef (other (activeRef w)) w) ;;
       act (setReact (Render.setNowPlaying (Some track))) ;;
       act (setReact (Render.setIsPlaying true)) ;;
       act (fun w => onDeck (activeRef w)
                       (Deck.setAudio (Audio.setOnended (Some env))) w) ;;
       act (startTick env)
   end)%eff.

(** [pickNextTrack] as the handlers of render [env] call it. *)
Definition pick (env : Render.t) (o : Oracle) : Eff (option Track.t) :=
  fun w =>
    (Returned (pickNextTrack (Render.tracks env) (Render.station env)
                 (Render.nowPlaying env) (random o)),
     called CallPickNextTrack w).

Definition play (env : Render.t) (o : Oracle) : Eff unit :=
  match Render.tracks env with
  | [] => ret tt
  | _ :: _ =>
      (act (ensureCtx env o) ;;
       w <- get ;;
       let selectAndPlay : Eff unit :=
         first <- pick env o ;;
         match first with
         | None => ret tt
         | Some first => playTrack env first false o
         end in
       let resumable :=
         match activeDeck w with
         | Some cur => truthy (Deck.track cur) && Audio.paused (Deck.audio cur)
         | None => false
         end in
       if resumable
       then
         try_or
           (audioPlay (activeRef w) (resumeOk o) ;;
            act (setReact (Render.setIsPlaying true)) ;;
            act (startTick env) ;;
            ret true)
           selectAndPlay
       else selectAndPlay
      )%eff
  end.

Definition pause (w : World) : World :=
  match activeDeck w with
  | None => w
  | Some _ =>
      let w := audioPause (activeRef w) w in
      let w := setReact (Render.setIsPlaying false) w in
      stopTick w
  end.

Definition next (env : Render.t) (useCrossfade : bool) (o : Oracle) : Eff unit :=
  match Render.tracks env with
  | [] => ret tt
  | _ :: _ =>
      (nxt <- pick env o ;;
       match nxt with
       | None => ret tt
       | Some nxt => playTrack env nxt useCrossfade o
       end)%eff
  end.

Definition stop (w : World) : World :=
  let w := if truthy (deckARef w) then audioPause A w else w in
  let w := if truthy (deckBRef w) then audioPause B w else w in
  let w := onDeck A (Deck.setGain 0) w in
  let w := onDeck B (Deck.setGain 0) w in
  let w := setReact (Render.setIsPlaying false) w in
  stopTick w.

(** ** Callbacks, effects of the component and the events that run them *)

(** [next(true).finally(() => setTimeout(() => (pendingFadeRef.current =
    false), 500))]: the oldest unsettled promise of the monitor settles.
    Whether [next] returned or rejected, the [finally] callback runs. *)
Definition advanceSettles (o : Oracle) (w : World) : World :=
  match advancing w with
  | [] => w
  | env :: rest =>
      let w := setAdvancing rest w in
      let w := snd (next env true o w) in
      setTimeout ReleaseFade 500 w
  end.

(** The callback of a timeout. *)
Definition fire (action : Timeout) (w : World) : World :=
  match action with
  | PauseDeck d => audioPause d w
  | ReleaseFade => setPendingFadeRef false w
  end.

(** [ms] milliseconds pass: the timeouts that are due run, in the order in
    which they were set, the others have that much less to wait. *)
Definition elapse (ms : Q) (w : World) : World :=
  let due := List.filter (fun p => Qleb (fst p) ms) (timeouts w) in
  let waiting := List.filter (fun p => negb (Qleb (fst p) ms)) (timeouts w) in
  let w := setTimeouts (map (fun p => ((fst p - ms)%Q, snd p)) waiting) w in
  foldl (fun w p => fire (snd p) w) w due.

(** [active.audio.onended], installed by [playTrack]. *)
Definition ended (d : DeckId) (o : Oracle) (w : World) : World :=
  match deckRef d w with
  | None => w
  | Some deck =>
      match Audio.onended (Deck.audio deck) with
      | None => w
      | Some env =>
          if Render.radioMode env then snd (next env false o w)
          else setReact (Render.setIsPlaying false) w
      end
  end.

(** [Math.abs] *)
Definition Math_abs (x : Q) : Q := Qabs x.

(** The updater that the crossfade-sync effect passes to
    [setCrossfadeSec]. *)
Definition syncCrossfade (newDef : Q) (prev : Q) : Q :=
  if Qleb (Math_abs (prev - newDef)) 2 then newDef else prev.

(** [setStationName(name)] and the render that follows: the effect with
    dependency [station.crossfadeDefaultSec] runs when that number has
    changed. *)
Definition selectStation (name : string) (w : World) : World :=
  let oldDef := Station.crossfadeDefaultSec (Render.station (react w)) in
  let w := setReact (Render.setStationName name) w in
  let newDef := Station.crossfadeDefaultSec (Render.station (react w)) in
  if Qeq_bool oldDef newDef then w
  else
    setReact (fun r => Render.setCrossfadeSec
                         (syncCrossfade newDef (Render.crossfadeSec r)) r) w.

(** [setVolume(v)] and the effect with dependency [volume]. *)
Definition changeVolume (v : Q) (w : World) : World :=
  let w := setReact (Render.setVolume v) w in
  let w := onDeck A (Deck.setAudio (Audio.setVolume v)) w in
  onDeck B (Deck.setAudio (Audio.setVolume v)) w.

(** Everything that can happen to the mounted component.  A click runs the
    handler of the latest render. *)
Inductive Event : Type :=
| Tick                                        (* the interval fires *)
| AdvanceSettles (o : Oracle)
| Elapse (ms : Q)
| Ended (d : DeckId) (o : Oracle)
| MediaClock (d : DeckId) (time : Q) (dur : jsnum)
| Loaded (mapped : list Track.t)              (* [loadFromIA] has its list *)
| ClickPlayPause (o : Oracle)
| ClickNext (useCrossfade : bool) (o : Oracle)
| ClickStop
| ClickTrack (i : nat) (o : Oracle)           (* "Play (xfade)" on [tracks[i]] *)
| ClickStation (i : nat)
| SlideCrossfade (v : Q)
| SlideVolume (v : Q)
| CheckRadioMode (v : bool).

Definition step (e : Event) (w : World) : World :=
  match e with
  | Tick =>
      match tickRef w with
      | Some env => tick env w
      | None => w
      end
  | AdvanceSettles o => advanceSettles o w
  | Elapse ms => elapse ms w
  | Ended d o => ended d o w
  | MediaClock d time dur => onDeck d (Deck.setAudio (Audio.setClock time dur)) w
  | Loaded mapped =>
      match mapped with
      | [] => w                 (* "No audio files found": [tracks] is kept *)
      | _ :: _ => setReact (Render.setTracks mapped) w
      end
  | ClickPlayPause o =>
      if Render.isPlaying (react w) then pause w else snd (play (react w) o w)
  | ClickNext useCrossfade o => snd (next (react w) useCrossfade o w)
  | ClickStop => stop w
  | ClickTrack i o =>
      match take 50 (Render.tracks (react w)) !! i with
      | Some t => snd (playTrack (react w) t true o w)
      | None => w
      end
  | ClickStation i =>
      match STATIONS !! i with
      | Some s => selectStation (Station.name s) w
      | None => w
      end
  | SlideCrossfade v => setReact (Render.setCrossfadeSec v) w
  | SlideVolume v => changeVolume v w
  | CheckRadioMode v => setReact (Render.setRadioMode v) w
  end.

Definition run (es : list Event) (w : World) : World :=
  foldl (fun w e => step e w) w es.

(** ** The selection rules in the words of the specification *)

Definition Qsum (l : list Q) : Q := foldr Qplus 0%Q l.

Section ScoringRule.

(** The key under which a tag of the track is looked up in the mapping,
    and the test for "[t] is the track currently playing". *)
Variable key_of : string -> string.
Variable current : option Track.t -> Track.t -> bool.

(** The weights of the tags of the track that are keys of the mapping,
    one for every such tag. *)
Definition matching_weights (tw : gmap string Q) (tags : list string)
    : list Q :=
  omap (fun k => tw !! key_of k) tags.

Definition score_rule (profile : Station.t) (currentTrack : option Track.t)
    (t : Track.t) : Q :=
  let base := default 1%Q (Track.weight t) in
  let tw := Station.tagWeights profile in
  let n := num_of_nat (length (Track.tags t)) in
  let s :=
    if decide (dom tw = ∅)
    then (base + Qmin 2 (0.25 * n))%Q
    else (base + Qsum (matching_weights tw (Track.tags t))
          + Qmin 2 (0.15 * n))%Q in
  let s := if current currentTrack t then (s * 0.05)%Q else s in
  Qmax 0 s.

End ScoringRule.

(** Tracks are identified by [id]. *)
Definition same_id (currentTrack : option Track.t) (t : Track.t) : bool :=
  match currentTrack with
  | Some p => bool_decide (Track.id t = Track.id p)
  | None => false
  end.

(** The same, for a current track whose [id] is not the empty string. *)
Definition same_nonempty_id (currentTrack : option Track.t) (t : Track.t)
    : bool :=
  match currentTrack with
  | Some p => bool_decide (Track.id p <> "" /\ Track.id t = Track.id p)
  | None => false
  end.

(** The score as the rule is worded: a tag counts when it is itself a key. *)
Definition score_by_tag := score_rule (fun k => k) same_id.

(** The score with a tag counted when its normalised form is a key. *)
Definition score_by_normalized_tag := score_rule normalizeTag same_nonempty_id.

(** [x] is [y] within [tol]. *)
Definition approx (tol x y : Q) : Prop := (Qabs (x - y) <= tol)%Q.

(** What is left of the draw [r] after the weights of the first [n]
    candidates have been subtracted from it, in catalog order. *)
Definition remainder (r : Q) (weights : list Q) (n : nat) : Q :=
  foldl Qminus r (take n weights).

(** Candidate [i] is the one at which the remainder becomes [<= 0]. *)
Definition stops_at (r : Q) (weights : list Q) (i : nat) : Prop :=
  (remainder r weights (S i) <= 0)%Q /\
  forall j, j < i -> ~ (remainder r weights (S j) <= 0)%Q.

(** Index [k] is the one that the draw [u] of [[0,1)] selects among [n]
    equally likely candidates. *)
Definition uniform_choice (u : Q) (n k : nat) : Prop :=
  (num_of_nat k <= u * num_of_nat n)%Q /\
  (u * num_of_nat n < num_of_nat (S k))%Q.

(** ** Observations on worlds *)

(** The calls made between a world and a later one, latest first. *)
Definition calls_since (w w' : World) : list Call :=
  take (length (calls w') - length (calls w)) (calls w').

Definition is_ramp (c : Call) : bool :=
  match c with
  | CallRampGain _ _ _ => true
  | _ => false
  end.

(** The active deck holds a loaded track and is paused. *)
Definition resumable (w : World) : Prop :=
  exists cur t,
    activeDeck w = Some cur /\ Deck.track cur = Some t /\
    Audio.paused (Deck.audio cur) = true.

(** From [w] to [w'] the active deck was resumed in place: no selection, no
    ramp, the same current track and deck roles, the active deck playing
    and otherwise as it was, the other deck untouched, the monitor
    running. *)
Definition resumed_in_place (w w' : World) : Prop :=
  (CallPickNextTrack ∉ calls_since w w') /\
  Forall (fun c => is_ramp c = false) (calls_since w w') /\
  Render.nowPlaying (react w') = Render.nowPlaying (react w) /\
  activeRef w' = activeRef w /\
  (exists cur, activeDeck w = Some cur /\
     activeDeck w' = Some (Deck.setAudio (Audio.setPaused false) cur)) /\
  inactiveDeck w' = inactiveDeck w /\
  Render.isPlaying (react w') = true /\
  is_Some (tickRef w').

(** The waits of the pending timeouts that clear the pending-fade flag. *)
Definition releases (ts : list (Q * Timeout)) : list Q :=
  omap (fun p => match snd p with
                 | ReleaseFade => Some (fst p)
                 | PauseDeck _ => None
                 end) ts.

(** The tick run on [w] with the callback of render [env] called
    [next(true)]. *)
Definition triggers (env : Render.t) (w : World) : Prop :=
  advancing (tick env w) = advancing w ++ [env].

(** The pending-fade guard is the same in both worlds: the flag, the
    unsettled promises of the monitor and the timeouts that will clear the
    flag. *)
Definition same_guard (w w' : World) : Prop :=
  pendingFadeRef w' = pendingFadeRef w /\
  advancing w' = advancing w /\
  releases (timeouts w') = releases (timeouts w).

(** An effect whose final world is related by [R] to the one it started in,
    however it completes. *)
Definition keeps {X : Type} (R : World -> World -> Prop) (c : Eff X) : Prop :=
  forall w, R w (snd (c w)).

(** The decks are created together with the audio context. *)
Definition decks_need_ctx (w : World) : Prop :=
  ctxRef w = None -> deckARef w = None /\ deckBRef w = None.

Definition ctx_kept (w w' : World) : Prop :=
  decks_need_ctx w -> decks_need_ctx w'.

(** The flag is set exactly while a promise of the monitor is unsettled or
    a release is pending, and there is at most one of those. *)
Definition guard_inv (w : World) : Prop :=
  (pendingFadeRef w = true <->
   advancing w <> [] \/ releases (timeouts w) <> []) /\
  length (advancing w) + length (releases (timeouts w)) <= 1.

(** ** Sample data *)

(** A station that weights a year tag, and a track with the tags that
    [inferTagsFromPath] gives the path [Montana 2000/Comp 1.mp3]. *)
Definition YearStation : Station.t :=
  Station.mk "Year 2000" "The gathering of 2000." {[ "year:2000" := 3%Q ]} 6.

Definition Comp1 : Track.t :=
  Track.mk "k3j9x2lq" "Comp 1" "Montana 2000/Comp 1.mp3"
    "https://archive.org/download/soundsfromtherainbow2000-2025/Montana%202000/Comp%201.mp3"
    ["montana"; "comp"; "year:2000"; "folder:montana 2000"; "folder:comp 1mp3"]
    (Some 1%Q).

(** The catalog of the "All Field" scenario. *)
Definition Untagged : Track.t :=
  Track.mk "a" "untagged" "untagged.mp3" "https://archive.org/download/x/untagged.mp3"
    [] (Some 1%Q).
Definition Birds : Track.t :=
  Track.mk "b" "birds" "birds.mp3" "https://archive.org/download/x/birds.mp3"
    ["birds"] (Some 1%Q).
Definition BirdsDawn : Track.t :=
  Track.mk "c" "birds dawn" "birds dawn.mp3"
    "https://archive.org/download/x/birds%20dawn.mp3"
    ["birds"; "dawn"] (Some 1%Q).

(** A platform that fulfils every promise, one that rejects the
    [cur.audio.play()] of [play], one that rejects the [nxt.audio.play()] of
    [playTrack]; the draw is 0.5 in each. *)
Definition fulfilled : Oracle := mkOracle 0.5 false true true true.
Definition resume_rejected : Oracle := mkOracle 0.5 false true false true.
Definition start_rejected : Oracle := mkOracle 0.5 false true true false.

(** The catalog is loaded, Play is clicked, then Pause. *)
Definition paused_world : World :=
  run [Loaded [Untagged; Birds; BirdsDawn];
       ClickPlayPause fulfilled; ClickPlayPause fulfilled] mounted.

(** A track is playing on deck B, 6.2 s from the end of its 120 s. *)
Definition near_end_world : World :=
  run [Loaded [Untagged; Birds; BirdsDawn]; ClickPlayPause fulfilled;
       MediaClock B 113.8 (JFin 120)] mounted.

(** ** The other utilities *)

(** [Array.from(new Set(arr))]: a set keeps its elements in the order in
    which they were first added.  [seen] holds what the set has so far. *)
Fixpoint dedupe_from {T : Type} `{EqDecision T} (seen arr : list T) : list T :=
  match arr with
  | [] => []
  | x :: rest =>
      if bool_decide (x ∈ seen) then dedupe_from seen rest
      else x :: dedupe_from (x :: seen) rest
  end.

Definition dedupe {T : Type} `{EqDecision T} (arr : list T) : list T :=
  dedupe_from [] arr.

Module Uri.

(** The characters that [encodeURIComponent] leaves alone:
    [A-Z a-z 0-9 - _ . ! ~ * ' ( )]. *)
Definition unreserved (c : ascii) : bool :=
  let n := Chars.code c in
  ((65 <=? n) && (n <=? 90))%N || ((97 <=? n) && (n <=? 122))%N
  || ((48 <=? n) && (n <=? 57))%N
  || (n =? 45)%N || (n =? 95)%N || (n =? 46)%N || (n =? 33)%N
  || (n =? 126)%N || (n =? 42)%N || (n =? 39)%N || (n =? 40)%N || (n =? 41)%N.

(** One digit of the upper-case hexadecimal notation. *)
Definition hex_digit (n : N) : ascii :=
  if (n <? 10)%N then Ascii.ascii_of_N (48 + n) else Ascii.ascii_of_N (55 + n).

(** The escape [%XX] of a byte. *)
Definition escape (c : ascii) : list ascii :=
  let n := Chars.code c in
  ["%"%char; hex_digit (n / 16); hex_digit (n mod 16)].

Definition encode_char (c : ascii) : list ascii :=
  if unreserved c then [c] else escape c.

End Uri.

(** [encodeURIComponent], on the bytes of the string. *)
Definition encodeURIComponent (seg : list ascii) : list ascii :=
  flat_map Uri.encode_char seg.

Definition is_slash (c : ascii) : bool := (Chars.code c =? 47)%N.

(** [.split("/")], on the characters of the string: there is always a first
    segment, and a slash ends the segment before it. *)
Fixpoint split_slash (l : list ascii) : list (list ascii) :=
  match l with
  | [] => [[]]
  | c :: rest =>
      if is_slash c then [] :: split_slash rest
      else
        match split_slash rest with
        | seg :: segs => (c :: seg) :: segs
        | [] => [[c]]
        end
  end.

(** [.join("/")] *)
Fixpoint join_slash (segs : list (list ascii)) : list ascii :=
  match segs with
  | [] => []
  | [seg] => seg
  | seg :: segs => seg ++ "/"%char :: join_slash segs
  end.

Definition encodePathPreserveSlashes (path : string) : string :=
  string_of_list_ascii
    (join_slash (map encodeURIComponent (split_slash (list_ascii_of_string path)))).

(** What [encodePathPreserveSlashes] makes of one character: a slash
    stays, any other character is encoded as in a URI component. *)
Definition encode_path_char (c : ascii) : list ascii :=
  if is_slash c then [c] else Uri.encode_char c.

(** The characters of an encoded path. *)
Definition path_safe (c : ascii) : bool :=
  Uri.unreserved c || (Chars.code c =? 37)%N || is_slash c.

Module Infer.

(** [\w] and [\d] *)
Definition is_word (c : ascii) : bool :=
  let n := Chars.code c in
  ((65 <=? n) && (n <=? 90))%N || ((97 <=? n) && (n <=? 122))%N
  || ((48 <=? n) && (n <=? 57))%N || (n =? 95)%N.

Definition is_digit (c : ascii) : bool :=
  let n := Chars.code c in ((48 <=? n) && (n <=? 57))%N.

Definition char_eqb (a b : ascii) : bool := (Chars.code a =? Chars.code b)%N.

(** [l] starts with [k]. *)
Fixpoint starts_with (k l : list ascii) : bool :=
  match k, l with
  | [], _ => true
  | a :: k', b :: l' => char_eqb a b && starts_with k' l'
  | _ :: _, [] => false
  end.

(** [l.includes(k)] *)
Fixpoint includes (k l : list ascii) : bool :=
  starts_with k l ||
  match l with
  | [] => false
  | _ :: rest => includes k rest
  end.

(** [/k\b/.test(l)] for a literal [k] that ends in a word character: an
    occurrence of [k] that the end of the string or a character that is not
    a word character follows. *)
Fixpoint starts_with_word_end (k l : list ascii) : bool :=
  match k, l with
  | [], [] => true
  | [], c :: _ => negb (is_word c)
  | a :: k', b :: l' => char_eqb a b && starts_with_word_end k' l'
  | _ :: _, [] => false
  end.

Fixpoint includes_word_end (k l : list ascii) : bool :=
  starts_with_word_end k l ||
  match l with
  | [] => false
  | _ :: rest => includes_word_end k rest
  end.

(** [.replace(/[_]+/g, " ")] *)
Fixpoint underscores_to_space (in_run : bool) (l : list ascii) : list ascii :=
  match l with
  | [] => []
  | c :: rest =>
      if (Chars.code c =? 95)%N
      then (if in_run then underscores_to_space true rest
            else " "%char :: underscores_to_space true rest)
      else c :: underscores_to_space false rest
  end.

(** An attempt of [\b(19|20)\d{2}\b] at the start of [l], where the
    character before [l] is a word character or not. *)
Definition year_at (prev_is_word : bool) (l : list ascii) : option (list ascii) :=
  match l with
  | c1 :: c2 :: d1 :: d2 :: rest =>
      if negb prev_is_word
         && ((char_eqb c1 "1" && char_eqb c2 "9")
             || (char_eqb c1 "2" && char_eqb c2 "0"))
         && is_digit d1 && is_digit d2
         && match rest with
            | [] => true
            | c :: _ => negb (is_word c)
            end
      then Some [c1; c2; d1; d2]
      else None
  | _ => None
  end.

(** [.match(/\b(19|20)\d{2}\b/g) ?? []]: the matches from left to right;
    after a match the search goes on behind it, which [skip] counts down. *)
Fixpoint year_matches (skip : nat) (prev_is_word : bool) (l : list ascii)
    : list (list ascii) :=
  match l with
  | [] => []
  | c :: rest =>
      match skip with
      | S skip' => year_matches skip' (is_word c) rest
      | O =>
          match year_at prev_is_word l with
          | Some y => y :: year_matches 3 (is_word c) rest
          | None => year_matches 0 (is_word c) rest
          end
      end
  end.

Definition likely : list string :=
  ["campfire"; "kitchen"; "rain"; "river"; "wind"; "birds"; "drum"; "chant";
   "crowd"; "night"; "dawn"; "morning"; "evening"; "crickets"; "frog";
   "guitar"; "fiddle"; "flute"; "harp"; "voice"; "story"; "interview";
   "silence";
   "montana"; "new mexico"; "california"; "new hampshire"; "brazil"; "mexico";
   "panama"; "new zealand";
   "comp"; "seed camp"; "main circle"; "welcome home"].

(** The tests on the leaf name, in the order of the code: the substrings of
    each regular expression, those that a word boundary must follow, and
    the tag pushed. *)
Definition heuristics : list (list string * list string * string) :=
  [ (["chant"; "aum"], ["om"], "chant");
    (["drum"; "boogie"; "beat"], [], "drum");
    (["kitchen"; "cook"; "breakfast"; "lunch"; "dinner"], [], "kitchen");
    (["cricket"; "night"], [], "night");
    (["dawn"; "morning"; "sunrise"], [], "dawn");
    (["bird"; "blackbird"; "crow"; "hawk"], [], "birds");
    (["rain"; "storm"; "thunder"], [], "rain");
    (["river"; "creek"; "stream"], [], "river");
    (["wind"], [], "wind");
    (["interview"; "talk"; "story"], [], "interview") ].

(** [/a|b|c\b/i.test(leaf)] for a leaf in lower case. *)
Definition test (plain bounded : list string) (leaf : list ascii) : bool :=
  existsb (fun k => includes (list_ascii_of_string k) leaf) plain
  || existsb (fun k => includes_word_end (list_ascii_of_string k) leaf) bounded.

(** [.filter(Boolean)] on strings: the empty string is falsy. *)
Definition nonempty (s : string) : bool :=
  match s with
  | EmptyString => false
  | String _ _ => true
  end.

(** The tags that are words: the keywords and the tags of the tests on the
    leaf name. *)
Definition vocabulary : list string := likely ++ map snd heuristics.

(** A year of the 20th or 21st century in four digits. *)
Definition is_year (y : list ascii) : bool :=
  match y with
  | [c1; c2; d1; d2] =>
      ((char_eqb c1 "1" && char_eqb c2 "9")
       || (char_eqb c1 "2" && char_eqb c2 "0"))
      && is_digit d1 && is_digit d2
  | _ => false
  end.

(** The three kinds of tags: a word, a year, and a folder of [fullPath]. *)
Definition is_word_tag (tag : string) : Prop :=
  tag ∈ vocabulary /\ normalizeTag tag = tag.

Definition is_year_tag (tag : string) : Prop :=
  exists y, is_year y = true /\ tag = String.append "year:" (string_of_list_ascii y).

Definition is_folder_tag (fullPath tag : string) : Prop :=
  let parts :=
    List.filter nonempty
      (map (fun p => normalizeTag (string_of_list_ascii p))
         (split_slash (list_ascii_of_string fullPath))) in
  exists i seg,
    i < 2 /\ parts !! i = Some (normalizeTag (string_of_list_ascii seg)) /\
    seg ∈ split_slash (list_ascii_of_string fullPath) /\
    normalizeTag (string_of_list_ascii seg) <> "" /\
    tag = String.append "folder:" (normalizeTag (string_of_list_ascii seg)).

End Infer.

Definition inferTagsFromPath (fullPath : string) : list string :=
  let chars := list_ascii_of_string fullPath in
  let s :=
    list_ascii_of_string
      (normalizeTag
         (string_of_list_ascii (Infer.underscores_to_space false chars))) in
  let keywords :=
    map normalizeTag
      (List.filter (fun k => Infer.includes (list_ascii_of_string k) s)
         Infer.likely) in
  let years :=
    map (fun y => String.append "year:" (string_of_list_ascii y))
      (Infer.year_matches 0 false chars) in
  let parts :=
    List.filter Infer.nonempty
      (map (fun p => normalizeTag (string_of_list_ascii p)) (split_slash chars)) in
  let folders := map (fun p => String.append "folder:" p) (take 2 parts) in
  let leaf :=
    map Chars.toLowerCase
      (match last (split_slash chars) with
       | Some (c :: seg) => c :: seg
       | _ => chars
       end) in
  let heuristic :=
    map (fun h => snd h)
      (List.filter (fun h => Infer.test (fst (fst h)) (snd (fst h)) leaf)
         Infer.heuristics) in
  List.filter Infer.nonempty
    (dedupe (keywords ++ years ++ folders ++ heuristic)).

(** ** Observations on the engine *)

(** The decks exist exactly when the audio context does. *)
Definition decks_match_ctx (w : World) : Prop :=
  truthy (deckARef w) = truthy (ctxRef w) /\
  truthy (deckBRef w) = truthy (ctxRef w).

Definition match_kept (w w' : World) : Prop :=
  decks_match_ctx w -> decks_match_ctx w'.

Definition is_pause (c : Call) : bool :=
  match c with
  | CallAudioPause _ => true
  | _ => false
  end.

(** *** The paths through [playTrack]

    Where both decks exist once [ensureCtx] has run, [playTrack] is one of
    three sequences of writes.  [started]: the inactive deck is loaded and
    its [play()] is fulfilled.  [finished]: the roles swap and the render
    state, the [ended] handler and the monitor are set. *)
Definition loaded (env : Render.t) (track : Track.t) (o : Oracle) (w : World)
    : World :=
  let nxt := other (activeRef w) in
  onDeck nxt (Deck.setGain 0)
    (onDeck nxt (Deck.setAudio (Audio.loadSrc (Track.url track)))
       (onDeck nxt (Deck.setTrack (Some track)) (ensureCtx env o w))).

Definition started (env : Render.t) (track : Track.t) (o : Oracle) (w : World)
    : World :=
  let nxt := other (activeRef w) in
  onDeck nxt (Deck.setAudio (Audio.setPaused false))
    (called (CallAudioPlay nxt) (loaded env track o w)).

Definition finished (env : Render.t) (track : Track.t) (w : World) : World :=
  let w := setActiveRef (other (activeRef w)) w in
  let w := setReact (Render.setNowPlaying (Some track)) w in
  let w := setReact (Render.setIsPlaying true) w in
  let w := onDeck (activeRef w) (Deck.setAudio (Audio.setOnended (Some env))) w in
  startTick env w.

Definition hard_cut (env : Render.t) (track : Track.t) (o : Oracle) (w : World)
    : World :=
  let cur := activeRef w in
  finished env track
    (onDeck (other cur) (Deck.setGain 1)
       (audioPause cur (onDeck cur (Deck.setGain 0) (started env track o w)))).

Definition crossfaded (env : Render.t) (track : Track.t) (o : Oracle)
    (w : World) : World :=
  let cur := activeRef w in
  let cf := Render.crossfadeSec env in
  finished env track
    (setTimeout (PauseDeck cur) (Qmax 250 (cf * 1000 + 100))
       (rampGain cur 0 cf (rampGain (other cur) 1 cf (started env track o w)))).

(** *** What holds between two handlers *)

(** The track shown as playing is the one loaded on the active deck. *)
Definition shows_active_track (w : World) : Prop :=
  Render.nowPlaying (react w) = activeDeck w ≫= Deck.track.

(** The element of deck [d], if the deck exists, has the volume of the
    state. *)
Definition deck_volume_applied (d : DeckId) (w : World) : Prop :=
  match deckRef d w with
  | Some deck => Audio.volume (Deck.audio deck) = Render.volume (react w)
  | None => True
  end.

Definition engine_inv (w : World) : Prop :=
  decks_match_ctx w /\
  shows_active_track w /\
  deck_volume_applied A w /\
  deck_volume_applied B w /\
  (ctxRef w = None -> advancing w = []).

(** The handlers of render [env] may run in [w]: where they would create
    the decks, [env] has the volume of the latest render. *)
Definition handler_of (env : Render.t) (w : World) : Prop :=
  ctxRef w = None -> Render.volume env = Render.volume (react w).

Definition inv_kept (env : Render.t) (w w' : World) : Prop :=
  engine_inv w /\ handler_of env w -> engine_inv w' /\ handler_of env w'.

(** The worlds differ in the calls made at most. *)
Definition same_but_calls (w w' : World) : Prop :=
  react w' = react w /\ ctxRef w' = ctxRef w /\ deckARef w' = deckARef w /\
  deckBRef w' = deckBRef w /\ activeRef w' = activeRef w /\
  tickRef w' = tickRef w /\ pendingFadeRef w' = pendingFadeRef w /\
  timeouts w' = timeouts w /\ advancing w' = advancing w.

(** ** Loading the catalog *)

Module Load.

(** [base] of [loadFromIA], with [IA_IDENTIFIER] in it. *)
Definition base : string :=
  "https://archive.org/download/soundsfromtherainbow2000-2025/".

(** The class [[a-z0-9]] under the [i] flag. *)
Definition is_alnum (c : ascii) : bool :=
  let n := Chars.code c in
  ((65 <=? n) && (n <=? 90))%N || ((97 <=? n) && (n <=? 122))%N
  || ((48 <=? n) && (n <=? 57))%N.

Definition extensions : list string :=
  ["mp3"; "ogg"; "opus"; "wav"; "flac"; "m4a"; "aac"].

(** [\.(mp3|ogg|opus|wav|flac|m4a|aac)], under the [i] flag, on all of
    [l]. *)
Definition audio_ext (l : list ascii) : bool :=
  match l with
  | c :: ext =>
      Infer.char_eqb c "."
      && bool_decide (string_of_list_ascii (map Chars.toLowerCase ext)
                        ∈ extensions)
  | [] => false
  end.

(** [\.[a-z0-9]+], under the [i] flag, on all of [l]. *)
Definition any_ext (l : list ascii) : bool :=
  match l with
  | c :: d :: rest => Infer.char_eqb c "." && forallb is_alnum (d :: rest)
  | _ => false
  end.

(** [re.test(l)] for a regular expression [body$]: some rest of [l] matches
    [body] as a whole. *)
Fixpoint test (body : list ascii -> bool) (l : list ascii) : bool :=
  body l
  || match l with
     | [] => false
     | _ :: rest => test body rest
     end.

(** [l.replace(re, "")] for a regular expression [body$]: the first match
    from the left is cut off. *)
Fixpoint cut (body : list ascii -> bool) (l : list ascii) : list ascii :=
  if body l then []
  else
    match l with
    | [] => []
    | c :: rest => c :: cut body rest
    end.

(** [full.split("/").pop() || full] *)
Definition leaf (full : list ascii) : list ascii :=
  match last (split_slash full) with
  | Some (c :: seg) => c :: seg
  | _ => full
  end.

End Load.

(** The track that [loadFromIA] makes of the file [full], [id] being what
    [uid()] returns. *)
Definition mapFile (id : string) (full : string) : Track.t :=
  Track.mk id
    (string_of_list_ascii
       (Load.cut Load.any_ext (Load.leaf (list_ascii_of_string full))))
    full
    (String.append Load.base (encodePathPreserveSlashes full))
    (inferTagsFromPath full)
    (Some 1%Q).

(** The tracks that [loadFromIA] passes to [setTracks] for the file names
    of the item, [uid i] being what the call of [uid()] for the [i]-th audio
    file returns; [None] where it throws for want of audio files. *)
Definition loadFromIA (uid : nat -> string) (names : list string)
    : option (list Track.t) :=
  let audio :=
    List.filter (fun n => Load.test Load.audio_ext (list_ascii_of_string n))
      names in
  match audio with
  | [] => None
  | _ :: _ => Some (imap (fun i n => mapFile (uid i) n) audio)
  end.

(** * Properties *)

(** ** Numbers and lists *)

Lemma Qleb_true (a b : Q) : Qleb a b = true <-> (a <= b)%Q.
Proof. apply Qle_bool_iff. Qed.

Lemma Qleb_false (a b : Q) : Qleb a b = false <-> ~ (a <= b)%Q.
Proof.
  rewrite <- Qleb_true. destruct (Qleb a b); split; intros; done.
Qed.

Lemma Qmax0_idem (x : Q) : Qmax 0 (Qmax 0 x) = Qmax 0 x.
Proof.
  unfold Qmax, GenericMinMax.gmax.
  destruct (0 ?= x)%Q eqn:E; rewrite ?E; reflexivity.
Qed.

Lemma item_at_of_nat {T : Type} (items : list T) (k : nat) :
  item_at items (Z.of_nat k) = items !! k.
Proof.
  unfold item_at. destruct (Z.ltb_spec (Z.of_nat k) 0); [lia|].
  now rewrite Nat2Z.id.
Qed.

Lemma last_item_last {T : Type} (items : list T) : last_item items = last items.
Proof.
  unfold last_item. rewrite last_lookup.
  destruct items as [|x items]; [reflexivity|].
  replace (Z.of_nat (length (x :: items)) - 1)%Z
    with (Z.of_nat (pred (length (x :: items)))) by (simpl; lia).
  apply item_at_of_nat.
Qed.

(** The index that [Math.floor(Math.random() * items.length)] computes lies
    in the array. *)
Lemma floor_index (u : Q) (n : nat) :
  (0 <= u)%Q -> (u < 1)%Q -> n <> 0 ->
  exists k, Math_floor (u * num_of_nat n) = Z.of_nat k /\ k < n /\
            uniform_choice u n k.
Proof.
  intros H0 H1 Hn. unfold Math_floor.
  set (x := (u * num_of_nat n)%Q).
  assert (Hpos : (0 < num_of_nat n)%Q).
  { unfold num_of_nat. change 0%Q with (inject_Z 0). rewrite <- Zlt_Qlt. lia. }
  assert (Hx0 : (0 <= x)%Q) by (unfold x; apply Qmult_le_0_compat; lra).
  assert (Hx1 : (x < num_of_nat n)%Q).
  { unfold x. rewrite <- (Qmult_1_l (num_of_nat n)) at 2.
    apply Qmult_lt_compat_r; assumption. }
  assert (Hf0 : (0 <= Qfloor x)%Z).
  { change 0%Z with (Qfloor 0). apply Qfloor_resp_le, Hx0. }
  assert (Hf1 : (Qfloor x < Z.of_nat n)%Z).
  { rewrite Zlt_Qlt. eapply Qle_lt_trans; [apply Qfloor_le|]. exact Hx1. }
  exists (Z.to_nat (Qfloor x)). split; [lia|]. split; [lia|].
  unfold uniform_choice, num_of_nat. fold x.
  rewrite Nat2Z.inj_succ, Z2Nat.id by lia. split.
  - apply Qfloor_le.
  - unfold Z.succ. apply Qlt_floor.
Qed.

(** ** The weighted draw *)

Lemma foldl_minus_sum (r : Q) (l : list Q) :
  (foldl Qminus r l == r - Qsum l)%Q.
Proof.
  revert r. induction l as [|w l IH]; intros r; simpl.
  - ring.
  - rewrite IH. ring.
Qed.

Lemma remainder_comp (r r' : Q) (weights : list Q) (n : nat) :
  (r == r')%Q -> (remainder r weights n == remainder r' weights n)%Q.
Proof.
  intros E. unfold remainder. rewrite !foldl_minus_sum, E. reflexivity.
Qed.

Lemma stops_at_comp (r r' : Q) (weights : list Q) (i : nat) :
  (r == r')%Q -> stops_at r weights i -> stops_at r' weights i.
Proof.
  intros E [H1 H2]. split.
  - rewrite <- (remainder_comp r r' weights (S i) E). exact H1.
  - intros j Hj. rewrite <- (remainder_comp r r' weights (S j) E). auto.
Qed.

Lemma remainder_step (r w : Q) (weights : list Q) (i : nat) :
  weights !! i = Some w ->
  remainder r weights (S i) = (remainder r weights i - w)%Q.
Proof.
  intros Hw. unfold remainder.
  rewrite (take_S_r _ _ _ Hw), foldl_app. reflexivity.
Qed.

Lemma total_clamped (weights : list Q) (a : Q) :
  (foldl (fun a w => a + Qmax 0 w) a weights
   == a + Qsum (map (Qmax 0) weights))%Q.
Proof.
  revert a. induction weights as [|w l IH]; intros a; simpl.
  - ring.
  - rewrite IH. ring.
Qed.

Lemma total_clamped_idem (weights : list Q) (a : Q) :
  foldl (fun a w => (a + Qmax 0 w)%Q) a (map (Qmax 0) weights)
  = foldl (fun a w => (a + Qmax 0 w)%Q) a weights.
Proof.
  revert a. induction weights as [|w l IH]; intros a; simpl; [reflexivity|].
  rewrite Qmax0_idem. apply IH.
Qed.

Section Loop.

Context {T : Type} (items : list T) (weights : list Q).
Hypothesis same_length : length weights = length items.

Local Abbreviation clamped := (map (Qmax 0) weights).

(** The loop returns the first candidate at which the remainder is
    [<= 0], and the last candidate when there is none. *)
Lemma weightedPick_loop_spec (r0 : Q) (n i : nat) :
  i + n = length items ->
  (forall j, j < i -> ~ (remainder r0 clamped (S j) <= 0)%Q) ->
  (exists k, k < length items /\
     weightedPick_loop items weights i n (remainder r0 clamped i)
     = items !! k /\ stops_at r0 clamped k)
  \/ (weightedPick_loop items weights i n (remainder r0 clamped i)
      = last_item items /\
      forall j, j < length items -> ~ (remainder r0 clamped (S j) <= 0)%Q).
Proof.
  revert i. induction n as [|n IH]; intros i Hi Hprev; simpl.
  - right. split; [reflexivity|]. intros j Hj. apply Hprev. lia.
  - destruct (lookup_lt_is_Some_2 weights i) as [w Hw]; [lia|].
    rewrite Hw.
    assert (Hc : clamped !! i = Some (Qmax 0 w)).
    { change clamped with (Qmax 0 <$> weights).
      rewrite list_lookup_fmap, Hw. reflexivity. }
    rewrite <- (remainder_step r0 _ clamped i Hc).
    destruct (Qleb (remainder r0 clamped (S i)) 0) eqn:E.
    + left. exists i. split; [lia|]. split; [reflexivity|].
      split; [apply Qleb_true, E | exact Hprev].
    + apply IH; [lia|]. intros j Hj.
      destruct (decide (j = i)) as [->|Hne].
      * apply Qleb_false, E.
      * apply Hprev. lia.
Qed.

Lemma weightedPick_loop_idem (i n : nat) (r : Q) :
  weightedPick_loop items clamped i n r = weightedPick_loop items weights i n r.
Proof.
  revert i r. induction n as [|n IH]; intros i r; simpl; [reflexivity|].
  change clamped with (Qmax 0 <$> weights). rewrite list_lookup_fmap.
  destruct (weights !! i) as [w|]; simpl; [|reflexivity].
  rewrite Qmax0_idem. destruct (Qleb _ 0); [reflexivity|]. apply IH.
Qed.

(** The draw, characterised: with a positive total, the candidate at
    which the remainder of [u * total] becomes [<= 0]; otherwise the
    candidate that [u] selects uniformly. *)
Lemma weightedPick_spec (u : Q) :
  items <> [] -> (0 <= u)%Q -> (u < 1)%Q ->
  exists x, weightedPick items weights u = Some x /\ x ∈ items /\
    ((0 < Qsum clamped)%Q ->
       exists i, items !! i = Some x /\ stops_at (u * Qsum clamped) clamped i) /\
    ((Qsum clamped <= 0)%Q ->
       exists k, items !! k = Some x /\ uniform_choice u (length items) k).
Proof.
  intros Hne Hu0 Hu1. unfold weightedPick.
  set (total := foldl _ _ weights).
  assert (Htot : (total == Qsum clamped)%Q).
  { unfold total. rewrite total_clamped. ring. }
  assert (Hlen : length items <> 0) by (destruct items; simpl; congruence).
  destruct (Qleb total 0) eqn:E.
  - apply Qleb_true in E.
    destruct (floor_index u (length items) Hu0 Hu1 Hlen) as (k & -> & Hk & Hun).
    rewrite item_at_of_nat.
    destruct (lookup_lt_is_Some_2 items k Hk) as [x Hx].
    exists x. split; [exact Hx|]. split; [eapply list_elem_of_lookup_2, Hx|].
    split; [intros Hpos; rewrite <- Htot in Hpos; lra|].
    intros _. exists k. split; assumption.
  - apply Qleb_false in E.
    destruct (weightedPick_loop_spec (u * total) (length items) 0)
      as [(k & Hk & Hres & Hstop)|[_ Hnone]]; [lia|intros j Hj; lia| |].
    + change (remainder (u * total) clamped 0) with (u * total)%Q in Hres.
      rewrite Hres.
      destruct (lookup_lt_is_Some_2 items k Hk) as [x Hx].
      exists x. split; [exact Hx|]. split; [eapply list_elem_of_lookup_2, Hx|].
      split; [|intros Hle; rewrite <- Htot in Hle; contradiction].
      intros _. exists k. split; [exact Hx|].
      eapply stops_at_comp, Hstop. rewrite Htot. reflexivity.
    + exfalso. apply (Hnone (pred (length items))); [lia|].
      replace (S (pred (length items))) with (length clamped)
        by (rewrite length_map; lia).
      unfold remainder. rewrite firstn_all, foldl_minus_sum, <- Htot.
      assert (0 < total)%Q by lra. nra.
Qed.

End Loop.

(** ** Scoring *)

Lemma has_weights_dom (tw : gmap string Q) :
  (0 <? size tw)%nat = false <-> dom tw = ∅.
Proof.
  rewrite Nat.ltb_ge, dom_empty_iff_L, <- map_size_empty_iff. lia.
Qed.





Example scoreTrack_Comp1 : (scoreTrack YearStation None Comp1 == 1.75)%Q.
Proof. vm_compute. reflexivity. Qed.

Example score_by_tag_Comp1 : (score_by_tag YearStation None Comp1 == 4.75)%Q.
Proof. vm_compute. reflexivity. Qed.

(** Where the tags are in normal form and the current track has an id, the
    two readings agree. *)
Lemma score_by_tag_normalized (station : Station.t)
    (nowPlaying : option Track.t) (t : Track.t) :
  Forall (fun k => normalizeTag k = k) (Track.tags t) ->
  (forall p, nowPlaying = Some p -> Track.id p <> "") ->
  score_by_normalized_tag station nowPlaying t = score_by_tag station nowPlaying t.
Proof.
  intros Htags Hid. unfold score_by_normalized_tag, score_by_tag, score_rule.
  assert (Hm : matching_weights normalizeTag (Station.tagWeights station) (Track.tags t)
               = matching_weights (fun k => k) (Station.tagWeights station) (Track.tags t)).
  { unfold matching_weights. induction Htags as [|k l Hk _ IH]; simpl; [reflexivity|].
    rewrite Hk. destruct (Station.tagWeights station !! k); [f_equal|]; apply IH. }
  assert (Hc : same_nonempty_id nowPlaying t = same_id nowPlaying t).
  { destruct nowPlaying as [p|]; [|reflexivity]. simpl.
    specialize (Hid p eq_refl).
    destruct (decide (Track.id t = Track.id p)) as [Ht|Ht].
    - rewrite !bool_decide_eq_true_2 by tauto. reflexivity.
    - rewrite !bool_decide_eq_false_2 by tauto. reflexivity. }
  rewrite Hm, Hc. reflexivity.
Qed.

(** C2 (as amended).  For a station with no tag weights and tracks of
    weight 1 with the tags [[]], [["birds"]] and [["birds","dawn"]], none of
    them the track that is playing, the scores are 1, 1.25 and 1.5. *)
Theorem scores_all_field (station : Station.t) (nowPlaying : option Track.t)
    (t1 t2 t3 : Track.t) :
  dom (Station.tagWeights station) = ∅ ->
  Track.tags t1 = [] -> Track.tags t2 = ["birds"] ->
  Track.tags t3 = ["birds"; "dawn"] ->
  Track.weight t1 = Some 1%Q -> Track.weight t2 = Some 1%Q ->
  Track.weight t3 = Some 1%Q ->
  is_now_playing nowPlaying t1 = false ->
  is_now_playing nowPlaying t2 = false ->
  is_now_playing nowPlaying t3 = false ->
  (scoreTrack station nowPlaying t1 == 1)%Q /\
  (scoreTrack station nowPlaying t2 == 1.25)%Q /\
  (scoreTrack station nowPlaying t3 == 1.5)%Q.
Proof.
  intros He G1 G2 G3 W1 W2 W3 N1 N2 N3.
  apply has_weights_dom in He. unfold scoreTrack.
  rewrite He, G1, G2, G3, W1, W2, W3, N1, N2, N3.
  repeat split; vm_compute; reflexivity.
Qed.

Lemma scores_all_field_witness :
  (scoreTrack AllField None Untagged == 1)%Q /\
  (scoreTrack AllField None Birds == 1.25)%Q /\
  (scoreTrack AllField None BirdsDawn == 1.5)%Q.
Proof.
  apply (scores_all_field AllField None Untagged Birds BirdsDawn);
    reflexivity.
Defined.

(** C2 (as stated) fails: the second and third scores are 1.25 and 1.5,
    more than 0.2 away from 1.0375 and 1.075. *)
Lemma scores_all_field_not_approx :
  ~ (approx 0.2 (scoreTrack AllField None Untagged) 1.0 /\
     approx 0.2 (scoreTrack AllField None Birds) 1.0375 /\
     approx 0.2 (scoreTrack AllField None BirdsDawn) 1.075).
Proof.
  intros (_ & H & _). vm_compute in H. apply H. reflexivity.
Qed.

(** ** Picking the next track *)




Example pickNextTrack_half :
  pickNextTrack [Untagged; Birds; BirdsDawn] AllField None 0.5 = Some Birds.
Proof. vm_compute. reflexivity. Qed.

(** C4.  From a catalog of exactly one track, [pickNextTrack] returns that
    track, for every station, every draw and every current track, the
    track itself included. *)
Theorem pickNextTrack_single (t : Track.t) (station : Station.t)
    (nowPlaying : option Track.t) (u : Q) :
  pickNextTrack [t] station nowPlaying u = Some t /\
  pickNextTrack [t] station (Some t) u = Some t.
Proof. split; reflexivity. Qed.

(** C10.  Given as many weights as items and a draw [u] of [[0,1)]:
    [weightedPick] returns an element of a list that is not empty, which,
    where the weights [max(0, w)] have a positive sum, is the one at which
    the remainder of [u] times that sum becomes [<= 0] as the weights
    [max(0, w)] are subtracted in order; it returns what it returns when
    every weight [w] is replaced by [max(0, w)]; its loop returns the last
    element when no remainder is [<= 0]; and it returns [undefined] only
    for the empty list. *)
Theorem weightedPick_total {T : Type} (items : list T) (weights : list Q)
    (u : Q) :
  length weights = length items -> (0 <= u)%Q -> (u < 1)%Q ->
  (items <> [] ->
     exists x, weightedPick items weights u = Some x /\ x ∈ items /\
       let clamped := map (Qmax 0) weights in
       ((0 < Qsum clamped)%Q ->
          exists i, items !! i = Some x /\
                    stops_at (u * Qsum clamped) clamped i)) /\
  weightedPick items weights u = weightedPick items (map (Qmax 0) weights) u /\
  (forall r,
     (forall i, i < length items ->
        ~ (remainder r (map (Qmax 0) weights) (S i) <= 0)%Q) ->
     weightedPick_loop items weights 0 (length items) r = last items) /\
  (weightedPick items weights u = None -> items = []).
Proof.
  intros Hlen Hu0 Hu1.
  assert (Hsome : items <> [] ->
            exists x, weightedPick items weights u = Some x /\ x ∈ items /\
              let clamped := map (Qmax 0) weights in
              ((0 < Qsum clamped)%Q ->
                 exists i, items !! i = Some x /\
                           stops_at (u * Qsum clamped) clamped i)).
  { intros Hne.
    destruct (weightedPick_spec items weights Hlen u Hne Hu0 Hu1)
      as (x & Hx & Hin & Hpos & _).
    exists x. split; [assumption|]. split; assumption. }
  split; [exact Hsome|]. split; [|split].
  - unfold weightedPick. rewrite total_clamped_idem.
    destruct (Qleb _ 0); [reflexivity|].
    symmetry. apply weightedPick_loop_idem.
  - intros r Hnone. rewrite <- last_item_last.
    destruct (weightedPick_loop_spec items weights Hlen r (length items) 0)
      as [(k & Hk & _ & Hstop & _)|[Hres _]]; [lia|intros j Hj; lia| |].
    + exfalso. exact (Hnone k Hk Hstop).
    + exact Hres.
  - intros Hnone. destruct items as [|x items]; [reflexivity|].
    destruct Hsome as (y & Hy & _); [discriminate|]. congruence.
Qed.

Lemma weightedPick_total_witness :
  weightedPick ["a"; "b"; "c"] [1%Q; (-3)%Q; 2%Q] 0.5
  = weightedPick ["a"; "b"; "c"] (map (Qmax 0) [1%Q; (-3)%Q; 2%Q]) 0.5.
Proof.
  destruct (weightedPick_total ["a"; "b"; "c"] [1%Q; (-3)%Q; 2%Q] 0.5)
    as (_ & H & _).
  - reflexivity.
  - vm_compute. discriminate.
  - vm_compute. reflexivity.
  - exact H.
Defined.

Example weightedPick_negative_skipped :
  weightedPick ["a"; "b"; "c"] [1%Q; (-3)%Q; 2%Q] 0.5 = Some "c".
Proof. vm_compute. reflexivity. Qed.

Example weightedPick_no_weight :
  weightedPick ["a"; "b"; "c"] [0%Q; (-3)%Q; 0%Q] 0.5 = Some "b".
Proof. vm_compute. reflexivity. Qed.

(** The loop run with a draw that the weights do not exhaust. *)
Example weightedPick_loop_exhausted :
  weightedPick_loop ["a"; "b"; "c"] [1%Q; (-3)%Q; 2%Q] 0 3 5 = Some "c".
Proof. vm_compute. reflexivity. Qed.

Example weightedPick_empty : weightedPick (@nil string) [] 0.5 = None.
Proof. vm_compute. reflexivity. Qed.

Example normalizeTag_spaces : normalizeTag "  New   Mexico! " = "new mexico".
Proof. reflexivity. Qed.

Example normalizeTag_year : normalizeTag "year:2000" = "year2000".
Proof. reflexivity. Qed.

(** ** Transport *)

Lemma calls_since_app (w w' : World) (new : list Call) :
  calls w' = new ++ calls w -> calls_since w w' = new.
Proof.
  intros E. unfold calls_since. rewrite E, length_app.
  replace (length new + length (calls w) - length (calls w)) with (length new)
    by lia.
  apply take_app_length.
Qed.

(** C6.  With an empty catalog, [play()] and [next(useCrossfade)] return
    and leave the world as it was: state, refs, timeouts and calls. *)
Theorem empty_catalog_noop (env : Render.t) (o : Oracle) (useCrossfade : bool)
    (w : World) :
  Render.tracks env = [] ->
  play env o w = (Returned tt, w) /\
  next env useCrossfade o w = (Returned tt, w) /\
  calls_since w (snd (play env o w)) = [] /\
  calls_since w (snd (next env useCrossfade o w)) = [].
Proof.
  intros E. unfold play, next. rewrite E. simpl.
  repeat split; apply (calls_since_app w w []); reflexivity.
Qed.

Lemma empty_catalog_noop_witness :
  play (react mounted) fulfilled mounted = (Returned tt, mounted) /\
  next (react mounted) true fulfilled mounted = (Returned tt, mounted).
Proof.
  destruct (empty_catalog_noop (react mounted) fulfilled true mounted)
    as (Hp & Hn & _).
  - reflexivity.
  - split; [exact Hp | exact Hn].
Defined.

(** ** What the handlers leave alone *)

(** The handlers are built from a few writes.  A relation between worlds
    that is reflexive and transitive and that each of those writes respects
    holds between the world a handler starts in and the one it leaves. *)
Section Keeps.

Variable R : World -> World -> Prop.
Hypothesis R_refl : forall w, R w w.
Hypothesis R_trans : forall w1 w2 w3, R w1 w2 -> R w2 w3 -> R w1 w3.
Hypothesis R_setReact : forall f w, R w (setReact f w).
Hypothesis R_onDeck : forall d f w, R w (onDeck d f w).
Hypothesis R_called : forall c w, R w (called c w).
Hypothesis R_setActiveRef : forall v w, R w (setActiveRef v w).
Hypothesis R_setTickRef : forall v w, R w (setTickRef v w).
Hypothesis R_ensureCtx : forall env o w, R w (ensureCtx env o w).
Hypothesis R_setTimeout_pause : forall d ms w, R w (setTimeout (PauseDeck d) ms w).

Lemma R_audioPause d w : R w (audioPause d w).
Proof. unfold audioPause. eapply R_trans; [apply R_onDeck | apply R_called]. Qed.

Lemma R_rampGain d to seconds w : R w (rampGain d to seconds w).
Proof. unfold rampGain. eapply R_trans; [apply R_onDeck | apply R_called]. Qed.

Lemma R_startTick env w : R w (startTick env w).
Proof.
  unfold startTick. destruct (tickRef w); [apply R_refl|].
  eapply R_trans; [apply R_called | apply R_setTickRef].
Qed.

Lemma R_stopTick w : R w (stopTick w).
Proof.
  unfold stopTick. destruct (tickRef w); [|apply R_refl].
  eapply R_trans; [apply R_called | apply R_setTickRef].
Qed.

Lemma keeps_ret {X : Type} (x : X) : keeps R (ret x).
Proof. intros w. apply R_refl. Qed.

Lemma keeps_get : keeps R get.
Proof. intros w. apply R_refl. Qed.

Lemma keeps_act (f : World -> World) : (forall w, R w (f w)) -> keeps R (act f).
Proof. intros H w. apply H. Qed.

Lemma keeps_bind {X Y : Type} (c : Eff X) (k : X -> Eff Y) :
  keeps R c -> (forall x, keeps R (k x)) -> keeps R (bind c k).
Proof.
  intros Hc Hk w. unfold bind. specialize (Hc w).
  destruct (c w) as [[x|] w1]; simpl in *; [|exact Hc].
  eapply R_trans; [exact Hc | apply Hk].
Qed.

Lemma keeps_try_or (body : Eff bool) (rest : Eff unit) :
  keeps R body -> keeps R rest -> keeps R (try_or body rest).
Proof.
  intros Hb Hr w. unfold try_or. specialize (Hb w).
  destruct (body w) as [[[]|] w1]; simpl in *; [exact Hb| |];
    (eapply R_trans; [exact Hb | apply Hr]).
Qed.

Lemma keeps_audioPlay d ok : keeps R (audioPlay d ok).
Proof.
  intros w. unfold audioPlay. destruct ok; simpl.
  - eapply R_trans; [apply R_called | apply R_onDeck].
  - apply R_called.
Qed.

Lemma keeps_pick env o : keeps R (pick env o).
Proof. intros w. apply R_called. Qed.

Ltac keeps_tac :=
  repeat
    (cbv beta zeta;
     lazymatch goal with
     | |- keeps _ (bind _ _) => apply keeps_bind; [|intros ?]
     | |- keeps _ (try_or _ _) => apply keeps_try_or
     | |- keeps _ (act _) => apply keeps_act; intros ?
     | |- keeps _ (ret _) => apply keeps_ret
     | |- keeps _ get => apply keeps_get
     | |- keeps _ (audioPlay _ _) => apply keeps_audioPlay
     | |- keeps _ (pick _ _) => apply keeps_pick
     | |- keeps _ (match ?x with _ => _ end) => destruct x
     | |- R _ _ =>
         first [ apply R_setReact | apply R_onDeck | apply R_called
               | apply R_setActiveRef | apply R_ensureCtx
               | apply R_setTimeout_pause | apply R_audioPause
               | apply R_rampGain | apply R_startTick | apply R_stopTick ]
     end).

Lemma keeps_playTrack env track crossfade o :
  keeps R (playTrack env track crossfade o).
Proof. unfold playTrack. keeps_tac. Qed.

Lemma keeps_next env useCrossfade o : keeps R (next env useCrossfade o).
Proof.
  unfold next. destruct (Render.tracks env) as [|t0 l]; [apply keeps_ret|].
  apply keeps_bind; [apply keeps_pick|].
  intros [nxt|]; [apply keeps_playTrack | apply keeps_ret].
Qed.

Lemma keeps_play env o : keeps R (play env o).
Proof.
  unfold play. destruct (Render.tracks env) as [|t0 l]; [apply keeps_ret|].
  apply keeps_bind; [apply keeps_act, R_ensureCtx|]. intros _.
  apply keeps_bind; [apply keeps_get|]. intros w. cbv zeta.
  assert (Hsel : keeps R (bind (pick env o)
                   (fun first => match first with
                                 | Some first => playTrack env first false o
                                 | None => ret tt
                                 end))).
  { apply keeps_bind; [apply keeps_pick|].
    intros [first|]; [apply keeps_playTrack | apply keeps_ret]. }
  destruct (match activeDeck w with Some _ => _ | None => _ end);
    [|exact Hsel].
  apply keeps_try_or; [|exact Hsel]. keeps_tac.
Qed.

Lemma R_pause w : R w (pause w).
Proof.
  unfold pause. destruct (activeDeck w); [|apply R_refl].
  eapply R_trans; [apply R_audioPause|].
  eapply R_trans; [apply R_setReact | apply R_stopTick].
Qed.

Lemma R_stop w : R w (stop w).
Proof.
  unfold stop. cbv zeta.
  eapply R_trans; [|apply R_stopTick].
  eapply R_trans; [|apply R_setReact].
  eapply R_trans; [|apply R_onDeck].
  eapply R_trans; [|apply R_onDeck].
  destruct (truthy (deckARef w)).
  - eapply R_trans; [apply R_audioPause|].
    destruct (truthy _); [apply R_audioPause | apply R_refl].
  - destruct (truthy _); [apply R_audioPause | apply R_refl].
Qed.

Lemma R_selectStation name w : R w (selectStation name w).
Proof.
  unfold selectStation. destruct (Qeq_bool _ _).
  - apply R_setReact.
  - eapply R_trans; apply R_setReact.
Qed.

Lemma R_changeVolume v w : R w (changeVolume v w).
Proof.
  unfold changeVolume.
  eapply R_trans; [apply R_setReact|].
  eapply R_trans; apply R_onDeck.
Qed.

Lemma R_ended d o w : R w (ended d o w).
Proof.
  unfold ended. destruct (deckRef d w) as [deck|]; [|apply R_refl].
  destruct (Audio.onended (Deck.audio deck)) as [env|]; [|apply R_refl].
  destruct (Render.radioMode env); [apply keeps_next | apply R_setReact].
Qed.

(** The events that run handlers and state setters. *)
Lemma R_step_handlers (e : Event) (w : World) :
  match e with
  | Tick | AdvanceSettles _ | Elapse _ => True
  | _ => R w (step e w)
  end.
Proof.
  destruct e; simpl; try exact I.
  - apply R_ended.
  - apply R_onDeck.
  - destruct mapped; [apply R_refl | apply R_setReact].
  - destruct (Render.isPlaying (react w)); [apply R_pause | apply keeps_play].
  - apply keeps_next.
  - apply R_stop.
  - destruct (take 50 (Render.tracks (react w)) !! i);
      [apply keeps_playTrack | apply R_refl].
  - destruct (STATIONS !! i); [apply R_selectStation | apply R_refl].
  - apply R_setReact.
  - apply R_changeVolume.
  - apply R_setReact.
Qed.

End Keeps.

(** *** The pending-fade guard *)

Lemma same_guard_refl (w : World) : same_guard w w.
Proof. repeat split. Qed.

Lemma same_guard_trans (w1 w2 w3 : World) :
  same_guard w1 w2 -> same_guard w2 w3 -> same_guard w1 w3.
Proof.
  intros (P1 & A1 & R1) (P2 & A2 & R2). repeat split; congruence.
Qed.

Lemma releases_app (ts ts' : list (Q * Timeout)) :
  releases (ts ++ ts') = releases ts ++ releases ts'.
Proof. unfold releases. apply omap_app. Qed.

Lemma setReact_guard f w : same_guard w (setReact f w).
Proof. destruct w; repeat split. Qed.
Lemma onDeck_guard d f w : same_guard w (onDeck d f w).
Proof. destruct d, w; repeat split. Qed.
Lemma called_guard c w : same_guard w (called c w).
Proof. destruct w; repeat split. Qed.
Lemma setActiveRef_guard v w : same_guard w (setActiveRef v w).
Proof. destruct w; repeat split. Qed.
Lemma setTickRef_guard v w : same_guard w (setTickRef v w).
Proof. destruct w; repeat split. Qed.

Lemma ensureCtx_guard env o w : same_guard w (ensureCtx env o w).
Proof.
  unfold ensureCtx.
  destruct w as [r [[]|] a b ar tk pf ts adv cs]; simpl;
    destruct (ctxStartsSuspended o), (ctxResumeOk o); repeat split.
Qed.

Lemma setTimeout_pause_guard d ms w : same_guard w (setTimeout (PauseDeck d) ms w).
Proof.
  destruct w as [r c a b ar tk pf ts adv cs]. unfold setTimeout, same_guard. simpl.
  rewrite releases_app. simpl. rewrite app_nil_r. repeat split.
Qed.

Ltac guard_frames :=
  first [ exact same_guard_refl | exact same_guard_trans | exact setReact_guard
        | exact onDeck_guard | exact called_guard | exact setActiveRef_guard
        | exact setTickRef_guard | exact ensureCtx_guard
        | exact setTimeout_pause_guard ].

Lemma audioPause_guard d w : same_guard w (audioPause d w).
Proof. apply (R_audioPause same_guard); guard_frames. Qed.

Lemma next_keeps_guard env useCrossfade o :
  keeps same_guard (next env useCrossfade o).
Proof. apply (keeps_next same_guard); guard_frames. Qed.

Lemma step_handlers_guard (e : Event) (w : World) :
  match e with
  | Tick | AdvanceSettles _ | Elapse _ => True
  | _ => same_guard w (step e w)
  end.
Proof. apply (R_step_handlers same_guard); guard_frames. Qed.

(** *** Decks and their audio context *)

Lemma ctx_kept_refl (w : World) : ctx_kept w w.
Proof. intros H. exact H. Qed.

Lemma ctx_kept_trans (w1 w2 w3 : World) :
  ctx_kept w1 w2 -> ctx_kept w2 w3 -> ctx_kept w1 w3.
Proof. unfold ctx_kept. auto. Qed.

Lemma setReact_ctx f w : ctx_kept w (setReact f w).
Proof. destruct w; intros H; exact H. Qed.
Lemma called_ctx c w : ctx_kept w (called c w).
Proof. destruct w; intros H; exact H. Qed.
Lemma setActiveRef_ctx v w : ctx_kept w (setActiveRef v w).
Proof. destruct w; intros H; exact H. Qed.
Lemma setTickRef_ctx v w : ctx_kept w (setTickRef v w).
Proof. destruct w; intros H; exact H. Qed.
Lemma setTimeout_ctx action ms w : ctx_kept w (setTimeout action ms w).
Proof. destruct w; intros H; exact H. Qed.

Lemma onDeck_ctx d f w : ctx_kept w (onDeck d f w).
Proof.
  destruct w as [r c a b ar tk pf ts adv cs].
  unfold ctx_kept, decks_need_ctx. destruct d; simpl; intros H Hc;
    destruct (H Hc) as [-> ->]; split; reflexivity.
Qed.

Lemma ensureCtx_ctx env o w : ctx_kept w (ensureCtx env o w).
Proof.
  intros _ Hc. exfalso. revert Hc. unfold ensureCtx.
  destruct w as [r [[]|] a b ar tk pf ts adv cs]; simpl;
    destruct (ctxStartsSuspended o), (ctxResumeOk o); discriminate.
Qed.

Ltac ctx_frames :=
  first [ exact ctx_kept_refl | exact ctx_kept_trans | exact setReact_ctx
        | exact onDeck_ctx | exact called_ctx | exact setActiveRef_ctx
        | exact setTickRef_ctx | exact ensureCtx_ctx
        | intros ? ? ?; apply setTimeout_ctx ].

Lemma tick_ctx env w : ctx_kept w (tick env w).
Proof.
  unfold tick. destruct (activeDeck w) as [deck|]; [|apply ctx_kept_refl].
  destruct (negb _ || negb _); [apply ctx_kept_refl|].
  destruct (Audio.duration (Deck.audio deck)); cbn [isFinite negb];
    try apply ctx_kept_refl.
  destruct (Qleb q 0); [apply ctx_kept_refl|].
  destruct (Qleb _ _); [|apply ctx_kept_refl].
  destruct (pendingFadeRef w); [apply ctx_kept_refl|].
  destruct w; intros H; exact H.
Qed.

Lemma advanceSettles_ctx o w : ctx_kept w (advanceSettles o w).
Proof.
  unfold advanceSettles. destruct (advancing w) as [|env rest]; [apply ctx_kept_refl|].
  eapply ctx_kept_trans; [|apply setTimeout_ctx].
  eapply ctx_kept_trans; [|apply (keeps_next ctx_kept); ctx_frames].
  destruct w; intros H; exact H.
Qed.

Lemma fire_ctx action w : ctx_kept w (fire action w).
Proof.
  destruct action as [d|]; simpl.
  - apply (R_audioPause ctx_kept); ctx_frames.
  - destruct w; intros H; exact H.
Qed.

Lemma elapse_ctx ms w : ctx_kept w (elapse ms w).
Proof.
  unfold elapse.
  match goal with
  | |- ctx_kept _ (foldl _ ?w0 ?due) =>
      assert (H0 : ctx_kept w w0) by (destruct w; intros H; exact H);
      generalize dependent w0; generalize due
  end.
  intros due. induction due as [|p due IH]; intros w0 H0; [exact H0|].
  simpl. apply IH. eapply ctx_kept_trans; [exact H0 | apply fire_ctx].
Qed.

Lemma step_ctx (e : Event) (w : World) : ctx_kept w (step e w).
Proof.
  pose proof (R_step_handlers ctx_kept ctx_kept_refl ctx_kept_trans setReact_ctx
                onDeck_ctx called_ctx setActiveRef_ctx setTickRef_ctx
                ensureCtx_ctx (fun d ms w => setTimeout_ctx (PauseDeck d) ms w)
                e w) as H.
  destruct e; try exact H; simpl.
  - destruct (tickRef w); [apply tick_ctx | apply ctx_kept_refl].
  - apply advanceSettles_ctx.
  - apply elapse_ctx.
Qed.

(** In every world that events lead to from the mounted component, a deck
    exists only if the audio context does. *)
Lemma run_decks_need_ctx (es : list Event) : decks_need_ctx (run es mounted).
Proof.
  assert (H : forall w, decks_need_ctx w -> decks_need_ctx (run es w)).
  { induction es as [|e es IH]; intros w Hw; [exact Hw|].
    apply IH, (step_ctx e w), Hw. }
  apply H. intros _. split; reflexivity.
Qed.

Lemma ensureCtx_existing (env : Render.t) (o : Oracle) (w : World) :
  ctxRef w <> None ->
  exists c, ensureCtx env o w = setCtxRef (Some c) w.
Proof.
  intros Hc. unfold ensureCtx.
  destruct w as [r [c|] a b act tk pf ts adv cs]; [|contradiction]. simpl.
  destruct c; [destruct (ctxResumeOk o)|]; eauto.
Qed.

Lemma play_resume_eq (env : Render.t) (o : Oracle) (w : World) (cur : Deck.t)
    (t : Track.t) :
  Render.tracks env <> [] -> ctxRef w <> None ->
  activeDeck w = Some cur -> Deck.track cur = Some t ->
  Audio.paused (Deck.audio cur) = true -> resumeOk o = true ->
  play env o w
  = (Returned tt,
     startTick env
       (setReact (Render.setIsPlaying true)
          (onDeck (activeRef w) (Deck.setAudio (Audio.setPaused false))
             (called (CallAudioPlay (activeRef w)) (ensureCtx env o w))))).
Proof.
  intros Ht Hc Hcur Htr Hp Hok.
  unfold play. destruct (Render.tracks env) as [|t0 l]; [contradiction|].
  destruct w as [r [c|] a b ar tk pf ts adv cs]; [|contradiction].
  unfold activeDeck in Hcur. simpl in Hcur.
  unfold bind, act, get, try_or, audioPlay, ret, ensureCtx, activeDeck.
  destruct ar; simpl in Hcur; subst; simpl;
    destruct c; simpl; destruct (ctxResumeOk o); simpl;
    rewrite ?Htr, ?Hp, ?Hok; reflexivity.
Qed.

(** Rewrites [calls_since w0 w1] into the list of the calls that [w1] has
    on top of those of [w0], both worlds being explicit. *)
Ltac calls_on_top l base :=
  lazymatch l with
  | base => constr:(@nil Call)
  | ?c :: ?l' => let p := calls_on_top l' base in constr:(c :: p)
  end.

Ltac new_calls :=
  match goal with
  | |- context [calls_since ?w0 ?w1] =>
      let l := eval cbn in (calls w1) in
      let base := eval cbn in (calls w0) in
      let p := calls_on_top l base in
      rewrite (calls_since_app w0 w1 p eq_refl)
  end.

Ltac not_among :=
  let Hin := fresh "Hin" in
  intros Hin;
  repeat (apply elem_of_cons in Hin as [Hin|Hin]; [discriminate|]);
  apply elem_of_nil in Hin; exact Hin.

(** The resume of [play()], from any world that has its audio context. *)
Lemma play_resumed (env : Render.t) (o : Oracle) (w : World) :
  Render.tracks env <> [] -> ctxRef w <> None ->
  resumable w -> resumeOk o = true ->
  fst (play env o w) = Returned tt /\
  resumed_in_place w (snd (play env o w)).
Proof.
  intros Ht Hc (cur & t & Hcur & Htr & Hp) Hok.
  rewrite (play_resume_eq env o w cur t Ht Hc Hcur Htr Hp Hok).
  split; [reflexivity|]. simpl snd.
  destruct (ensureCtx_existing env o w Hc) as [c ->].
  destruct w as [r c0 a b ar tk pf ts adv cs].
  unfold resumed_in_place, activeDeck, inactiveDeck in *. simpl in Hcur.
  destruct ar, tk as [tk|]; simpl in Hcur; subst; simpl;
    new_calls;
    (split; [not_among|]); (split; [repeat constructor|]);
    (split; [reflexivity|]); (split; [reflexivity|]);
    (split; [eexists; split; reflexivity|]);
    (split; [reflexivity|]); (split; [reflexivity|eauto]).
Qed.

Lemma resumable_has_ctx (w : World) :
  decks_need_ctx w -> resumable w -> ctxRef w <> None.
Proof.
  intros Hd (cur & t & Hcur & _) Hc. destruct (Hd Hc) as [Ha Hb].
  unfold activeDeck, deckRef in Hcur. destruct (activeRef w); congruence.
Qed.

(** C7 (as amended).  In every world that events lead to from the mounted
    component, for the [play()] of a render whose catalog is not empty: if
    the active deck holds a loaded track that is paused and resuming it
    succeeds, [play()] returns having resumed that deck in place (no
    selection, no ramp, same current track, monitor running); and [play()]
    selects a track only if there is no such paused loaded track or
    resuming it failed. *)
Theorem play_resumes_in_place (es : list Event) (env : Render.t) (o : Oracle) :
  let w := run es mounted in
  Render.tracks env <> [] ->
  (resumable w -> resumeOk o = true ->
     fst (play env o w) = Returned tt /\
     resumed_in_place w (snd (play env o w))) /\
  (CallPickNextTrack ∈ calls_since w (snd (play env o w)) ->
     ~ resumable w \/ resumeOk o = false).
Proof.
  intros w Ht.
  assert (Hres : resumable w -> resumeOk o = true ->
            fst (play env o w) = Returned tt /\
            resumed_in_place w (snd (play env o w))).
  { intros Hr Hok. apply play_resumed; try assumption.
    apply resumable_has_ctx; [apply run_decks_need_ctx | exact Hr]. }
  split; [exact Hres|].
  intros Hin. destruct (resumeOk o) eqn:Hok; [left|right; reflexivity].
  intros Hr. destruct (Hres Hr eq_refl) as (_ & Hno & _). exact (Hno Hin).
Qed.

Lemma paused_world_resumable : resumable paused_world.
Proof.
  unfold resumable. eexists. eexists.
  split; [vm_compute; reflexivity|]. split; reflexivity.
Qed.

Lemma play_resumes_in_place_witness :
  resumed_in_place paused_world
    (snd (play (react paused_world) fulfilled paused_world)).
Proof.
  apply (play_resumes_in_place
           [Loaded [Untagged; Birds; BirdsDawn];
            ClickPlayPause fulfilled; ClickPlayPause fulfilled]
           (react paused_world) fulfilled).
  - vm_compute. discriminate.
  - unfold resumable. eexists. eexists.
    split; [vm_compute; reflexivity|]. split; reflexivity.
  - reflexivity.
Defined.

(** C7 (as stated) fails where resuming the paused deck is rejected:
    [play()] goes on to select a track and to start it on the other deck. *)
Lemma play_reselects_after_failed_resume :
  ~ (resumable paused_world ->
     resumed_in_place paused_world
       (snd (play (react paused_world) resume_rejected paused_world))).
Proof.
  intros H. destruct (H paused_world_resumable) as (Hno & _).
  apply Hno.
  replace (calls_since paused_world
             (snd (play (react paused_world) resume_rejected paused_world)))
    with [CallSetInterval; CallAudioPause B; CallAudioPlay A;
          CallPickNextTrack; CallAudioPlay B]
    by (vm_compute; reflexivity).
  do 3 apply list_elem_of_further. apply list_elem_of_here.
Qed.

Example failed_resume_changes_track :
  Render.nowPlaying (react paused_world) = Some Birds /\
  Render.nowPlaying
    (react (snd (play (react paused_world) resume_rejected paused_world)))
  = Some BirdsDawn.
Proof. split; vm_compute; reflexivity. Qed.

(** C8.  [stop()] pauses each deck that exists and sets its gain to 0,
    leaving its track and position; it stops the monitor and clears
    [isPlaying]; [nowPlaying] and the deck roles are as before. *)
Theorem stop_effects (w : World) :
  (forall d deck, deckRef d w = Some deck ->
     deckRef d (stop w)
     = Some (Deck.setGain 0 (Deck.setAudio (Audio.setPaused true) deck)) /\
     CallAudioPause d ∈ calls_since w (stop w)) /\
  (forall d, deckRef d w = None -> deckRef d (stop w) = None) /\
  tickRef (stop w) = None /\
  Render.isPlaying (react (stop w)) = false /\
  Render.nowPlaying (react (stop w)) = Render.nowPlaying (react w) /\
  activeRef (stop w) = activeRef w.
Proof.
  destruct w as [r c a b ar tk pf ts adv cs].
  split; [|split; [|split; [|split; [|split]]]].
  - intros d deck Hd.
    destruct d, a as [a|], b as [b|], tk as [tk|]; simpl in Hd;
      try discriminate; injection Hd as ->;
      (split; [reflexivity|]); unfold stop; new_calls;
      repeat first [apply list_elem_of_here | apply list_elem_of_further].
  - intros d Hd.
    destruct d, a as [a|], b as [b|], tk as [tk|]; simpl in Hd;
      try discriminate; reflexivity.
  - destruct a, b, tk; reflexivity.
  - destruct a, b, tk; reflexivity.
  - destruct a, b, tk; reflexivity.
  - destruct a, b, tk; reflexivity.
Qed.

Lemma stop_effects_witness :
  deckRef B (stop paused_world)
  = (Deck.setGain 0 ∘ Deck.setAudio (Audio.setPaused true)) <$> deckRef B paused_world.
Proof.
  destruct (deckRef B paused_world) as [deck|] eqn:E.
  - destruct (stop_effects paused_world) as (Hd & _).
    destruct (Hd B deck E) as [-> _]. reflexivity.
  - vm_compute in E. discriminate.
Defined.

Example stop_keeps_nowPlaying :
  Render.nowPlaying (react (stop paused_world)) = Some Birds.
Proof. vm_compute. reflexivity. Qed.

(** ** Stations *)

(** C9 (as amended).  Selecting a station sets [stationName], and with it
    the tag weights that selection uses, and may set [crossfadeSec]: where
    the default crossfade of the new station differs from that of the old
    one and [crossfadeSec] is within 2 of it, [crossfadeSec] becomes that
    default; otherwise it is kept.  Nothing else changes: not the other
    state of the render, the refs, the timeouts or the calls. *)
Theorem selectStation_effects (name : string) (w : World) :
  let w' := selectStation name w in
  let oldDef := Station.crossfadeDefaultSec (Render.station (react w)) in
  let newDef := Station.crossfadeDefaultSec (station_of name) in
  let prev := Render.crossfadeSec (react w) in
  Render.stationName (react w') = name /\
  (~ (oldDef == newDef)%Q -> (Qabs (prev - newDef) <= 2)%Q ->
     Render.crossfadeSec (react w') = newDef) /\
  ((oldDef == newDef)%Q \/ ~ (Qabs (prev - newDef) <= 2)%Q ->
     Render.crossfadeSec (react w') = prev) /\
  w' = setReact (fun r => Render.setCrossfadeSec (Render.crossfadeSec (react w'))
                            (Render.setStationName name r)) w.
Proof.
  destruct w as [r c a b ar tk pf ts adv cs]. destruct r as [tr sn np ip rm vol cf].
  unfold selectStation, Render.station, syncCrossfade, Math_abs.
  cbn -[Qabs Qminus Qleb Qeq_bool station_of].
  set (oldDef := Station.crossfadeDefaultSec (station_of sn)).
  set (newDef := Station.crossfadeDefaultSec (station_of name)).
  destruct (Qeq_bool oldDef newDef) eqn:E; cbn -[Qabs Qminus Qleb Qeq_bool].
  - apply Qeq_bool_iff in E.
    split; [reflexivity|]. split; [intros Hne; contradiction|].
    split; reflexivity.
  - apply Qeq_bool_neq in E.
    unfold setReact. cbn -[Qabs Qminus Qleb].
    destruct (Qleb (Qabs (cf - newDef)) 2) eqn:L.
    + apply Qleb_true in L. split; [reflexivity|]. split; [reflexivity|].
      split; [|reflexivity]. intros [He|Hn]; contradiction.
    + apply Qleb_false in L. split; [reflexivity|].
      split; [intros _ Hle; contradiction|]. split; reflexivity.
Qed.

Lemma selectStation_effects_witness :
  Render.crossfadeSec (react (selectStation "Campfire Drift" mounted)) = 7%Q.
Proof.
  destruct (selectStation_effects "Campfire Drift" mounted) as (_ & H & _).
  apply H.
  - vm_compute. discriminate.
  - vm_compute. discriminate.
Defined.

(** C9 (as stated) fails: from the mounted component, on "All Field" with a
    crossfade of 6 seconds, selecting "Campfire Drift" makes it 7. *)
Lemma selectStation_changes_crossfade :
  ~ (Render.crossfadeSec (react (step (ClickStation 1) mounted))
     == Render.crossfadeSec (react mounted))%Q.
Proof. vm_compute. discriminate. Qed.

Example selectStation_far_keeps_crossfade :
  Render.crossfadeSec
    (react (run [SlideCrossfade 12; ClickStation 1] mounted)) = 12%Q.
Proof. vm_compute. reflexivity. Qed.

(** ** The monitor and its guard *)

Lemma app_singleton_neq {X : Type} (l : list X) (x : X) : l ++ [x] <> l.
Proof.
  intros E. apply (f_equal length) in E. rewrite length_app in E. simpl in E. lia.
Qed.

(** What a tick that calls [next(true)] has seen and done. *)
Lemma tick_triggers (env : Render.t) (w : World) :
  triggers env w ->
  exists deck duration,
    activeDeck w = Some deck /\
    Audio.duration (Deck.audio deck) = JFin duration /\
    (0 < duration)%Q /\
    (duration - Audio.currentTime (Deck.audio deck)
     <= Render.crossfadeSec env + 0.25)%Q /\
    pendingFadeRef w = false /\
    pendingFadeRef (tick env w) = true.
Proof.
  unfold triggers, tick. intros H.
  destruct (activeDeck w) as [deck|] eqn:Hdeck;
    [|symmetry in H; apply app_singleton_neq in H; contradiction].
  destruct (negb (Render.radioMode env) || negb (Render.isPlaying env));
    [symmetry in H; apply app_singleton_neq in H; contradiction|].
  destruct (Audio.duration (Deck.audio deck)) as [| |duration] eqn:Hdur;
    cbn [isFinite negb] in H;
    try (symmetry in H; apply app_singleton_neq in H; contradiction).
  destruct (Qleb duration 0) eqn:Hd;
    [symmetry in H; apply app_singleton_neq in H; contradiction|].
  destruct (Qleb (duration - Audio.currentTime (Deck.audio deck))
              (Render.crossfadeSec env + 0.25)) eqn:Hr;
    [|symmetry in H; apply app_singleton_neq in H; contradiction].
  destruct (pendingFadeRef w) eqn:Hp;
    [symmetry in H; apply app_singleton_neq in H; contradiction|].
  exists deck, duration. apply Qleb_false in Hd. apply Qleb_true in Hr.
  split; [reflexivity|]. split; [exact Hdur|]. split; [lra|].
  split; [exact Hr|]. split; [reflexivity|].
  destruct w; reflexivity.
Qed.

(** While the flag is set, a tick does nothing. *)
Lemma tick_suppressed (env : Render.t) (w : World) :
  pendingFadeRef w = true -> tick env w = w.
Proof.
  intros Hp. unfold tick. rewrite Hp.
  destruct (activeDeck w) as [deck|]; [|reflexivity].
  destruct (negb (Render.radioMode env) || negb (Render.isPlaying env));
    [reflexivity|].
  destruct (Audio.duration (Deck.audio deck)); cbn [isFinite negb];
    try reflexivity.
  destruct (Qleb q 0); [reflexivity|].
  destruct (Qleb _ _); reflexivity.
Qed.

(** When the promise settles, fulfilled or rejected, the flag is still as
    it was and its release is 500 ms away. *)
Lemma advanceSettles_releases (o : Oracle) (w : World) (env : Render.t)
    (rest : list Render.t) :
  advancing w = env :: rest ->
  pendingFadeRef (advanceSettles o w) = pendingFadeRef w /\
  advancing (advanceSettles o w) = rest /\
  releases (timeouts (advanceSettles o w)) = releases (timeouts w) ++ [500%Q].
Proof.
  intros Ha. unfold advanceSettles. rewrite Ha.
  destruct (next_keeps_guard env true o (setAdvancing rest w)) as (P & Ad & R).
  set (w2 := snd (next env true o (setAdvancing rest w))) in *.
  assert (E0 : pendingFadeRef (setAdvancing rest w) = pendingFadeRef w)
    by (destruct w; reflexivity).
  assert (E1 : advancing (setAdvancing rest w) = rest) by (destruct w; reflexivity).
  assert (E2 : timeouts (setAdvancing rest w) = timeouts w) by (destruct w; reflexivity).
  rewrite E0 in P. rewrite E1 in Ad. rewrite E2 in R.
  destruct w2 as [r c a b ar tk pf ts adv cs]. unfold setTimeout. simpl in *.
  rewrite releases_app, R. subst. repeat split.
Qed.

Lemma fire_all_flag (due : list (Q * Timeout)) (w : World) :
  pendingFadeRef (foldl (fun w p => fire (snd p) w) w due)
  = match releases due with
    | [] => pendingFadeRef w
    | _ :: _ => false
    end
  /\ advancing (foldl (fun w p => fire (snd p) w) w due) = advancing w
  /\ timeouts (foldl (fun w p => fire (snd p) w) w due) = timeouts w.
Proof.
  revert w. induction due as [|[left action] due IH]; intros w.
  - repeat split.
  - destruct (IH (fire action w)) as (P & Ad & T).
    change (foldl (fun w p => fire (snd p) w) w ((left, action) :: due))
      with (foldl (fun w p => fire (snd p) w) (fire action w) due).
    rewrite P, Ad, T. destruct action as [d|].
    + change (releases ((left, PauseDeck d) :: due)) with (releases due).
      change (fire (PauseDeck d) w) with (audioPause d w).
      destruct (audioPause_guard d w) as (P' & A' & _).
      rewrite P', A'. split; [reflexivity|]. split; [reflexivity|].
      destruct d; destruct w; reflexivity.
    + change (releases ((left, ReleaseFade) :: due)) with (left :: releases due).
      change (fire ReleaseFade w) with (setPendingFadeRef false w).
      split; [destruct (releases due); destruct w; reflexivity|].
      destruct w; repeat split.
Qed.

Lemma releases_due (ms : Q) (ts : list (Q * Timeout)) :
  releases (List.filter (fun p => Qleb (fst p) ms) ts)
  = List.filter (fun left => Qleb left ms) (releases ts).
Proof.
  induction ts as [|[left [d|]] ts IH]; simpl; [reflexivity| |].
  - destruct (Qleb left ms); simpl; exact IH.
  - destruct (Qleb left ms); simpl; rewrite IH; reflexivity.
Qed.

Lemma releases_waiting (ms : Q) (ts : list (Q * Timeout)) :
  releases (map (fun p => ((fst p - ms)%Q, snd p))
              (List.filter (fun p => negb (Qleb (fst p) ms)) ts))
  = map (fun left => (left - ms)%Q)
      (List.filter (fun left => negb (Qleb left ms)) (releases ts)).
Proof.
  induction ts as [|[left [d|]] ts IH]; simpl; [reflexivity| |].
  - destruct (Qleb left ms); simpl; exact IH.
  - destruct (Qleb left ms); simpl; rewrite IH; reflexivity.
Qed.

(** Time passing clears the flag exactly when a release is due. *)
Lemma elapse_flag (ms : Q) (w : World) :
  pendingFadeRef (elapse ms w)
  = match List.filter (fun left => Qleb left ms) (releases (timeouts w)) with
    | [] => pendingFadeRef w
    | _ :: _ => false
    end
  /\ advancing (elapse ms w) = advancing w
  /\ releases (timeouts (elapse ms w))
     = map (fun left => (left - ms)%Q)
         (List.filter (fun left => negb (Qleb left ms)) (releases (timeouts w))).
Proof.
  unfold elapse.
  match goal with
  | |- context [foldl _ ?w0 ?due] => destruct (fire_all_flag due w0) as (P & Ad & T)
  end.
  rewrite P, Ad, T, releases_due.
  destruct w as [r c a b ar tk pf ts adv cs]. simpl.
  rewrite releases_waiting. repeat split.
Qed.

Lemma elapse_before_release (ms : Q) (w : World) :
  (forall left, left ∈ releases (timeouts w) -> (ms < left)%Q) ->
  pendingFadeRef (elapse ms w) = pendingFadeRef w.
Proof.
  intros Hlate. destruct (elapse_flag ms w) as (-> & _).
  destruct (List.filter _ _) as [|left l] eqn:E; [reflexivity|].
  assert (Hin : In left (List.filter (fun left => Qleb left ms)
                           (releases (timeouts w))))
    by (rewrite E; left; reflexivity).
  apply filter_In in Hin as [Hin Hle]. apply Qleb_true in Hle.
  apply list_elem_of_In, Hlate in Hin. lra.
Qed.

Lemma elapse_release (ms : Q) (w : World) :
  (exists left, left ∈ releases (timeouts w) /\ (left <= ms)%Q) ->
  pendingFadeRef (elapse ms w) = false.
Proof.
  intros (left & Hin & Hle). destruct (elapse_flag ms w) as (-> & _).
  destruct (List.filter _ _) as [|x l] eqn:E; [|reflexivity].
  assert (Hf : In left (List.filter (fun left => Qleb left ms)
                          (releases (timeouts w)))).
  { apply filter_In. split; [apply list_elem_of_In, Hin | apply Qleb_true, Hle]. }
  rewrite E in Hf. contradiction.
Qed.

Lemma same_guard_inv (w w' : World) :
  same_guard w w' -> guard_inv w -> guard_inv w'.
Proof.
  intros (P & Ad & R) [I1 I2]. unfold guard_inv. rewrite P, Ad, R.
  split; assumption.
Qed.

Lemma tick_inv (env : Render.t) (w : World) : guard_inv w -> guard_inv (tick env w).
Proof.
  intros [I1 I2].
  destruct (pendingFadeRef w) eqn:Hp.
  - rewrite (tick_suppressed env w Hp). split; [rewrite Hp; exact I1 | exact I2].
  - assert (Hidle : advancing w = [] /\ releases (timeouts w) = []).
    { destruct (advancing w), (releases (timeouts w)); try (split; reflexivity);
        exfalso; assert (false = true) by (apply I1; auto; left; discriminate
                                            || right; discriminate);
        discriminate. }
    destruct Hidle as [Ha Hr].
    unfold tick.
    destruct (activeDeck w) as [deck|]; [|split; [rewrite Hp; exact I1 | exact I2]].
    destruct (negb (Render.radioMode env) || negb (Render.isPlaying env));
      [split; [rewrite Hp; exact I1 | exact I2]|].
    destruct (Audio.duration (Deck.audio deck)) as [| |duration];
      cbn [isFinite negb]; try (split; [rewrite Hp; exact I1 | exact I2]).
    destruct (Qleb duration 0); [split; [rewrite Hp; exact I1 | exact I2]|].
    destruct (Qleb _ _); [|split; [rewrite Hp; exact I1 | exact I2]].
    rewrite Hp. destruct w as [r c a b ar tk pf ts adv cs]. simpl in *. subst.
    unfold guard_inv. simpl. rewrite Hr. simpl. split; [|lia].
    split; [intros _; left; discriminate | reflexivity].
Qed.

Lemma advanceSettles_inv (o : Oracle) (w : World) :
  guard_inv w -> guard_inv (advanceSettles o w).
Proof.
  intros [I1 I2].
  destruct (advancing w) as [|env rest] eqn:Ha.
  - unfold advanceSettles. rewrite Ha. split; [rewrite Ha; exact I1 | rewrite Ha; exact I2].
  - destruct (advanceSettles_releases o w env rest Ha) as (P & Ad & R).
    unfold guard_inv. rewrite P, Ad, R. simpl in I2.
    assert (rest = []) by (destruct rest; [reflexivity|simpl in I2; lia]).
    assert (releases (timeouts w) = [])
      by (destruct (releases (timeouts w)); [reflexivity|simpl in I2; lia]).
    subst rest. rewrite H0. simpl. split; [|lia].
    split; [intros _; right; discriminate|].
    intros _. apply I1. left. discriminate.
Qed.

Lemma elapse_inv (ms : Q) (w : World) : guard_inv w -> guard_inv (elapse ms w).
Proof.
  intros [I1 I2]. destruct (elapse_flag ms w) as (P & Ad & R).
  unfold guard_inv. rewrite P, Ad, R.
  destruct (releases (timeouts w)) as [|left [|left' l]]; simpl in *.
  - split; assumption.
  - assert (Ha : advancing w = []) by (destruct (advancing w); [reflexivity|simpl in I2; lia]).
    rewrite Ha in *. destruct (Qleb left ms); simpl.
    + split; [|lia]. split; [discriminate|]. intros [H|H]; contradiction.
    + split; [|lia]. split; [intros _; right; discriminate|].
      intros _. apply I1. right. discriminate.
  - lia.
Qed.

Lemma step_inv (e : Event) (w : World) : guard_inv w -> guard_inv (step e w).
Proof.
  intros I. pose proof (step_handlers_guard e w) as H.
  destruct e;
    try (eapply same_guard_inv; [exact H | exact I]); simpl.
  - destruct (tickRef w); [apply tick_inv, I | exact I].
  - apply advanceSettles_inv, I.
  - apply elapse_inv, I.
Qed.

Lemma run_inv (es : list Event) (w : World) : guard_inv w -> guard_inv (run es w).
Proof.
  revert w. induction es as [|e es IH]; intros w I; [exact I|].
  apply IH, step_inv, I.
Qed.

Lemma mounted_inv : guard_inv mounted.
Proof.
  split; [|simpl; lia]. split; [discriminate|]. intros [H|H]; contradiction.
Qed.

(** C5.  A tick calls [next(true)] only when the active deck has a finite
    positive duration, [duration - currentTime <= crossfadeSec + 0.25] (with
    the [crossfadeSec] of the render whose callback the interval runs) and
    the pending-fade flag is clear, and it sets the flag.  While the flag is
    set a tick does nothing.  When the promise of [next(true)] settles,
    fulfilled or rejected, the flag is as it was and a timeout of 500 ms is
    set that clears it: time that passes clears the flag when that timeout
    is due and not before.  In every world that events lead to from the
    mounted component, the flag is set exactly while such a promise is
    unsettled or such a timeout is pending. *)
Theorem monitor_guard :
  (forall env w,
     triggers env w ->
     exists deck duration,
       activeDeck w = Some deck /\
       Audio.duration (Deck.audio deck) = JFin duration /\
       (0 < duration)%Q /\
       (duration - Audio.currentTime (Deck.audio deck)
        <= Render.crossfadeSec env + 0.25)%Q /\
       pendingFadeRef w = false /\
       pendingFadeRef (tick env w) = true) /\
  (forall env w,
     pendingFadeRef w = true -> tick env w = w /\ ~ triggers env w) /\
  (forall o w env rest,
     advancing w = env :: rest ->
     pendingFadeRef (advanceSettles o w) = pendingFadeRef w /\
     advancing (advanceSettles o w) = rest /\
     releases (timeouts (advanceSettles o w))
     = releases (timeouts w) ++ [500%Q]) /\
  (forall ms w,
     (forall left, left ∈ releases (timeouts w) -> (ms < left)%Q) ->
     pendingFadeRef (elapse ms w) = pendingFadeRef w) /\
  (forall ms w,
     (exists left, left ∈ releases (timeouts w) /\ (left <= ms)%Q) ->
     pendingFadeRef (elapse ms w) = false) /\
  (forall es, guard_inv (run es mounted)).
Proof.
  split; [exact tick_triggers|]. split.
  { intros env w Hp. split; [apply tick_suppressed, Hp|].
    unfold triggers. rewrite (tick_suppressed env w Hp).
    intros E. symmetry in E. exact (app_singleton_neq _ _ E). }
  split; [intros o w env rest; apply advanceSettles_releases|].
  split; [exact elapse_before_release|].
  split; [exact elapse_release|].
  intros es. apply run_inv, mounted_inv.
Qed.

Lemma monitor_guard_witness :
  triggers (react near_end_world) near_end_world /\
  pendingFadeRef (tick (react near_end_world) near_end_world) = true.
Proof.
  assert (T : triggers (react near_end_world) near_end_world)
    by (vm_compute; reflexivity).
  split; [exact T|].
  destruct monitor_guard as (H & _).
  destruct (H (react near_end_world) near_end_world T)
    as (deck & duration & _ & _ & _ & _ & _ & Hp).
  exact Hp.
Defined.

(** The scenario of the specification: crossfade 6 s, duration 120 s,
    position 113.8 s.  The callback of a render that is playing calls
    [next(true)] once; the transition is rejected; the flag is released
    500 ms after that. *)
Example monitor_scenario :
  let env := react near_end_world in
  let w1 := tick env (tick env (tick env near_end_world)) in
  let w2 := advanceSettles start_rejected w1 in
  calls_since near_end_world w1 = [CallAutoNext] /\
  pendingFadeRef w2 = true /\
  pendingFadeRef (tick env (elapse 499 w2)) = true /\
  calls_since w2 (tick env (elapse 499 w2)) = [] /\
  pendingFadeRef (elapse 500 w2) = false.
Proof. vm_compute. repeat split. Qed.

(** The interval that Play starts runs the callback of the render in which
    Play was clicked, where [isPlaying] is [false]: its ticks return at the
    test of [isPlaying]. *)
Example monitor_started_by_play :
  (Render.isPlaying <$> tickRef near_end_world) = Some false /\
  step Tick near_end_world = near_end_world.
Proof. vm_compute. split; reflexivity. Qed.

(** ** The other utilities *)

Section Dedupe.

Context {T : Type} `{EqDecision T}.

Lemma elem_of_dedupe_from (seen arr : list T) (x : T) :
  x ∈ dedupe_from seen arr <-> x ∈ arr /\ x ∉ seen.
Proof.
  revert seen. induction arr as [|y arr IH]; intros seen; simpl.
  - split; [intros Hx; inversion Hx | intros [Hx _]; inversion Hx].
  - case_bool_decide as Hy.
    + rewrite IH, elem_of_cons. split; [tauto|].
      intros [[->|Hx] Hn]; [contradiction | tauto].
    + rewrite !elem_of_cons, IH, not_elem_of_cons. split.
      * intros [->|(Hx & Hne & Hn)]; [tauto | tauto].
      * intros [[->|Hx] Hn]; [tauto|].
        destruct (decide (x = y)) as [->|Hne]; tauto.
Qed.

Lemma NoDup_dedupe_from (seen arr : list T) : NoDup (dedupe_from seen arr).
Proof.
  revert seen. induction arr as [|y arr IH]; intros seen; simpl.
  - constructor.
  - case_bool_decide as Hy; [apply IH|].
    constructor; [|apply IH].
    rewrite elem_of_dedupe_from, not_elem_of_cons. tauto.
Qed.

Lemma sublist_dedupe_from (seen arr : list T) :
  sublist (dedupe_from seen arr) arr.
Proof.
  revert seen. induction arr as [|y arr IH]; intros seen; simpl.
  - constructor.
  - case_bool_decide; [apply sublist_cons, IH | apply sublist_skip, IH].
Qed.

Lemma dedupe_from_same_seen (s1 s2 arr : list T) :
  (forall x, x ∈ s1 <-> x ∈ s2) -> dedupe_from s1 arr = dedupe_from s2 arr.
Proof.
  revert s1 s2. induction arr as [|y arr IH]; intros s1 s2 E; simpl; [reflexivity|].
  rewrite (bool_decide_ext (y ∈ s1) (y ∈ s2)) by apply E.
  case_bool_decide; [apply IH, E|]. f_equal. apply IH.
  intros x. rewrite !elem_of_cons, E. reflexivity.
Qed.

Lemma dedupe_from_filter (seen arr : list T) :
  dedupe_from seen arr = filter (fun y => y ∉ seen) (dedupe arr).
Proof.
  unfold dedupe.
  enough (G : forall s s',
            dedupe_from (s ++ s') arr
            = filter (fun y => y ∉ s) (dedupe_from s' arr)).
  { rewrite <- (G seen []). now rewrite app_nil_r. }
  induction arr as [|y arr IH]; intros s s'; simpl; [reflexivity|].
  destruct (decide (y ∈ s')) as [Hs'|Hs'].
  - rewrite (bool_decide_eq_true_2 (y ∈ s ++ s')) by (apply elem_of_app; tauto).
    rewrite (bool_decide_eq_true_2 _ Hs'). apply IH.
  - rewrite (bool_decide_eq_false_2 _ Hs').
    destruct (decide (y ∈ s)) as [Hs|Hs].
    + rewrite (bool_decide_eq_true_2 (y ∈ s ++ s')) by (apply elem_of_app; tauto).
      rewrite filter_cons_False by tauto.
      rewrite <- IH. apply dedupe_from_same_seen.
      intros x. rewrite !elem_of_app, elem_of_cons. split; [tauto|].
      intros [Hx|[->|Hx]]; tauto.
    + rewrite (bool_decide_eq_false_2 (y ∈ s ++ s'))
        by (rewrite elem_of_app; tauto).
      rewrite filter_cons_True by assumption. f_equal.
      rewrite <- IH. apply dedupe_from_same_seen.
      intros x. rewrite !elem_of_cons, !elem_of_app, elem_of_cons. tauto.
Qed.

(** [dedupe] returns the elements of the array, each once, in the order of
    their first occurrences: the first element stays first, and what
    follows it is the rest deduplicated without it.  An array without
    duplicates is returned as it is. *)
Theorem dedupe_first_occurrences (arr : list T) :
  NoDup (dedupe arr) /\
  (forall x, x ∈ dedupe arr <-> x ∈ arr) /\
  sublist (dedupe arr) arr /\
  (forall x rest,
     arr = x :: rest ->
     dedupe arr = x :: filter (fun y => y <> x) (dedupe rest)) /\
  (NoDup arr -> dedupe arr = arr).
Proof.
  split; [apply NoDup_dedupe_from|].
  split; [intros x; unfold dedupe; rewrite elem_of_dedupe_from;
          split; [tauto | intros Hx; split; [exact Hx | apply not_elem_of_nil]]|].
  split; [apply sublist_dedupe_from|]. split.
  - intros x rest ->. unfold dedupe at 1. simpl. f_equal.
    rewrite dedupe_from_filter. apply list_filter_iff.
    intros y. rewrite list_elem_of_singleton. reflexivity.
  - intros Hnd. unfold dedupe.
    enough (G : forall seen, (forall x, x ∈ arr -> x ∉ seen) ->
                dedupe_from seen arr = arr) by (apply G; intros; apply not_elem_of_nil).
    induction Hnd as [|y l Hy Hnd IH]; intros seen Hs; simpl; [reflexivity|].
    rewrite bool_decide_eq_false_2 by (apply Hs; left).
    f_equal. apply IH. intros x Hx. rewrite not_elem_of_cons. split.
    + intros ->. contradiction.
    + apply Hs. right. exact Hx.
Qed.

End Dedupe.

Lemma dedupe_first_occurrences_witness :
  dedupe ["rain"; "chant"; "rain"; "drum"; "chant"] = ["rain"; "chant"; "drum"] /\
  dedupe ["rain"; "chant"; "drum"] = ["rain"; "chant"; "drum"].
Proof.
  split; [vm_compute; reflexivity|].
  apply (dedupe_first_occurrences ["rain"; "chant"; "drum"]).
  repeat constructor; vm_compute; intros Hin;
    repeat (apply elem_of_cons in Hin as [Hin|Hin]; [discriminate|]);
    inversion Hin.
Defined.

(** *** Paths *)

Lemma is_slash_eq (c : ascii) : is_slash c = true -> c = "/"%char.
Proof.
  unfold is_slash, Chars.code. intros H. apply N.eqb_eq in H.
  rewrite <- (ascii_N_embedding c), H. reflexivity.
Qed.

Lemma split_slash_nonempty (l : list ascii) : split_slash l <> [].
Proof.
  destruct l as [|c l]; simpl; [discriminate|].
  destruct (is_slash c); [discriminate|].
  destruct (split_slash l); discriminate.
Qed.

Lemma join_split_slash (l : list ascii) : join_slash (split_slash l) = l.
Proof.
  induction l as [|c l IH]; [reflexivity|]. simpl.
  pose proof (split_slash_nonempty l) as Hne.
  destruct (is_slash c) eqn:E.
  - apply is_slash_eq in E. subst c.
    destruct (split_slash l) as [|seg segs]; [contradiction|].
    simpl in *. rewrite IH. reflexivity.
  - destruct (split_slash l) as [|seg segs]; [contradiction|].
    destruct segs as [|seg' segs]; simpl in *; rewrite <- IH; reflexivity.
Qed.

Lemma split_slash_app (seg l : list ascii) :
  Forall (fun c => is_slash c = false) seg ->
  split_slash (seg ++ "/"%char :: l) = seg :: split_slash l.
Proof.
  induction 1 as [|c seg Hc _ IH]; [reflexivity|].
  simpl. rewrite Hc, IH. reflexivity.
Qed.

Lemma split_slash_plain (seg : list ascii) :
  Forall (fun c => is_slash c = false) seg -> split_slash seg = [seg].
Proof.
  induction 1 as [|c seg Hc _ IH]; [reflexivity|].
  simpl. rewrite Hc, IH. reflexivity.
Qed.

Lemma split_join_slash (segs : list (list ascii)) :
  segs <> [] -> Forall (Forall (fun c => is_slash c = false)) segs ->
  split_slash (join_slash segs) = segs.
Proof.
  intros Hne Hall. induction Hall as [|seg segs Hseg Hall IH]; [contradiction|].
  destruct segs as [|seg' segs].
  - simpl. apply split_slash_plain, Hseg.
  - change (join_slash (seg :: seg' :: segs))
      with (seg ++ "/"%char :: join_slash (seg' :: segs)).
    rewrite split_slash_app by exact Hseg. f_equal. apply IH. discriminate.
Qed.

Lemma hex_digit_safe (n : N) :
  (n < 16)%N -> Uri.unreserved (Uri.hex_digit n) = true.
Proof.
  intros Hn.
  assert (Hall : forallb (fun k => Uri.unreserved (Uri.hex_digit (N.of_nat k)))
                   (seq 0 16) = true) by reflexivity.
  rewrite forallb_forall in Hall. rewrite <- (N2Nat.id n).
  apply Hall, in_seq. lia.
Qed.

Lemma encode_char_safe (c : ascii) :
  Forall (fun x => path_safe x = true /\ is_slash x = false) (Uri.encode_char c).
Proof.
  unfold Uri.encode_char. destruct (Uri.unreserved c) eqn:E.
  - constructor; [|constructor]. split.
    + unfold path_safe. rewrite E. reflexivity.
    + unfold is_slash. destruct (Chars.code c =? 47)%N eqn:S; [|reflexivity].
      apply N.eqb_eq in S. unfold Uri.unreserved in E. rewrite S in E.
      discriminate.
  - unfold Uri.escape.
    assert (Hc : (Chars.code c < 256)%N) by apply N_ascii_bounded.
    assert (H1 : (Chars.code c / 16 < 16)%N)
      by (apply N.Div0.div_lt_upper_bound; lia).
    assert (H2 : (Chars.code c mod 16 < 16)%N) by (apply N.mod_lt; lia).
    pose proof (hex_digit_safe _ H1) as S1.
    pose proof (hex_digit_safe _ H2) as S2.
    assert (Hns : forall x, Uri.unreserved x = true ->
                    path_safe x = true /\ is_slash x = false).
    { intros x Hx. split; [unfold path_safe; rewrite Hx; reflexivity|].
      unfold is_slash. destruct (Chars.code x =? 47)%N eqn:S; [|reflexivity].
      apply N.eqb_eq in S. unfold Uri.unreserved in Hx. rewrite S in Hx.
      discriminate. }
    constructor; [split; reflexivity|].
    constructor; [apply Hns, S1|].
    constructor; [apply Hns, S2 | constructor].
Qed.

Lemma encodeURIComponent_safe (seg : list ascii) :
  Forall (fun x => path_safe x = true /\ is_slash x = false)
    (encodeURIComponent seg).
Proof.
  unfold encodeURIComponent. induction seg as [|c seg IH]; simpl.
  - constructor.
  - apply Forall_app. split; [apply encode_char_safe | exact IH].
Qed.

Lemma encode_segments_chars (l : list ascii) :
  join_slash (map encodeURIComponent (split_slash l))
  = flat_map encode_path_char l.
Proof.
  induction l as [|c l IH]; [reflexivity|]. simpl.
  pose proof (split_slash_nonempty l) as Hne.
  unfold encode_path_char at 1. destruct (is_slash c) eqn:E.
  - apply is_slash_eq in E. subst c.
    destruct (split_slash l) as [|seg segs]; [contradiction|].
    simpl in *. rewrite IH. reflexivity.
  - destruct (split_slash l) as [|seg segs]; [contradiction|].
    rewrite <- IH.
    destruct segs as [|seg' segs]; simpl;
      unfold encodeURIComponent; simpl; rewrite <- ?app_assoc; reflexivity.
Qed.

(** [encodePathPreserveSlashes] encodes every character of the path except
    the slash.  The slashes of the result are those of the path: its
    segments are the encoded segments of the path.  The result is made of
    unreserved characters, [%] and [/] only. *)
Theorem encodePath_segments (path : string) :
  let chars := list_ascii_of_string path in
  let encoded := list_ascii_of_string (encodePathPreserveSlashes path) in
  encoded = flat_map encode_path_char chars /\
  split_slash encoded = map encodeURIComponent (split_slash chars) /\
  Forall (fun c => path_safe c = true) encoded.
Proof.
  intros chars encoded. unfold encoded, encodePathPreserveSlashes.
  rewrite list_ascii_of_string_of_list_ascii. fold chars.
  split; [apply encode_segments_chars|]. split.
  - apply split_join_slash.
    + intros E. apply map_eq_nil in E. exact (split_slash_nonempty _ E).
    + apply Forall_map. apply Forall_forall. intros seg _.
      eapply Forall_impl; [apply encodeURIComponent_safe|].
      intros x [_ Hx]. exact Hx.
  - rewrite encode_segments_chars. apply Forall_flat_map, Forall_forall.
    intros c _. unfold encode_path_char. destruct (is_slash c) eqn:E.
    + constructor; [|constructor]. unfold path_safe. rewrite E.
      apply orb_true_r.
    + eapply Forall_impl; [apply encode_char_safe|]. intros x [Hx _]. exact Hx.
Qed.

Lemma hex_digit_code (n : N) :
  (n < 16)%N ->
  Chars.code (Uri.hex_digit n) = (if (n <? 10)%N then 48 + n else 55 + n)%N.
Proof.
  intros Hn. unfold Uri.hex_digit, Chars.code.
  destruct (n <? 10)%N; apply N_ascii_embedding; lia.
Qed.

Lemma hex_digit_inj (n m : N) :
  (n < 16)%N -> (m < 16)%N -> Uri.hex_digit n = Uri.hex_digit m -> n = m.
Proof.
  intros Hn Hm E. apply (f_equal Chars.code) in E.
  rewrite !hex_digit_code in E by assumption.
  destruct (N.ltb_spec n 10), (N.ltb_spec m 10); lia.
Qed.

Lemma escape_inj (c1 c2 : ascii) : Uri.escape c1 = Uri.escape c2 -> c1 = c2.
Proof.
  unfold Uri.escape. intros E. injection E as E1 E2.
  assert (H1 : (Chars.code c1 < 256)%N) by apply N_ascii_bounded.
  assert (H2 : (Chars.code c2 < 256)%N) by apply N_ascii_bounded.
  apply hex_digit_inj in E1;
    [|apply N.Div0.div_lt_upper_bound; lia|apply N.Div0.div_lt_upper_bound; lia].
  apply hex_digit_inj in E2; [|apply N.mod_lt; lia|apply N.mod_lt; lia].
  assert (E : Chars.code c1 = Chars.code c2).
  { rewrite (N.div_mod (Chars.code c1) 16), (N.div_mod (Chars.code c2) 16) by lia.
    rewrite E1, E2. reflexivity. }
  unfold Chars.code in E.
  rewrite <- (ascii_N_embedding c1), <- (ascii_N_embedding c2), E. reflexivity.
Qed.

Lemma encode_path_char_cases (c : ascii) :
  (encode_path_char c = [c] /\ c <> "%"%char) \/
  (encode_path_char c = Uri.escape c).
Proof.
  unfold encode_path_char, Uri.encode_char.
  destruct (is_slash c) eqn:S.
  - left. split; [reflexivity|]. intros ->. discriminate.
  - destruct (Uri.unreserved c) eqn:U; [|right; reflexivity].
    left. split; [reflexivity|]. intros ->. discriminate.
Qed.

Lemma encode_path_chars_inj (l1 l2 : list ascii) :
  flat_map encode_path_char l1 = flat_map encode_path_char l2 -> l1 = l2.
Proof.
  revert l2. induction l1 as [|c1 l1 IH]; intros [|c2 l2]; simpl; intros E.
  - reflexivity.
  - destruct (encode_path_char_cases c2) as [[R _]|R]; rewrite R in E;
      discriminate.
  - destruct (encode_path_char_cases c1) as [[R _]|R]; rewrite R in E;
      discriminate.
  - destruct (encode_path_char_cases c1) as [[R1 N1]|R1],
             (encode_path_char_cases c2) as [[R2 N2]|R2];
      rewrite R1, R2 in E; unfold Uri.escape in E; simpl in E.
    + injection E as -> E. f_equal. apply IH, E.
    + injection E as -> E. contradiction.
    + injection E as E0 E. symmetry in E0. contradiction.
    + injection E as E1 E2 E.
      assert (c1 = c2) by (apply escape_inj; unfold Uri.escape; congruence).
      subst. f_equal. apply IH, E.
Qed.

(** Two different paths have different encodings: no two files share a
    stream URL. *)
Theorem encodePath_injective (p q : string) :
  p <> q -> encodePathPreserveSlashes p <> encodePathPreserveSlashes q.
Proof.
  intros Hne E. apply Hne. apply (f_equal list_ascii_of_string) in E.
  unfold encodePathPreserveSlashes in E.
  rewrite !list_ascii_of_string_of_list_ascii, !encode_segments_chars in E.
  apply encode_path_chars_inj in E.
  rewrite <- (string_of_list_ascii_of_string p),
          <- (string_of_list_ascii_of_string q), E.
  reflexivity.
Qed.

Lemma encodePath_injective_witness :
  encodePathPreserveSlashes "a b/c" <> encodePathPreserveSlashes "a%20b/c".
Proof. apply encodePath_injective. discriminate. Defined.

Example encodePath_Comp1 :
  encodePathPreserveSlashes "Montana 2000/Comp 1.mp3"
  = "Montana%202000/Comp%201.mp3".
Proof. vm_compute. reflexivity. Qed.

Example encodePath_percent :
  encodePathPreserveSlashes "a%2Fb/c d" = "a%252Fb/c%20d".
Proof. vm_compute. reflexivity. Qed.

(** *** Tags *)

Lemma normalizeTag_tag_chars (s : string) :
  Forall (fun c => Chars.is_tag_char c = true)
    (list_ascii_of_string (normalizeTag s)).
Proof.
  unfold normalizeTag. rewrite list_ascii_of_string_of_list_ascii.
  apply Forall_forall. intros c Hc. apply list_elem_of_filter in Hc as [Hc _].
  apply Is_true_true, Hc.
Qed.

Lemma normalizeTag_never (key tag : string) :
  Exists (fun c => Chars.is_tag_char c = false) (list_ascii_of_string key) ->
  normalizeTag tag <> key.
Proof.
  intros Hex E. subst key. apply Exists_exists in Hex as (c & Hc & Hf).
  pose proof (normalizeTag_tag_chars tag) as Hall.
  rewrite Forall_forall in Hall. specialize (Hall c Hc). congruence.
Qed.

(** [normalizeTag] returns lower-case letters, digits, hyphens, spaces and
    underscores only; a string with any other character (an upper-case
    letter, a colon, a dot) is the normal form of no string. *)
Theorem normalizeTag_alphabet (s : string) :
  Forall (fun c => Chars.is_tag_char c = true)
    (list_ascii_of_string (normalizeTag s)) /\
  (forall key,
     Exists (fun c => Chars.is_tag_char c = false) (list_ascii_of_string key) ->
     normalizeTag s <> key).
Proof.
  split; [apply normalizeTag_tag_chars|].
  intros key Hex. apply normalizeTag_never, Hex.
Qed.

Lemma normalizeTag_alphabet_witness :
  normalizeTag "Year:2000" <> "year:2000".
Proof.
  apply (normalizeTag_alphabet "Year:2000").
  apply Exists_exists. exists ":"%char. split; [|reflexivity].
  vm_compute. do 4 apply list_elem_of_further. apply list_elem_of_here.
Defined.

(** *** More on scoring *)

Lemma tag_loop_ext (tw tw' : gmap string Q) (tags : list string) (a : Q) :
  (forall tag, tw !! normalizeTag tag = tw' !! normalizeTag tag) ->
  foldl (fun w tag =>
           match tw !! normalizeTag tag with
           | Some x => (w + x)%Q
           | None => w
           end) a tags
  = foldl (fun w tag =>
             match tw' !! normalizeTag tag with
             | Some x => (w + x)%Q
             | None => w
             end) a tags.
Proof.
  intros E. revert a. induction tags as [|k tags IH]; intros a; simpl;
    [reflexivity|].
  rewrite E. apply IH.
Qed.

(** In a mapping that has other keys, the weight of a key with a character
    outside [[a-z0-9\- _]] changes no score: no tag is looked up under
    such a key. *)
Theorem scoreTrack_ignores_foreign_key (name description : string)
    (tw : gmap string Q) (crossfade : Q) (key : string) (v : Q)
    (nowPlaying : option Track.t) (t : Track.t) :
  Exists (fun c => Chars.is_tag_char c = false) (list_ascii_of_string key) ->
  tw <> ∅ ->
  scoreTrack (Station.mk name description (<[key := v]> tw) crossfade)
    nowPlaying t
  = scoreTrack (Station.mk name description tw crossfade) nowPlaying t.
Proof.
  intros Hex Hne. unfold scoreTrack. simpl.
  assert (H1 : (0 <? size tw)%nat = true).
  { apply Nat.ltb_lt. apply map_size_non_empty_iff in Hne. lia. }
  assert (H2 : (0 <? size (<[key := v]> tw))%nat = true).
  { apply Nat.ltb_lt.
    assert (size (<[key := v]> tw) <> 0); [|lia].
    apply map_size_non_empty_iff, insert_non_empty. }
  rewrite H1, H2.
  rewrite (tag_loop_ext (<[key := v]> tw) tw); [reflexivity|].
  intros tag. apply lookup_insert_ne. intros E. symmetry in E.
  exact (normalizeTag_never key tag Hex E).
Qed.

Lemma scoreTrack_ignores_foreign_key_witness :
  scoreTrack
    (Station.mk "Dawn" "" (<["year:2000" := 3%Q]> {[ "dawn" := 5%Q ]}) 9)
    None Comp1
  = scoreTrack (Station.mk "Dawn" "" {[ "dawn" := 5%Q ]} 9) None Comp1.
Proof.
  apply scoreTrack_ignores_foreign_key.
  - apply Exists_exists. exists ":"%char. split; [|reflexivity].
    vm_compute. do 4 apply list_elem_of_further. apply list_elem_of_here.
  - apply insert_non_empty.
Defined.

(** On an empty mapping the same key does change scores: it switches the
    bonus from 0.25 to 0.15 a tag. *)
Example foreign_key_on_empty_mapping :
  (scoreTrack AllField None Comp1 == 2.25)%Q /\
  (scoreTrack YearStation None Comp1 == 1.75)%Q.
Proof. split; vm_compute; reflexivity. Qed.

Lemma Qmax0_scale (x : Q) : (Qmax 0 (x * 0.05) == 0.05 * Qmax 0 x)%Q.
Proof.
  destruct (Qlt_le_dec x 0) as [Hneg|Hpos].
  - rewrite (Q.max_l 0 x) by lra. rewrite Q.max_l by lra. ring.
  - rewrite (Q.max_r 0 x) by lra. rewrite Q.max_r by lra. ring.
Qed.

(** The track that is playing, where its id is not empty, scores exactly
    0.05 times what it would score otherwise; any other track, and every
    track while the current one has an empty id, scores as if nothing were
    playing. *)
Theorem scoreTrack_repeat_penalty (station : Station.t) (p t : Track.t) :
  (Track.id p <> "" -> Track.id t = Track.id p ->
     (scoreTrack station (Some p) t == 0.05 * scoreTrack station None t)%Q) /\
  (Track.id p = "" \/ Track.id t <> Track.id p ->
     scoreTrack station (Some p) t = scoreTrack station None t).
Proof.
  unfold scoreTrack. simpl. split.
  - intros Hp Ht.
    rewrite (bool_decide_eq_false_2 _ Hp), (bool_decide_eq_true_2 _ Ht). simpl.
    apply Qmax0_scale.
  - intros [Hp|Ht].
    + rewrite (bool_decide_eq_true_2 _ Hp). reflexivity.
    + rewrite (bool_decide_eq_false_2 _ Ht), andb_false_r. reflexivity.
Qed.

Lemma scoreTrack_repeat_penalty_witness :
  (scoreTrack CampfireDrift (Some Birds) Birds
   == 0.05 * scoreTrack CampfireDrift None Birds)%Q /\
  scoreTrack CampfireDrift (Some Birds) BirdsDawn
  = scoreTrack CampfireDrift None BirdsDawn.
Proof.
  destruct (scoreTrack_repeat_penalty CampfireDrift Birds Birds) as [H _].
  destruct (scoreTrack_repeat_penalty CampfireDrift Birds BirdsDawn) as [_ H'].
  split; [apply H; [discriminate | reflexivity] | apply H'; right; discriminate].
Defined.

(** *** Inferred tags *)

Lemma sublist_List_filter {X : Type} (f : X -> bool) (l : list X) :
  sublist (List.filter f l) l.
Proof.
  induction l as [|x l IH]; simpl; [constructor|].
  destruct (f x); [apply sublist_skip, IH | apply sublist_cons, IH].
Qed.

Lemma In_take {X : Type} (n : nat) (l : list X) (x : X) :
  In x (take n l) -> In x l.
Proof.
  revert n. induction l as [|y l IH]; intros [|n]; simpl; try tauto.
  intros [->|Hx]; [left; reflexivity | right; eapply IH, Hx].
Qed.

Lemma year_at_is_year (prev : bool) (l y : list ascii) :
  Infer.year_at prev l = Some y -> Infer.is_year y = true.
Proof.
  unfold Infer.year_at.
  destruct l as [|c1 [|c2 [|d1 [|d2 rest]]]]; try discriminate.
  destruct (negb prev); simpl; [|discriminate].
  destruct ((Infer.char_eqb c1 "1" && Infer.char_eqb c2 "9")
            || (Infer.char_eqb c1 "2" && Infer.char_eqb c2 "0")) eqn:E1;
    simpl; [|discriminate].
  destruct (Infer.is_digit d1) eqn:E2; simpl; [|discriminate].
  destruct (Infer.is_digit d2) eqn:E3; simpl; [|discriminate].
  destruct (match rest with [] => true | c :: _ => negb (Infer.is_word c) end);
    [|discriminate].
  intros [= <-]. simpl. rewrite E1, E2, E3. reflexivity.
Qed.

Lemma year_matches_are_years (skip : nat) (prev : bool) (l : list ascii) :
  Forall (fun y => Infer.is_year y = true) (Infer.year_matches skip prev l).
Proof.
  revert skip prev.
  induction l as [|c l IH]; intros skip prev; cbn [Infer.year_matches].
  - constructor.
  - destruct skip as [|skip]; [|apply IH].
    destruct (Infer.year_at prev (c :: l)) as [y|] eqn:E; [|apply IH].
    constructor; [eapply year_at_is_year, E | apply IH].
Qed.

Lemma map_fixed_Forall {X : Type} (f : X -> X) (l : list X) :
  map f l = l -> Forall (fun x => f x = x) l.
Proof.
  induction l as [|x l IH]; simpl; intros E; [constructor|].
  injection E as E1 E2. constructor; [exact E1 | apply IH, E2].
Qed.

Lemma vocabulary_normal :
  Forall (fun k => normalizeTag k = k) Infer.vocabulary.
Proof. apply map_fixed_Forall. vm_compute. reflexivity. Qed.

Lemma keywords_are_words (f : string -> bool) :
  Forall Infer.is_word_tag (map normalizeTag (List.filter f Infer.likely)).
Proof.
  pose proof vocabulary_normal as Hvoc. rewrite Forall_forall in Hvoc.
  apply Forall_forall. intros tag Hk.
  apply list_elem_of_In, in_map_iff in Hk as (k & <- & Hk).
  apply filter_In in Hk as [Hk _].
  assert (Hv : k ∈ Infer.vocabulary)
    by (apply elem_of_app; left; apply list_elem_of_In, Hk).
  rewrite (Hvoc k Hv). split; [exact Hv | apply Hvoc, Hv].
Qed.

Lemma heuristic_tags_are_words
  (f : list string * list string * string -> bool) :
  Forall Infer.is_word_tag
    (map (fun h => snd h) (List.filter f Infer.heuristics)).
Proof.
  pose proof vocabulary_normal as Hvoc. rewrite Forall_forall in Hvoc.
  apply Forall_forall. intros tag Hh.
  apply list_elem_of_In, in_map_iff in Hh as (h & <- & Hh).
  apply filter_In in Hh as [Hh _].
  assert (Hv : snd h ∈ Infer.vocabulary).
  { apply elem_of_app. right. apply list_elem_of_In, in_map, Hh. }
  split; [exact Hv | apply Hvoc, Hv].
Qed.

Lemma year_tags_are_years (n : nat) (b : bool) (chars : list ascii) :
  Forall Infer.is_year_tag
    (map (fun y => String.append "year:" (string_of_list_ascii y))
       (Infer.year_matches n b chars)).
Proof.
  apply Forall_forall. intros tag Hy.
  apply list_elem_of_In, in_map_iff in Hy as (y & <- & Hy).
  exists y. split; [|reflexivity].
  pose proof (year_matches_are_years n b chars) as Hall.
  rewrite Forall_forall in Hall. apply Hall, list_elem_of_In, Hy.
Qed.

Lemma folder_tags_are_folders (fullPath : string) :
  Forall (Infer.is_folder_tag fullPath)
    (map (fun p => String.append "folder:" p)
       (take 2
          (List.filter Infer.nonempty
             (map (fun p => normalizeTag (string_of_list_ascii p))
                (split_slash (list_ascii_of_string fullPath)))))).
Proof.
  apply Forall_forall. intros tag Hf.
  apply list_elem_of_In, in_map_iff in Hf as (q & <- & Hq).
  apply list_elem_of_In, list_elem_of_lookup in Hq as (i & Hi).
  apply lookup_take_Some in Hi as [Hi Hlt].
  pose proof (list_elem_of_lookup_2 _ _ _ Hi) as Hq.
  apply list_elem_of_In, filter_In in Hq as [Hq' Hqne].
  apply in_map_iff in Hq' as (seg & <- & Hseg).
  exists i, seg. split; [exact Hlt|]. split; [exact Hi|].
  split; [apply list_elem_of_In, Hseg|]. split; [|reflexivity].
  intros E. rewrite E in Hqne. discriminate.
Qed.

Lemma Forall_nonempty_dedupe (P : string -> Prop) (l : list string) :
  Forall P l ->
  NoDup (List.filter Infer.nonempty (dedupe l)) /\
  Forall (fun tag => tag <> "" /\ P tag)
    (List.filter Infer.nonempty (dedupe l)).
Proof.
  intros Hl. split.
  - eapply sublist_NoDup; [apply NoDup_dedupe_from|].
    apply sublist_List_filter.
  - apply Forall_forall. intros tag Hin.
    apply list_elem_of_In, filter_In in Hin as [Hin Hne].
    split; [intros ->; discriminate|].
    apply list_elem_of_In in Hin. unfold dedupe in Hin.
    apply elem_of_dedupe_from in Hin as [Hin _].
    rewrite Forall_forall in Hl. apply Hl, Hin.
Qed.

(** The tags inferred from a path are distinct and not empty, and each is
    a word of the vocabulary, which [normalizeTag] leaves as it is, or
    [year:] with a year in four digits, or [folder:] with the normal form
    of a segment of that path: one of the first two among the segments
    whose normal form is not empty. *)
Theorem inferTagsFromPath_tags (fullPath : string) :
  NoDup (inferTagsFromPath fullPath) /\
  Forall (fun tag =>
            tag <> "" /\
            (Infer.is_word_tag tag \/ Infer.is_year_tag tag
             \/ Infer.is_folder_tag fullPath tag))
    (inferTagsFromPath fullPath).
Proof.
  unfold inferTagsFromPath. cbv zeta. apply Forall_nonempty_dedupe.
  repeat apply Forall_app_2.
  - eapply Forall_impl; [apply keywords_are_words|].
    intros tag H. left. exact H.
  - eapply Forall_impl; [apply year_tags_are_years|].
    intros tag H. right. left. exact H.
  - eapply Forall_impl; [apply folder_tags_are_folders|].
    intros tag H. right. right. exact H.
  - eapply Forall_impl; [apply heuristic_tags_are_words|].
    intros tag H. left. exact H.
Qed.

Example inferTagsFromPath_Comp1 :
  inferTagsFromPath "Montana 2000/Comp 1.mp3" = Track.tags Comp1.
Proof. vm_compute. reflexivity. Qed.

Example inferTagsFromPath_heuristics :
  inferTagsFromPath "Seed_Camp/2003 dawn chorus - om.wav"
  = ["dawn"; "seed camp"; "year:2003"; "folder:seed_camp";
     "folder:2003 dawn chorus - omwav"; "chant"].
Proof. vm_compute. reflexivity. Qed.

(** ** The engine over every event *)

(** A relation between worlds that is reflexive and transitive and that
    every write to a ref respects holds between a world and the one any
    event leaves. *)
Section Steps.

Variable R : World -> World -> Prop.
Hypothesis R_refl : forall w, R w w.
Hypothesis R_trans : forall w1 w2 w3, R w1 w2 -> R w2 w3 -> R w1 w3.
Hypothesis R_setReact : forall f w, R w (setReact f w).
Hypothesis R_onDeck : forall d f w, R w (onDeck d f w).
Hypothesis R_called : forall c w, R w (called c w).
Hypothesis R_setActiveRef : forall v w, R w (setActiveRef v w).
Hypothesis R_setTickRef : forall v w, R w (setTickRef v w).
Hypothesis R_ensureCtx : forall env o w, R w (ensureCtx env o w).
Hypothesis R_setPendingFadeRef : forall v w, R w (setPendingFadeRef v w).
Hypothesis R_setAdvancing : forall v w, R w (setAdvancing v w).
Hypothesis R_setTimeouts : forall v w, R w (setTimeouts v w).

Lemma R_setTimeout action ms w : R w (setTimeout action ms w).
Proof. apply R_setTimeouts. Qed.

Lemma R_tick env w : R w (tick env w).
Proof.
  unfold tick. destruct (activeDeck w) as [deck|]; [|apply R_refl].
  destruct (negb _ || negb _); [apply R_refl|].
  destruct (Audio.duration (Deck.audio deck)); cbn [isFinite negb];
    try apply R_refl.
  destruct (Qleb q 0); [apply R_refl|].
  destruct (Qleb _ _); [|apply R_refl].
  destruct (pendingFadeRef w); [apply R_refl|]. cbv zeta.
  eapply R_trans; [apply R_setPendingFadeRef|].
  eapply R_trans; [apply R_called | apply R_setAdvancing].
Qed.

Lemma R_next env useCrossfade o w : R w (snd (next env useCrossfade o w)).
Proof.
  apply (keeps_next R); auto. intros d ms w0. apply R_setTimeout.
Qed.

Lemma R_advanceSettles o w : R w (advanceSettles o w).
Proof.
  unfold advanceSettles. destruct (advancing w) as [|env rest]; [apply R_refl|].
  cbv zeta. eapply R_trans; [apply R_setAdvancing|].
  eapply R_trans; [apply R_next | apply R_setTimeout].
Qed.

Lemma R_fire action w : R w (fire action w).
Proof.
  destruct action as [d|]; simpl.
  - apply (R_audioPause R); auto.
  - apply R_setPendingFadeRef.
Qed.

Lemma R_fire_all (due : list (Q * Timeout)) w :
  R w (foldl (fun w p => fire (snd p) w) w due).
Proof.
  revert w. induction due as [|p due IH]; intros w; [apply R_refl|].
  simpl. eapply R_trans; [apply R_fire | apply IH].
Qed.

Lemma R_elapse ms w : R w (elapse ms w).
Proof.
  unfold elapse. cbv zeta.
  eapply R_trans; [apply R_setTimeouts | apply R_fire_all].
Qed.

Lemma R_step (e : Event) (w : World) : R w (step e w).
Proof.
  pose proof (R_step_handlers R R_refl R_trans R_setReact R_onDeck R_called
                R_setActiveRef R_setTickRef R_ensureCtx
                (fun d ms w => R_setTimeout (PauseDeck d) ms w) e w) as H.
  destruct e; try exact H; simpl.
  - destruct (tickRef w); [apply R_tick | apply R_refl].
  - apply R_advanceSettles.
  - apply R_elapse.
Qed.

Lemma R_run (es : list Event) (w : World) : R w (run es w).
Proof.
  revert w. induction es as [|e es IH]; intros w; [apply R_refl|].
  eapply R_trans; [apply R_step | apply IH].
Qed.

End Steps.

(** *** The decks and the audio context *)

Lemma match_kept_onDeck d f w : match_kept w (onDeck d f w).
Proof.
  destruct w as [r c a b ar tk pf ts adv cs], d, a, b; intros H; exact H.
Qed.

Lemma match_kept_ensureCtx env o w : match_kept w (ensureCtx env o w).
Proof.
  unfold ensureCtx, match_kept, decks_match_ctx.
  destruct w as [r [[]|] a b ar tk pf ts adv cs]; simpl;
    destruct (ctxStartsSuspended o), (ctxResumeOk o); simpl; intros H;
    try exact H; split; reflexivity.
Qed.

Lemma match_kept_refl (w : World) : match_kept w w.
Proof. intros H. exact H. Qed.

Lemma match_kept_trans (w1 w2 w3 : World) :
  match_kept w1 w2 -> match_kept w2 w3 -> match_kept w1 w3.
Proof. unfold match_kept. auto. Qed.

Lemma run_match_kept (es : list Event) (w : World) : match_kept w (run es w).
Proof.
  apply (R_run match_kept).
  - exact match_kept_refl.
  - exact match_kept_trans.
  - intros f w0 H. destruct w0. exact H.
  - exact match_kept_onDeck.
  - intros c w0 H. destruct w0. exact H.
  - intros v w0 H. destruct w0. exact H.
  - intros v w0 H. destruct w0. exact H.
  - exact match_kept_ensureCtx.
  - intros v w0 H. destruct w0. exact H.
  - intros v w0 H. destruct w0. exact H.
  - intros v w0 H. destruct w0. exact H.
Qed.

Lemma mounted_decks_match_ctx : decks_match_ctx mounted.
Proof. split; reflexivity. Qed.

(** In every world that events lead to from the mounted component, the two
    decks exist exactly when the audio context does: none of the three
    before the first call of [ensureCtx], all three from then on. *)
Theorem run_decks_with_ctx (es : list Event) :
  let w := run es mounted in
  (ctxRef w = None /\ deckARef w = None /\ deckBRef w = None) \/
  (is_Some (ctxRef w) /\ is_Some (deckARef w) /\ is_Some (deckBRef w)).
Proof.
  intros w.
  destruct (run_match_kept es mounted mounted_decks_match_ctx) as [Ha Hb].
  fold w in Ha, Hb.
  destruct (ctxRef w), (deckARef w), (deckBRef w); try discriminate;
    [right|left]; repeat split; eauto.
Qed.

(** ** Starting a track *)

(** Splits a world whose decks match its audio context into the cases of
    its refs. *)
Ltac world_cases w H :=
  let Ha := fresh "Ha" in
  let Hb := fresh "Hb" in
  destruct w as [r [[]|] [a|] [b|] ar tk pf ts adv cs];
  destruct H as [Ha Hb]; simpl in Ha, Hb; try discriminate; clear Ha Hb;
  destruct ar, tk.

Ltac run_effects :=
  unfold bind, act, get, ret, try_or, audioPlay, pick, ensureCtx, activeDeck,
    inactiveDeck;
  cbn -[Qmax Qmult Qplus].

Lemma take_new_calls (new l : list Call) :
  take (length (new ++ l) - length l) (new ++ l) = new.
Proof.
  rewrite length_app.
  replace (length new + length l - length l) with (length new) by lia.
  apply take_app_length.
Qed.

(** Rewrites the calls between two explicit worlds, once [calls_since] has
    been unfolded, into the list of the new ones. *)
Ltac taken_calls :=
  match goal with
  | |- context [take (?n - length ?cs) ?l] =>
      let p := calls_on_top l cs in
      change (take (n - length cs) l)
        with (take (length (p ++ cs) - length cs) (p ++ cs));
      rewrite (take_new_calls p cs)
  end.

(** The three paths through [playTrack]. *)
Lemma playTrack_paths (env : Render.t) (track : Track.t) (crossfade : bool)
    (o : Oracle) (w : World) :
  decks_match_ctx w ->
  playTrack env track crossfade o w
  = if startOk o
    then (Returned tt,
          if crossfade && Render.isPlaying env
          then crossfaded env track o w
          else hard_cut env track o w)
    else (Thrown, called (CallAudioPlay (other (activeRef w)))
                    (loaded env track o w)).
Proof.
  intros H. unfold playTrack, crossfaded, hard_cut, finished, started, loaded.
  cbv zeta.
  destruct (startOk o), (crossfade && Render.isPlaying env);
    world_cases w H;
    unfold bind, act, ensureCtx;
    destruct (ctxStartsSuspended o), (ctxResumeOk o); vm_compute; reflexivity.
Qed.

(** [playTrack] without a crossfade (none was asked for, or the render of
    the handler was not playing), where [nxt.audio.play()] is fulfilled: the
    deck roles swap; the new active deck holds the track, from position 0,
    playing at gain 1, with the handler of this render for [ended]; the
    deck that was active is paused at gain 0 and keeps its track; the
    render state shows the track as playing; the monitor runs; no ramp is
    scheduled and no timeout set. *)
Theorem playTrack_hard_cut (env : Render.t) (track : Track.t)
    (crossfade : bool) (o : Oracle) (w : World) :
  decks_match_ctx w ->
  startOk o = true ->
  crossfade && Render.isPlaying env = false ->
  let w' := snd (playTrack env track crossfade o w) in
  fst (playTrack env track crossfade o w) = Returned tt /\
  activeRef w' = other (activeRef w) /\
  (exists deck,
     activeDeck w' = Some deck /\
     Deck.track deck = Some track /\
     Deck.gain deck = 1%Q /\
     Audio.src (Deck.audio deck) = Track.url track /\
     Audio.currentTime (Deck.audio deck) = 0%Q /\
     Audio.paused (Deck.audio deck) = false /\
     Audio.onended (Deck.audio deck) = Some env) /\
  (exists old,
     inactiveDeck w' = Some old /\
     Deck.gain old = 0%Q /\
     Audio.paused (Deck.audio old) = true /\
     Deck.track old = activeDeck w ≫= Deck.track) /\
  Render.nowPlaying (react w') = Some track /\
  Render.isPlaying (react w') = true /\
  is_Some (tickRef w') /\
  Forall (fun c => is_ramp c = false) (calls_since w w') /\
  timeouts w' = timeouts w.
Proof.
  intros H Hok Hx. rewrite (playTrack_paths env track crossfade o w H), Hok, Hx.
  unfold hard_cut, finished, started, loaded.
  world_cases w H; run_effects;
    destruct (ctxStartsSuspended o), (ctxResumeOk o); cbn;
    taken_calls;
    (split; [reflexivity|]); (split; [reflexivity|]);
    (split; [eexists; repeat split; reflexivity|]);
    (split; [eexists; repeat split; reflexivity|]);
    (split; [reflexivity|]); (split; [reflexivity|]);
    (split; [eauto|]); (split; [repeat constructor|reflexivity]).
Qed.

Lemma playTrack_hard_cut_witness :
  let w := step (Loaded [Untagged; Birds; BirdsDawn]) mounted in
  let w' := snd (playTrack (react w) Birds true fulfilled w) in
  activeRef w' = B /\ Render.nowPlaying (react w') = Some Birds /\
  timeouts w' = [].
Proof.
  intros w w'.
  destruct (playTrack_hard_cut (react w) Birds true fulfilled w)
    as (_ & Ha & _ & _ & Hn & _ & _ & _ & Ht).
  - split; reflexivity.
  - reflexivity.
  - reflexivity.
  - split; [exact Ha|]. split; [exact Hn | exact Ht].
Defined.

(** [playTrack] with a crossfade, from a render that is playing, where
    [nxt.audio.play()] is fulfilled: the deck roles swap; the new active
    deck holds the track, playing from position 0 at gain 0 with a ramp to
    1; the deck that was active is as it was but for a ramp to 0, both
    ramps over [max(0.01, crossfadeSec)] seconds; nothing is paused now, and
    one timeout is added, which pauses the deck that was active after
    [max(250, crossfadeSec * 1000 + 100)] milliseconds. *)
Theorem playTrack_crossfade (env : Render.t) (track : Track.t) (o : Oracle)
    (w : World) :
  decks_match_ctx w ->
  startOk o = true ->
  Render.isPlaying env = true ->
  let w' := snd (playTrack env track true o w) in
  let cf := Render.crossfadeSec env in
  fst (playTrack env track true o w) = Returned tt /\
  activeRef w' = other (activeRef w) /\
  (exists deck,
     activeDeck w' = Some deck /\
     Deck.track deck = Some track /\
     Deck.gain deck = 0%Q /\
     Deck.ramp deck = Some (1%Q, Qmax 0.01 cf) /\
     Audio.currentTime (Deck.audio deck) = 0%Q /\
     Audio.paused (Deck.audio deck) = false) /\
  (exists old,
     inactiveDeck w' = Some old /\
     Deck.ramp old = Some (0%Q, Qmax 0.01 cf) /\
     forall cur, activeDeck w = Some cur ->
       old = Deck.setRamp (Some (0%Q, Qmax 0.01 cf)) cur) /\
  Render.nowPlaying (react w') = Some track /\
  Render.isPlaying (react w') = true /\
  Forall (fun c => is_pause c = false) (calls_since w w') /\
  timeouts w'
  = timeouts w ++ [(Qmax 250 (cf * 1000 + 100), PauseDeck (activeRef w))].
Proof.
  intros H Hok Hp. rewrite (playTrack_paths env track true o w H), Hok, Hp.
  unfold crossfaded, finished, started, loaded.
  world_cases w H; run_effects;
    destruct (ctxStartsSuspended o), (ctxResumeOk o);
    cbn -[Qmax Qmult Qplus];
    taken_calls;
    (split; [reflexivity|]); (split; [reflexivity|]);
    (split; [eexists; repeat split; reflexivity|]);
    (split; [eexists; split; [reflexivity|]; split; [reflexivity|];
             intros cur Hcur; try discriminate; injection Hcur as <-;
             reflexivity|]);
    (split; [reflexivity|]); (split; [reflexivity|]);
    (split; [repeat constructor|reflexivity]).
Qed.

Lemma playTrack_crossfade_witness :
  let w' := snd (playTrack (react near_end_world) BirdsDawn true fulfilled
                   near_end_world) in
  activeRef w' = A /\ timeouts w' = [(6100%Q, PauseDeck B)].
Proof.
  intros w'.
  destruct (playTrack_crossfade (react near_end_world) BirdsDawn fulfilled
              near_end_world) as (_ & Ha & _ & _ & _ & _ & _ & Ht).
  - split; reflexivity.
  - reflexivity.
  - reflexivity.
  - split; [exact Ha|]. fold w' in Ht. rewrite Ht. vm_compute. reflexivity.
Defined.

(** [playTrack] where [nxt.audio.play()] is rejected: the call rejects; the
    inactive deck has been loaded with the track and is silent and paused;
    the deck roles, the active deck, the render state, the monitor and the
    timeouts are as they were. *)
Theorem playTrack_rejected (env : Render.t) (track : Track.t)
    (crossfade : bool) (o : Oracle) (w : World) :
  decks_match_ctx w ->
  startOk o = false ->
  let w' := snd (playTrack env track crossfade o w) in
  fst (playTrack env track crossfade o w) = Thrown /\
  activeRef w' = activeRef w /\
  react w' = react w /\
  tickRef w' = tickRef w /\
  timeouts w' = timeouts w /\
  (forall cur, activeDeck w = Some cur -> activeDeck w' = Some cur) /\
  (exists deck,
     inactiveDeck w' = Some deck /\
     Deck.track deck = Some track /\
     Deck.gain deck = 0%Q /\
     Audio.src (Deck.audio deck) = Track.url track /\
     Audio.paused (Deck.audio deck) = true) /\
  calls_since w w' = [CallAudioPlay (other (activeRef w))].
Proof.
  intros H Hok. rewrite (playTrack_paths env track crossfade o w H), Hok.
  unfold loaded.
  world_cases w H; run_effects;
    destruct (ctxStartsSuspended o), (ctxResumeOk o);
    cbn -[Qmax Qmult Qplus];
    taken_calls;
    (split; [reflexivity|]); (split; [reflexivity|]);
    (split; [reflexivity|]); (split; [reflexivity|]);
    (split; [reflexivity|]);
    (split; [intros cur Hcur; try discriminate; exact Hcur|]);
    (split; [eexists; repeat split; reflexivity|reflexivity]).
Qed.

Lemma playTrack_rejected_witness :
  let w' := snd (playTrack (react near_end_world) BirdsDawn true
                   start_rejected near_end_world) in
  react w' = react near_end_world /\ activeRef w' = B.
Proof.
  intros w'.
  destruct (playTrack_rejected (react near_end_world) BirdsDawn true
              start_rejected near_end_world) as (_ & Ha & Hr & _).
  - split; reflexivity.
  - reflexivity.
  - split; [exact Hr | exact Ha].
Defined.

(** ** Pause, stop and resume *)

(** [pause()] does nothing where there is no active deck.  Otherwise it
    pauses the active deck and nothing else on it, leaves the other deck as
    it is (so a deck that is fading out goes on playing), clears
    [isPlaying] and stops the monitor; the current track, the deck roles
    and the pending timeouts are as before. *)
Theorem pause_effects (w : World) :
  (activeDeck w = None -> pause w = w) /\
  (forall cur, activeDeck w = Some cur ->
     activeDeck (pause w) = Some (Deck.setAudio (Audio.setPaused true) cur) /\
     inactiveDeck (pause w) = inactiveDeck w /\
     Render.isPlaying (react (pause w)) = false /\
     tickRef (pause w) = None /\
     Render.nowPlaying (react (pause w)) = Render.nowPlaying (react w) /\
     activeRef (pause w) = activeRef w /\
     timeouts (pause w) = timeouts w /\
     Forall (fun c => c = CallAudioPause (activeRef w) \/ c = CallClearInterval)
       (calls_since w (pause w))).
Proof.
  split.
  - intros Hn. unfold pause. rewrite Hn. reflexivity.
  - intros cur Hcur. unfold pause. rewrite Hcur.
    destruct w as [r c a b ar tk pf ts adv cs].
    unfold activeDeck, inactiveDeck in *.
    destruct ar, tk; simpl in Hcur; subst; cbn; taken_calls;
      do 7 (split; [reflexivity|]);
      repeat (constructor;
              [first [left; reflexivity | right; reflexivity]|]);
      constructor.
Qed.

Lemma pause_effects_witness :
  Render.isPlaying (react (pause near_end_world)) = false /\
  tickRef (pause near_end_world) = None.
Proof.
  destruct (activeDeck near_end_world) as [cur|] eqn:E.
  - destruct pause_effects with (w := near_end_world) as (_ & H).
    destruct (H cur E) as (_ & _ & Hp & Ht & _). split; [exact Hp | exact Ht].
  - vm_compute in E. discriminate.
Defined.

(** Pause, then Play, where resuming is fulfilled, is a round trip for a
    deck that was playing a track: [play()] returns, both decks are as they
    were before the pause, and so are the deck roles, the current track and
    the pending timeouts; [isPlaying] is set, and the monitor runs again,
    with the callback of the render that resumed. *)
Theorem pause_play_round_trip (env : Render.t) (o : Oracle) (w : World)
    (cur : Deck.t) (t : Track.t) :
  decks_match_ctx w ->
  Render.tracks env <> [] ->
  resumeOk o = true ->
  activeDeck w = Some cur ->
  Deck.track cur = Some t ->
  Audio.paused (Deck.audio cur) = false ->
  let w' := snd (play env o (pause w)) in
  fst (play env o (pause w)) = Returned tt /\
  deckARef w' = deckARef w /\
  deckBRef w' = deckBRef w /\
  activeRef w' = activeRef w /\
  Render.nowPlaying (react w') = Render.nowPlaying (react w) /\
  Render.isPlaying (react w') = true /\
  tickRef w' = Some env /\
  timeouts w' = timeouts w.
Proof.
  intros H Ht Hok Hcur Htr Hp. unfold play.
  destruct (Render.tracks env) as [|t0 l]; [contradiction|]. rewrite Hok.
  unfold pause. rewrite Hcur.
  world_cases w H; unfold activeDeck in Hcur; simpl in Hcur;
    try discriminate; injection Hcur as ->;
    destruct cur as [[src p ct du vol oe] g rp tr]; simpl in Htr, Hp; subst;
    unfold bind, act, ensureCtx; destruct (ctxResumeOk o); vm_compute;
    repeat split.
Qed.

Lemma pause_play_round_trip_witness :
  deckBRef (snd (play (react near_end_world) fulfilled (pause near_end_world)))
  = deckBRef near_end_world.
Proof.
  destruct (activeDeck near_end_world) as [cur|] eqn:E;
    [|vm_compute in E; discriminate].
  destruct (Deck.track cur) as [t|] eqn:Et;
    [|vm_compute in E; injection E as <-; discriminate].
  destruct (pause_play_round_trip (react near_end_world) fulfilled
              near_end_world cur t) as (_ & _ & Hb & _).
  - split; reflexivity.
  - vm_compute. discriminate.
  - reflexivity.
  - exact E.
  - exact Et.
  - vm_compute in E. injection E as <-. reflexivity.
  - exact Hb.
Defined.

(** Stop, then Play, where resuming is fulfilled: [play()] resumes the
    active deck where it was and sets [isPlaying], and the gain that
    [stop()] set to 0 stays 0: nothing restores it and no ramp is
    scheduled; the other deck stays paused at gain 0. *)
Theorem stop_play_keeps_gain_zero (env : Render.t) (o : Oracle) (w : World)
    (cur : Deck.t) (t : Track.t) :
  decks_match_ctx w ->
  Render.tracks env <> [] ->
  resumeOk o = true ->
  activeDeck w = Some cur ->
  Deck.track cur = Some t ->
  let w' := snd (play env o (stop w)) in
  fst (play env o (stop w)) = Returned tt /\
  activeRef w' = activeRef w /\
  activeDeck w'
  = Some (Deck.setAudio (Audio.setPaused false) (Deck.setGain 0 cur)) /\
  (exists other,
     inactiveDeck w' = Some other /\ Deck.gain other = 0%Q /\
     Audio.paused (Deck.audio other) = true) /\
  Render.nowPlaying (react w') = Render.nowPlaying (react w) /\
  Render.isPlaying (react w') = true.
Proof.
  intros H Ht Hok Hcur Htr. unfold play.
  destruct (Render.tracks env) as [|t0 l]; [contradiction|]. rewrite Hok.
  unfold stop.
  world_cases w H; unfold activeDeck in Hcur; simpl in Hcur;
    try discriminate; injection Hcur as ->;
    destruct cur as [[src p ct du vol oe] g rp tr]; simpl in Htr; subst;
    unfold bind, act, ensureCtx; destruct (ctxResumeOk o); vm_compute;
    do 3 (split; [reflexivity|]);
    (split; [eexists; repeat split; reflexivity|]);
    split; reflexivity.
Qed.

Lemma stop_play_keeps_gain_zero_witness :
  (Deck.gain <$> activeDeck
     (snd (play (react near_end_world) fulfilled (stop near_end_world))))
  = Some 0%Q.
Proof.
  destruct (activeDeck near_end_world) as [cur|] eqn:E;
    [|vm_compute in E; discriminate].
  destruct (Deck.track cur) as [t|] eqn:Et;
    [|vm_compute in E; injection E as <-; discriminate].
  destruct (stop_play_keeps_gain_zero (react near_end_world) fulfilled
              near_end_world cur t) as (_ & _ & Ha & _).
  - split; reflexivity.
  - vm_compute. discriminate.
  - reflexivity.
  - exact E.
  - exact Et.
  - rewrite Ha. reflexivity.
Defined.

(** ** What holds between two handlers *)

(** [next] and [play] are built from [ensureCtx], the selection,
    [playTrack] and the resume of the active deck: a relation that each of
    these respects holds across [next] and [play]. *)
Section Handlers.

Variable env : Render.t.
Variable R : World -> World -> Prop.
Hypothesis R_refl : forall w, R w w.
Hypothesis R_trans : forall w1 w2 w3, R w1 w2 -> R w2 w3 -> R w1 w3.
Hypothesis R_called : forall c w, c <> CallAutoNext -> R w (called c w).
Hypothesis R_ensureCtx : forall o w, R w (ensureCtx env o w).
Hypothesis R_playTrack :
  forall track crossfade o w, R w (snd (playTrack env track crossfade o w)).
Hypothesis R_resume :
  forall d w,
    R w (startTick env
           (setReact (Render.setIsPlaying true)
              (onDeck d (Deck.setAudio (Audio.setPaused false))
                 (called (CallAudioPlay d) w)))).

Lemma H_select (o : Oracle) (w : World) :
  R w (snd (bind (pick env o)
              (fun first => match first with
                            | Some first => playTrack env first false o
                            | None => ret tt
                            end) w)).
Proof.
  unfold bind, pick. simpl.
  destruct (pickNextTrack _ _ _ _) as [first|]; simpl.
  - eapply R_trans; [|apply R_playTrack]; apply R_called; discriminate.
  - apply R_called. discriminate.
Qed.

Lemma H_next (useCrossfade : bool) (o : Oracle) (w : World) :
  R w (snd (next env useCrossfade o w)).
Proof.
  unfold next. destruct (Render.tracks env) as [|t0 l]; [apply R_refl|].
  unfold bind, pick. simpl.
  destruct (pickNextTrack _ _ _ _) as [nxt|]; simpl.
  - eapply R_trans; [|apply R_playTrack]; apply R_called; discriminate.
  - apply R_called. discriminate.
Qed.

Lemma H_play (o : Oracle) (w : World) : R w (snd (play env o w)).
Proof.
  unfold play. destruct (Render.tracks env) as [|t0 l]; [apply R_refl|].
  unfold bind at 1. unfold act at 1. unfold bind at 1. unfold get at 1.
  cbv beta iota zeta.
  eapply R_trans; [apply R_ensureCtx|].
  set (w1 := ensureCtx env o w).
  destruct (match activeDeck w1 with Some _ => _ | None => _ end);
    [|apply H_select].
  unfold try_or, bind at 1, audioPlay.
  destruct (resumeOk o); simpl.
  - apply R_resume.
  - eapply R_trans; [|apply H_select]; apply R_called; discriminate.
Qed.

End Handlers.

Ltac inv_open :=
  unfold inv_kept, engine_inv, handler_of, decks_match_ctx,
    shows_active_track, deck_volume_applied, activeDeck.

(** Settles that a write keeps the invariant, by cases on the refs. *)
Ltac inv_cases w :=
  let I := fresh "I" in
  let Hh := fresh "Hh" in
  let Ha := fresh "Ha" in
  let Hb := fresh "Hb" in
  unfold inv_kept; intros [I Hh]; revert Hh; destruct I as ([Ha Hb] & I);
  revert I;
  destruct w as [r [[]|] [a|] [b|] ar tk pf ts adv cs];
  simpl in Ha, Hb; try discriminate; clear Ha Hb;
  destruct ar, tk;
  inv_open; unfold startTick, stopTick, audioPause, rampGain, setTimeout;
  cbn -[Qmax Qmult Qplus];
  try solve [intuition (try discriminate; try congruence)].

Lemma inv_kept_refl env w : inv_kept env w w.
Proof. intros H. exact H. Qed.

Lemma inv_kept_trans env w1 w2 w3 :
  inv_kept env w1 w2 -> inv_kept env w2 w3 -> inv_kept env w1 w3.
Proof. unfold inv_kept. auto. Qed.

Lemma inv_called env c w : inv_kept env w (called c w).
Proof. inv_cases w. Qed.

Lemma inv_ensureCtx env o w : inv_kept env w (ensureCtx env o w).
Proof.
  unfold ensureCtx. destruct (ctxStartsSuspended o), (ctxResumeOk o);
    inv_cases w.
Qed.

Lemma inv_resume env d w :
  inv_kept env w
    (startTick env
       (setReact (Render.setIsPlaying true)
          (onDeck d (Deck.setAudio (Audio.setPaused false))
             (called (CallAudioPlay d) w)))).
Proof. destruct d; inv_cases w. Qed.

Lemma ensureCtx_activeRef env o w : activeRef (ensureCtx env o w) = activeRef w.
Proof.
  unfold ensureCtx.
  destruct w as [r [[]|] a b ar tk pf ts adv cs]; simpl;
    destruct (ctxStartsSuspended o), (ctxResumeOk o); reflexivity.
Qed.

Lemma ensureCtx_timeouts env o w : timeouts (ensureCtx env o w) = timeouts w.
Proof.
  unfold ensureCtx.
  destruct w as [r [[]|] a b ar tk pf ts adv cs]; simpl;
    destruct (ctxStartsSuspended o), (ctxResumeOk o); reflexivity.
Qed.

Lemma ensureCtx_some env o w : ctxRef (ensureCtx env o w) <> None.
Proof.
  unfold ensureCtx.
  destruct w as [r [[]|] a b ar tk pf ts adv cs]; simpl;
    destruct (ctxStartsSuspended o), (ctxResumeOk o); discriminate.
Qed.

Lemma inv_playTrack env track crossfade o w :
  inv_kept env w (snd (playTrack env track crossfade o w)).
Proof.
  intros HI. pose proof HI as ((H & _) & _).
  rewrite (playTrack_paths env track crossfade o w H).
  apply inv_ensureCtx with (o := o) in HI.
  pose proof (ensureCtx_some env o w) as Hc.
  unfold crossfaded, hard_cut, finished, started, loaded. cbv zeta.
  rewrite <- !(ensureCtx_activeRef env o w).
  revert Hc HI. generalize (ensureCtx env o w). clear H w.
  intros w Hc.
  destruct (startOk o), (crossfade && Render.isPlaying env);
    inv_cases w; contradiction.
Qed.

Lemma inv_next env useCrossfade o w :
  inv_kept env w (snd (next env useCrossfade o w)).
Proof.
  apply (H_next env (inv_kept env)).
  - apply inv_kept_refl.
  - apply inv_kept_trans.
  - intros c w0 _. apply inv_called.
  - apply inv_playTrack.
Qed.

Lemma inv_play env o w : inv_kept env w (snd (play env o w)).
Proof.
  apply (H_play env (inv_kept env)).
  - apply inv_kept_refl.
  - apply inv_kept_trans.
  - intros c w0 _. apply inv_called.
  - apply inv_ensureCtx.
  - apply inv_playTrack.
  - apply inv_resume.
Qed.

(** The render that a click runs the handlers of. *)
Lemma handler_of_latest w : handler_of (react w) w.
Proof. intros _. reflexivity. Qed.

Lemma handler_of_ctx env w : ctxRef w <> None -> handler_of env w.
Proof. intros H Hc. contradiction. Qed.

(** Settles that a write that runs no handler keeps the invariant. *)
Ltac eng_cases w :=
  let I := fresh "I" in
  let Ha := fresh "Ha" in
  let Hb := fresh "Hb" in
  intros I; destruct I as ([Ha Hb] & I); revert I;
  destruct w as [r [[]|] [a|] [b|] ar tk pf ts adv cs];
  simpl in Ha, Hb; try discriminate; clear Ha Hb;
  destruct ar, tk;
  inv_open; unfold startTick, stopTick, audioPause, rampGain, setTimeout;
  cbn -[Qmax Qmult Qplus];
  try solve [intuition (try discriminate; try congruence)].

Lemma eng_pause w : engine_inv w -> engine_inv (pause w).
Proof. unfold pause. eng_cases w. Qed.

Lemma eng_stop w : engine_inv w -> engine_inv (stop w).
Proof. unfold stop. eng_cases w. Qed.

Lemma eng_setReact f w :
  (forall r, Render.nowPlaying (f r) = Render.nowPlaying r) ->
  (forall r, Render.volume (f r) = Render.volume r) ->
  engine_inv w -> engine_inv (setReact f w).
Proof. intros Hn Hv. eng_cases w; rewrite ?Hn, ?Hv; intuition. Qed.

Lemma eng_audio d f w :
  (forall x, Audio.volume (f x) = Audio.volume x) ->
  engine_inv w -> engine_inv (onDeck d (Deck.setAudio f) w).
Proof. intros Hv. destruct d; eng_cases w; rewrite ?Hv; intuition. Qed.

Lemma eng_changeVolume v w : engine_inv w -> engine_inv (changeVolume v w).
Proof. unfold changeVolume. eng_cases w. Qed.

Lemma eng_selectStation name w :
  engine_inv w -> engine_inv (selectStation name w).
Proof.
  unfold selectStation. cbv zeta. destruct (Qeq_bool _ _); intros I.
  - apply eng_setReact; [reflexivity | reflexivity | exact I].
  - apply eng_setReact; [reflexivity | reflexivity|].
    apply eng_setReact; [reflexivity | reflexivity | exact I].
Qed.

Lemma eng_setPendingFadeRef v w :
  engine_inv w -> engine_inv (setPendingFadeRef v w).
Proof. eng_cases w. Qed.

Lemma eng_setTimeouts v w : engine_inv w -> engine_inv (setTimeouts v w).
Proof. eng_cases w. Qed.

Lemma eng_trigger l c v w :
  ctxRef w <> None -> engine_inv w ->
  engine_inv (setAdvancing l (called c (setPendingFadeRef v w))).
Proof. intros Hc. eng_cases w; contradiction. Qed.

Lemma eng_tick env w : engine_inv w -> engine_inv (tick env w).
Proof.
  unfold tick. destruct (activeDeck w) as [deck|] eqn:Hd; [|auto].
  destruct (negb _ || negb _); [auto|].
  destruct (Audio.duration (Deck.audio deck)); cbn [isFinite negb]; auto.
  destruct (Qleb q 0); [auto|].
  destruct (Qleb _ _); [|auto].
  destruct (pendingFadeRef w); [auto|].
  intros I. cbv zeta. apply eng_trigger; [|exact I].
  intros Hc. destruct I as ([Ha Hb] & _). unfold activeDeck in Hd.
  rewrite Hc in Ha, Hb. destruct (activeRef w); simpl in Hd; rewrite Hd in *;
    discriminate.
Qed.

Lemma eng_advanceSettles o w :
  engine_inv w -> engine_inv (advanceSettles o w).
Proof.
  intros I. unfold advanceSettles.
  destruct (advancing w) as [|env rest] eqn:Ha; [exact I|]. cbv zeta.
  assert (Hc : ctxRef w <> None).
  { intros Hc. destruct I as (_ & _ & _ & _ & Hadv).
    rewrite (Hadv Hc) in Ha. discriminate. }
  assert (I1 : engine_inv (setAdvancing rest w)).
  { revert Hc I. clear Ha. intros Hc. eng_cases w; contradiction. }
  assert (H1 : handler_of env (setAdvancing rest w)).
  { apply handler_of_ctx. destruct w; exact Hc. }
  apply eng_setTimeouts.
  apply (inv_next env true o (setAdvancing rest w)). split; assumption.
Qed.

Lemma eng_fire action w : engine_inv w -> engine_inv (fire action w).
Proof.
  destruct action as [d|]; simpl.
  - destruct d; unfold audioPause; eng_cases w.
  - apply eng_setPendingFadeRef.
Qed.

Lemma eng_elapse ms w : engine_inv w -> engine_inv (elapse ms w).
Proof.
  intros I. unfold elapse. cbv zeta.
  match goal with
  | |- engine_inv (foldl _ ?w0 ?due) =>
      assert (I0 : engine_inv w0) by (apply eng_setTimeouts, I);
      generalize dependent w0; generalize due
  end.
  intros due. induction due as [|p due IH]; intros w0 I0; [exact I0|].
  simpl. apply IH, eng_fire, I0.
Qed.

Lemma eng_ended d o w : engine_inv w -> engine_inv (ended d o w).
Proof.
  intros I. unfold ended. destruct (deckRef d w) as [deck|] eqn:Hd; [|exact I].
  destruct (Audio.onended (Deck.audio deck)) as [env|]; [|exact I].
  destruct (Render.radioMode env).
  - apply (inv_next env false o w). split; [exact I|].
    apply handler_of_ctx. intros Hc. destruct I as ([Ha Hb] & _).
    rewrite Hc in Ha, Hb. destruct d; simpl in Hd; rewrite Hd in *;
      discriminate.
  - apply eng_setReact; [reflexivity | reflexivity | exact I].
Qed.

Lemma eng_step (e : Event) (w : World) : engine_inv w -> engine_inv (step e w).
Proof.
  intros I. destruct e; simpl.
  - destruct (tickRef w); [apply eng_tick, I | exact I].
  - apply eng_advanceSettles, I.
  - apply eng_elapse, I.
  - apply eng_ended, I.
  - apply eng_audio; [reflexivity | exact I].
  - destruct mapped; [exact I|].
    apply eng_setReact; [reflexivity | reflexivity | exact I].
  - destruct (Render.isPlaying (react w)); [apply eng_pause, I|].
    apply (inv_play (react w) o w). split; [exact I | apply handler_of_latest].
  - apply (inv_next (react w) useCrossfade o w).
    split; [exact I | apply handler_of_latest].
  - apply eng_stop, I.
  - destruct (take 50 (Render.tracks (react w)) !! i); [|exact I].
    apply (inv_playTrack (react w) t true o w).
    split; [exact I | apply handler_of_latest].
  - destruct (STATIONS !! i); [apply eng_selectStation, I | exact I].
  - apply eng_setReact; [reflexivity | reflexivity | exact I].
  - apply eng_changeVolume, I.
  - apply eng_setReact; [reflexivity | reflexivity | exact I].
Qed.

Lemma eng_run (es : list Event) (w : World) :
  engine_inv w -> engine_inv (run es w).
Proof.
  revert w. induction es as [|e es IH]; intros w I; [exact I|].
  apply IH, eng_step, I.
Qed.

Lemma eng_mounted : engine_inv mounted.
Proof. repeat split. Qed.

(** In every world that events lead to from the mounted component, the
    track shown as playing is the track loaded on the active deck, and
    nothing is shown while the decks do not exist. *)
Theorem run_shows_active_track (es : list Event) :
  let w := run es mounted in
  Render.nowPlaying (react w) = activeDeck w ≫= Deck.track.
Proof.
  intros w. destruct (eng_run es mounted eng_mounted) as (_ & H & _). exact H.
Qed.

(** In every world that events lead to from the mounted component, the
    element of each deck that exists has the volume of the state. *)
Theorem run_volume_applied (es : list Event) (d : DeckId) (deck : Deck.t) :
  let w := run es mounted in
  deckRef d w = Some deck ->
  Audio.volume (Deck.audio deck) = Render.volume (react w).
Proof.
  intros w Hd. destruct (eng_run es mounted eng_mounted) as (_ & _ & Ha & Hb & _).
  fold w in Ha, Hb. unfold deck_volume_applied in Ha, Hb.
  destruct d; [rewrite Hd in Ha; exact Ha | rewrite Hd in Hb; exact Hb].
Qed.

Lemma run_volume_applied_witness :
  let w := run [Loaded [Untagged; Birds; BirdsDawn]; ClickPlayPause fulfilled;
                SlideVolume 0.5; ClickNext false fulfilled] mounted in
  (Audio.volume ∘ Deck.audio) <$> deckRef A w = Some 0.5%Q.
Proof.
  intros w.
  destruct (deckRef A w) as [deck|] eqn:E; [|vm_compute in E; discriminate].
  simpl. f_equal.
  transitivity (Render.volume (react w)); [|vm_compute; reflexivity].
  apply (run_volume_applied
           [Loaded [Untagged; Birds; BirdsDawn]; ClickPlayPause fulfilled;
            SlideVolume 0.5; ClickNext false fulfilled] A deck).
  exact E.
Defined.

(** ** Closures and timeouts that outlive their moment *)

Lemma match_kept_playTrack env track crossfade o w :
  match_kept w (snd (playTrack env track crossfade o w)).
Proof.
  apply (keeps_playTrack match_kept).
  - exact match_kept_refl.
  - exact match_kept_trans.
  - intros f w0 H. destruct w0. exact H.
  - exact match_kept_onDeck.
  - intros c w0 H. destruct w0. exact H.
  - intros v w0 H. destruct w0. exact H.
  - intros v w0 H. destruct w0. exact H.
  - exact match_kept_ensureCtx.
  - intros d ms w0 H. destruct w0. exact H.
Qed.

Lemma playTrack_installs_handler env track crossfade o w :
  decks_match_ctx w -> startOk o = true ->
  exists deck,
    activeDeck (snd (playTrack env track crossfade o w)) = Some deck /\
    Audio.onended (Deck.audio deck) = Some env.
Proof.
  intros H Hok. rewrite (playTrack_paths env track crossfade o w H), Hok.
  apply match_kept_ensureCtx with (env := env) (o := o) in H.
  pose proof (ensureCtx_some env o w) as Hc.
  unfold crossfaded, hard_cut, finished, started, loaded, activeDeck.
  cbv zeta. rewrite <- !(ensureCtx_activeRef env o w).
  revert Hc H. generalize (ensureCtx env o w). clear w. intros w Hc H.
  destruct (crossfade && Render.isPlaying env);
    world_cases w H; try contradiction; cbn -[Qmax Qmult Qplus];
    eexists; split; reflexivity.
Qed.

Lemma ended_handler d o w deck env :
  deckRef d w = Some deck -> Audio.onended (Deck.audio deck) = Some env ->
  ended d o w
  = if Render.radioMode env then snd (next env false o w)
    else setReact (Render.setIsPlaying false) w.
Proof. intros Hd He. unfold ended. rewrite Hd, He. reflexivity. Qed.

(** The [ended] handler that [playTrack] installs decides by the
    [radioMode] of the render that started the track.  Whatever the
    checkbox is set to afterwards, when the track ends the handler calls
    [next(false)] of that render if radio mode was on in it, and only
    clears [isPlaying] if it was off. *)
Theorem ended_reads_starting_render (env : Render.t) (track : Track.t)
    (crossfade : bool) (o o' : Oracle) (v : bool) (w : World) :
  decks_match_ctx w ->
  startOk o = true ->
  let w1 := snd (playTrack env track crossfade o w) in
  let w2 := step (CheckRadioMode v) w1 in
  Render.radioMode (react w2) = v /\
  step (Ended (activeRef w1) o') w2
  = if Render.radioMode env then snd (next env false o' w2)
    else setReact (Render.setIsPlaying false) w2.
Proof.
  intros H Hok w1 w2.
  destruct (playTrack_installs_handler env track crossfade o w H Hok)
    as (deck & Hd & He).
  fold w1 in Hd. split; [destruct w1 as [[] ? ? ? ? ? ? ? ? ?]; reflexivity|].
  simpl. apply (ended_handler _ _ _ deck env); [|exact He].
  unfold w2. simpl. unfold activeDeck in Hd.
  destruct w1 as [r c a b ar tk pf ts adv cs]. destruct ar; exact Hd.
Qed.

Lemma ended_reads_starting_render_witness :
  let w := step (Loaded [Untagged; Birds; BirdsDawn]) mounted in
  let w1 := snd (playTrack (react w) Birds false fulfilled w) in
  calls_since w1
    (step (Ended (activeRef w1) fulfilled) (step (CheckRadioMode false) w1))
  = [CallAudioPause B; CallAudioPlay A; CallPickNextTrack].
Proof.
  intros w w1.
  destruct (ended_reads_starting_render (react w) Birds false fulfilled
              fulfilled false w) as [_ E].
  - split; reflexivity.
  - reflexivity.
  - fold w1 in E. rewrite E. vm_compute. reflexivity.
Defined.

(** What [playTrack] leaves when [nxt.audio.play()] is fulfilled, with or
    without a crossfade. *)
Lemma playTrack_started_facts env track crossfade o w :
  decks_match_ctx w -> startOk o = true ->
  let w' := snd (playTrack env track crossfade o w) in
  activeRef w' = other (activeRef w) /\
  (exists deck, activeDeck w' = Some deck /\ Deck.track deck = Some track) /\
  Render.nowPlaying (react w') = Some track /\
  Render.isPlaying (react w') = true /\
  exists new, timeouts w' = timeouts w ++ new.
Proof.
  intros H Hok. rewrite (playTrack_paths env track crossfade o w H), Hok.
  apply match_kept_ensureCtx with (env := env) (o := o) in H.
  pose proof (ensureCtx_some env o w) as Hc.
  unfold crossfaded, hard_cut, finished, started, loaded, activeDeck.
  cbv zeta.
  rewrite <- !(ensureCtx_activeRef env o w), <- (ensureCtx_timeouts env o w).
  revert Hc H. generalize (ensureCtx env o w). clear w. intros w Hc H.
  destruct (crossfade && Render.isPlaying env);
    world_cases w H; try contradiction; cbn -[Qmax Qmult Qplus];
    (split; [reflexivity|]); (split; [eexists; split; reflexivity|]);
    (split; [reflexivity|]); (split; [reflexivity|]);
    first [ exists []; rewrite app_nil_r; reflexivity
          | eexists; reflexivity ].
Qed.

(** The callback of a timeout leaves the render state and the deck roles
    alone; it keeps each deck's track, never resumes a deck, and pauses the
    deck it was set for. *)
Lemma fire_deck action w d deck :
  deckRef d w = Some deck ->
  react (fire action w) = react w /\
  activeRef (fire action w) = activeRef w /\
  exists deck',
    deckRef d (fire action w) = Some deck' /\
    Deck.track deck' = Deck.track deck /\
    (Audio.paused (Deck.audio deck) = true \/ action = PauseDeck d ->
     Audio.paused (Deck.audio deck') = true).
Proof.
  intros Hd. destruct w as [r c a b ar tk pf ts adv cs].
  destruct action as [d'|]; [destruct d', d|destruct d]; simpl in *;
    rewrite Hd; simpl;
    (split; [reflexivity|]); (split; [reflexivity|]);
    eexists; (split; [reflexivity|]); (split; [reflexivity|]);
    intros [Hp|Hp]; simpl; try reflexivity; try exact Hp; discriminate.
Qed.

Lemma fire_all_deck (due : list (Q * Timeout)) w d deck :
  deckRef d w = Some deck ->
  let w' := foldl (fun w p => fire (snd p) w) w due in
  react w' = react w /\
  activeRef w' = activeRef w /\
  exists deck',
    deckRef d w' = Some deck' /\
    Deck.track deck' = Deck.track deck /\
    (Audio.paused (Deck.audio deck) = true
     \/ (exists left, In (left, PauseDeck d) due) ->
     Audio.paused (Deck.audio deck') = true).
Proof.
  revert w deck. induction due as [|[left action] due IH]; intros w deck Hd.
  - simpl. split; [reflexivity|]. split; [reflexivity|].
    exists deck. split; [exact Hd|]. split; [reflexivity|].
    intros [Hp|[x []]]. exact Hp.
  - destruct (fire_deck action w d deck Hd) as (Hr & Har & deck1 & Hd1 & Ht1 & Hp1).
    destruct (IH (fire action w) deck1 Hd1) as (Hr2 & Har2 & deck2 & Hd2 & Ht2 & Hp2).
    simpl. split; [congruence|]. split; [congruence|].
    exists deck2. split; [exact Hd2|]. split; [congruence|].
    intros [Hp|[x [Hx|Hx]]].
    + apply Hp2. left. apply Hp1. left. exact Hp.
    + injection Hx as _ ->. apply Hp2. left. apply Hp1. right. reflexivity.
    + apply Hp2. right. exists x. exact Hx.
Qed.

(** Time passing leaves the render state and the deck roles alone and
    keeps each deck's track; a deck with a pause that is due is paused
    afterwards. *)
Lemma elapse_deck ms w d deck :
  deckRef d w = Some deck ->
  react (elapse ms w) = react w /\
  activeRef (elapse ms w) = activeRef w /\
  exists deck',
    deckRef d (elapse ms w) = Some deck' /\
    Deck.track deck' = Deck.track deck /\
    ((exists left, (left, PauseDeck d) ∈ timeouts w /\ (left <= ms)%Q) ->
     Audio.paused (Deck.audio deck') = true).
Proof.
  intros Hd. unfold elapse. cbv zeta.
  match goal with
  | |- context [foldl _ ?w0 ?due] =>
      assert (Hd0 : deckRef d w0 = Some deck) by (destruct w, d; exact Hd);
      assert (Hr0 : react w0 = react w) by (destruct w; reflexivity);
      assert (Ha0 : activeRef w0 = activeRef w) by (destruct w; reflexivity);
      destruct (fire_all_deck due w0 d deck Hd0) as (Hr & Har & deck' & Hd' & Ht & Hp)
  end.
  split; [congruence|]. split; [congruence|].
  exists deck'. split; [exact Hd'|]. split; [exact Ht|].
  intros (left & Hin & Hle). apply Hp. right. exists left.
  apply filter_In. split; [apply list_elem_of_In, Hin|].
  apply Qleb_true. exact Hle.
Qed.

Lemma other_other d : other (other d) = d.
Proof. destruct d; reflexivity. Qed.

(** A pause that an earlier crossfade left pending for the inactive deck
    survives [playTrack], which makes that deck the active one and starts
    the new track on it: when the pause is due, the new track is paused on
    the active deck, while the render state still shows it as playing. *)
Theorem stale_pause_hits_new_track (env : Render.t) (track : Track.t)
    (crossfade : bool) (o : Oracle) (w : World) (left ms : Q) :
  decks_match_ctx w ->
  startOk o = true ->
  (left, PauseDeck (other (activeRef w))) ∈ timeouts w ->
  (left <= ms)%Q ->
  let w1 := snd (playTrack env track crossfade o w) in
  let w2 := elapse ms w1 in
  Render.nowPlaying (react w2) = Some track /\
  Render.isPlaying (react w2) = true /\
  exists deck,
    activeDeck w2 = Some deck /\
    Deck.track deck = Some track /\
    Audio.paused (Deck.audio deck) = true.
Proof.
  intros H Hok Hin Hle w1 w2.
  destruct (playTrack_started_facts env track crossfade o w H Hok)
    as (Har & (deck & Hd & Ht) & Hn & Hp & new & Hts).
  fold w1 in Har, Hd, Hn, Hp, Hts. unfold activeDeck in Hd.
  destruct (elapse_deck ms w1 (activeRef w1) deck Hd)
    as (Hr & Har2 & deck' & Hd' & Ht' & Hpaused).
  fold w2 in Hr, Har2, Hd'.
  split; [rewrite Hr; exact Hn|]. split; [rewrite Hr; exact Hp|].
  exists deck'. unfold activeDeck. rewrite Har2.
  split; [exact Hd'|]. split; [congruence|].
  apply Hpaused. exists left. split; [|exact Hle].
  rewrite Hts, Har. apply elem_of_app. left. exact Hin.
Qed.

Lemma stale_pause_hits_new_track_witness :
  let w := run [ClickNext true fulfilled] near_end_world in
  let w1 := snd (playTrack (react w) BirdsDawn true fulfilled w) in
  (Audio.paused ∘ Deck.audio) <$> activeDeck (elapse 6100 w1) = Some true.
Proof.
  intros w w1.
  destruct (stale_pause_hits_new_track (react w) BirdsDawn true fulfilled w
              6100 6100) as (_ & _ & deck & Hd & _ & Hp).
  - split; reflexivity.
  - reflexivity.
  - vm_compute. apply list_elem_of_here.
  - apply Qle_refl.
  - fold w1 in Hd. rewrite Hd. simpl. rewrite Hp. reflexivity.
Defined.

(** ** Stations, again *)

Lemma Qeq_bool_refl (x : Q) : Qeq_bool x x = true.
Proof. apply Qeq_bool_iff, Qeq_refl. Qed.

Lemma station_of_found (name : string) :
  station_of name ∈ STATIONS /\
  (Station.name (station_of name) = name \/
   station_of name = AllField /\
   forall s, s ∈ STATIONS -> Station.name s <> name).
Proof.
  unfold station_of.
  destruct (find _ STATIONS) as [s|] eqn:E; simpl.
  - apply find_some in E as [Hin Hn]. apply bool_decide_eq_true in Hn.
    split; [apply list_elem_of_In, Hin | left; exact Hn].
  - split; [apply list_elem_of_here|]. right. split; [reflexivity|].
    intros s Hin Hn.
    pose proof (find_none _ _ E s (proj1 (list_elem_of_In _ _) Hin)) as Hf.
    simpl in Hf. apply bool_decide_eq_false in Hf. contradiction.
Qed.

(** The station of a name is always one of [STATIONS]: the one with that
    name, each station being found under its own name, and the first one,
    "All Field", where no station has the name. *)
Theorem station_of_lookup (name : string) :
  station_of name ∈ STATIONS /\
  (forall s, s ∈ STATIONS -> station_of (Station.name s) = s) /\
  ((forall s, s ∈ STATIONS -> Station.name s <> name) ->
   station_of name = AllField) /\
  (station_of name <> AllField -> Station.name (station_of name) = name).
Proof.
  destruct (station_of_found name) as [Hin Hcases].
  split; [exact Hin|]. split; [|split].
  - intros s Hs. unfold STATIONS in Hs.
    repeat (apply elem_of_cons in Hs as [->|Hs]; [vm_compute; reflexivity|]).
    apply elem_of_nil in Hs. contradiction.
  - intros Hnone. destruct Hcases as [Hn|[E _]]; [|exact E].
    exfalso. exact (Hnone _ Hin Hn).
  - intros Hne. destruct Hcases as [Hn|[E _]]; [exact Hn | contradiction].
Qed.

Lemma station_of_lookup_witness :
  station_of "Night Trail" = NightTrail /\ station_of "Nowhere" = AllField.
Proof.
  destruct (station_of_lookup "Nowhere") as (_ & Hs & Hn & _).
  split.
  - apply (Hs NightTrail). unfold STATIONS.
    do 4 apply list_elem_of_further. apply list_elem_of_here.
  - apply Hn. intros s Hin. unfold STATIONS in Hin.
    repeat (apply elem_of_cons in Hin as [->|Hin]; [discriminate|]).
    apply elem_of_nil in Hin. contradiction.
Defined.

(** Selecting the station that is selected changes nothing, and selecting
    a station twice is selecting it once. *)
Theorem selectStation_idempotent (name : string) (w : World) :
  selectStation (Render.stationName (react w)) w = w /\
  selectStation name (selectStation name w) = selectStation name w.
Proof.
  assert (Hsame : forall w0, selectStation (Render.stationName (react w0)) w0 = w0).
  { intros [[tr sn np ip rm vol cf] c a b ar tk pf ts adv cs].
    unfold selectStation, Render.station.
    cbn -[Qeq_bool station_of]. rewrite Qeq_bool_refl. reflexivity. }
  split; [apply Hsame|].
  assert (Hn : Render.stationName (react (selectStation name w)) = name).
  { destruct w as [[tr sn np ip rm vol cf] c a b ar tk pf ts adv cs].
    unfold selectStation, Render.station.
    cbn -[Qeq_bool station_of syncCrossfade].
    destruct (Qeq_bool _ _); reflexivity. }
  rewrite <- Hn at 1. apply Hsame.
Qed.

(** ** More on stopping and on advancing *)

(** [stop()] absorbs [pause()] and itself: stopping twice, stopping after a
    pause and pausing after a stop all leave what one [stop()] leaves (the
    calls made apart). *)
Theorem stop_absorbs (w : World) :
  same_but_calls (stop w) (stop (stop w)) /\
  same_but_calls (stop w) (stop (pause w)) /\
  same_but_calls (stop w) (pause (stop w)).
Proof.
  unfold stop, pause, activeDeck, same_but_calls.
  destruct w as [r c [a|] [b|] [] [tk|] pf ts adv cs]; cbn; repeat split.
Qed.

Lemma selectStation_refs name w :
  ctxRef (selectStation name w) = ctxRef w /\
  deckARef (selectStation name w) = deckARef w /\
  deckBRef (selectStation name w) = deckBRef w /\
  activeRef (selectStation name w) = activeRef w /\
  Render.stationName (react (selectStation name w)) = name.
Proof.
  unfold selectStation. cbv zeta. destruct (Qeq_bool _ _);
    destruct w as [[] ? ? ? ? ? ? ? ? ?]; repeat split.
Qed.

(** When a track ends in radio mode, the next one is chosen by the render
    that started the ending track: from that render's catalog, with the
    weights of the station selected then, whatever station has been
    selected since, and with the repeat penalty on the track that was shown
    as playing in that render. *)
Theorem auto_advance_selects_by_starting_render (env : Render.t)
    (track t : Track.t) (crossfade : bool) (o o' : Oracle) (s : Station.t)
    (i : nat) (w : World) :
  decks_match_ctx w ->
  startOk o = true ->
  startOk o' = true ->
  Render.radioMode env = true ->
  STATIONS !! i = Some s ->
  pickNextTrack (Render.tracks env) (Render.station env)
    (Render.nowPlaying env) (random o') = Some t ->
  let w1 := snd (playTrack env track crossfade o w) in
  let w2 := step (ClickStation i) w1 in
  let w3 := step (Ended (activeRef w1) o') w2 in
  Render.nowPlaying (react w1) = Some track /\
  Render.stationName (react w2) = Station.name s /\
  Render.nowPlaying (react w3) = Some t.
Proof.
  intros H Hok Hok' Hrm Hs Hpick w1 w2 w3.
  destruct (playTrack_installs_handler env track crossfade o w H Hok)
    as (deck & Hd & He).
  destruct (playTrack_started_facts env track crossfade o w H Hok)
    as (_ & _ & Hn & _).
  fold w1 in Hd, Hn.
  pose proof (match_kept_playTrack env track crossfade o w H) as H1.
  fold w1 in H1.
  assert (E2 : w2 = selectStation (Station.name s) w1)
    by (unfold w2; simpl; rewrite Hs; reflexivity).
  destruct (selectStation_refs (Station.name s) w1) as (Ec & Ea & Eb & Ear & Esn).
  rewrite <- E2 in Ec, Ea, Eb, Ear, Esn.
  assert (H2 : decks_match_ctx w2).
  { destruct H1 as [Ha Hb]. split; congruence. }
  assert (Hd2 : deckRef (activeRef w1) w2 = Some deck).
  { unfold activeDeck in Hd. destruct (activeRef w1); simpl in *; congruence. }
  split; [exact Hn|]. split; [exact Esn|].
  unfold w3. simpl.
  rewrite (ended_handler _ _ _ deck env Hd2 He), Hrm.
  unfold next, bind, pick. rewrite Hpick.
  destruct (Render.tracks env) as [|t0 l]; [discriminate|].
  assert (H3 : decks_match_ctx (called CallPickNextTrack w2))
    by (destruct w2; exact H2).
  destruct (playTrack_started_facts env t false o' _ H3 Hok')
    as (_ & _ & Hn3 & _).
  exact Hn3.
Qed.

Lemma auto_advance_selects_by_starting_render_witness :
  let w := step (Loaded [Untagged; Birds; BirdsDawn]) mounted in
  let w1 := snd (playTrack (react w) Birds false fulfilled w) in
  Render.nowPlaying
    (react (step (Ended (activeRef w1) fulfilled) (step (ClickStation 3) w1)))
  = Some Birds.
Proof.
  intros w w1.
  destruct (auto_advance_selects_by_starting_render (react w) Birds Birds false
              fulfilled fulfilled DawnSoundTrail 3 w) as (_ & _ & H).
  - split; reflexivity.
  - reflexivity.
  - reflexivity.
  - reflexivity.
  - reflexivity.
  - vm_compute. reflexivity.
  - exact H.
Defined.

(** In the world of the witness, the latest render would have chosen
    otherwise: with the weights of "Dawn Sound-Trail" and the repeat
    penalty on the track that is playing. *)
Example latest_render_would_pick :
  pickNextTrack [Untagged; Birds; BirdsDawn] DawnSoundTrail (Some Birds) 0.5
  = Some BirdsDawn.
Proof. vm_compute. reflexivity. Qed.

(** ** Loading the catalog *)

Lemma test_spec body l :
  Load.test body l = true <-> exists pre suf, l = pre ++ suf /\ body suf = true.
Proof.
  induction l as [|c l IH]; simpl.
  - rewrite orb_false_r. split.
    + intros H. exists [], []. split; [reflexivity | exact H].
    + intros (pre & suf & E & H). symmetry in E.
      apply app_eq_nil in E as [-> ->]. exact H.
  - rewrite orb_true_iff, IH. split.
    + intros [H|(pre & suf & -> & H)].
      * exists [], (c :: l). split; [reflexivity | exact H].
      * exists (c :: pre), suf. split; [reflexivity | exact H].
    + intros (pre & suf & E & H). destruct pre as [|c' pre]; simpl in E.
      * left. subst suf. exact H.
      * injection E as -> ->. right. exists pre, suf. split; [reflexivity | exact H].
Qed.

Lemma split_slash_plain_segments (l : list ascii) :
  Forall (Forall (fun c => is_slash c = false)) (split_slash l).
Proof.
  induction l as [|c l IH]; simpl; [repeat constructor|].
  destruct (is_slash c) eqn:E; [constructor; [constructor | exact IH]|].
  destruct (split_slash l) as [|seg segs]; [repeat constructor; exact E|].
  inversion IH as [|? ? Hseg Hsegs]; subst.
  constructor; [constructor; assumption | assumption].
Qed.

(** A path is a directory part, empty or ending in a slash, and its last
    segment. *)
Lemma join_slash_last (segs : list (list ascii)) (seg : list ascii) :
  last segs = Some seg ->
  exists dir,
    join_slash segs = dir ++ seg /\ (dir = [] \/ exists d, dir = d ++ ["/"%char]).
Proof.
  induction segs as [|s segs IH]; [discriminate|].
  destruct segs as [|s' segs].
  - simpl. intros [= ->]. exists []. split; [reflexivity | left; reflexivity].
  - intros Hl. change (last (s :: s' :: segs)) with (last (s' :: segs)) in Hl.
    destruct (IH Hl) as (dir & E & Hdir).
    change (join_slash (s :: s' :: segs))
      with (s ++ "/"%char :: join_slash (s' :: segs)).
    rewrite E. exists (s ++ "/"%char :: dir). split.
    + rewrite <- app_assoc. reflexivity.
    + right. destruct Hdir as [->|(d & ->)].
      * exists s. reflexivity.
      * exists (s ++ "/"%char :: d). rewrite <- app_assoc. reflexivity.
Qed.

Lemma last_segment (l : list ascii) :
  exists dir seg,
    l = dir ++ seg /\ last (split_slash l) = Some seg /\
    Forall (fun c => is_slash c = false) seg /\
    (dir = [] \/ exists d, dir = d ++ ["/"%char]).
Proof.
  destruct (last (split_slash l)) as [seg|] eqn:E.
  - destruct (join_slash_last _ _ E) as (dir & Ej & Hdir).
    rewrite join_split_slash in Ej. exists dir, seg.
    split; [exact Ej|]. split; [reflexivity|]. split; [|exact Hdir].
    pose proof (split_slash_plain_segments l) as Hall.
    rewrite Forall_forall in Hall. apply Hall.
    apply last_Some in E as (pre & ->). apply elem_of_app. right.
    apply list_elem_of_here.
  - apply last_None in E. destruct (split_slash_nonempty l E).
Qed.

Lemma exists_last_or_nil {X} (l : list X) :
  l = [] \/ exists l' x, l = l' ++ [x].
Proof.
  destruct l as [|c l]; [left; reflexivity|]. right.
  destruct (exists_last (l := c :: l)) as (l' & x & E); [discriminate|].
  exists l', x. exact E.
Qed.

(** The leaf of a path that ends in a run without a slash is the last
    segment, and ends in that run. *)
Lemma leaf_suffix (pre suf : list ascii) :
  suf <> [] -> Forall (fun c => is_slash c = false) suf ->
  exists dir k,
    pre = dir ++ k /\ Load.leaf (pre ++ suf) = k ++ suf /\
    Forall (fun c => is_slash c = false) k /\
    (dir = [] \/ exists d, dir = d ++ ["/"%char]).
Proof.
  intros Hne Hsuf.
  destruct (last_segment (pre ++ suf)) as (dir & seg & E & Hl & Hseg & Hdir).
  apply app_eq_app in E as [l [[E1 E2]|[E1 E2]]].
  - (* [pre = dir ++ l] and [seg = l ++ suf] *)
    subst. exists dir, l. split; [reflexivity|].
    apply Forall_app in Hseg as [Hk _].
    split; [|split; [exact Hk | exact Hdir]].
    unfold Load.leaf. rewrite Hl.
    destruct (l ++ suf) eqn:Eq; [|reflexivity].
    apply app_eq_nil in Eq as [_ ?]. contradiction.
  - (* [dir = pre ++ l] and [suf = l ++ seg] *)
    destruct (exists_last_or_nil l) as [->|(l' & x & ->)].
    + rewrite app_nil_r in E1. simpl in E2. subst.
      exists pre, []. rewrite app_nil_r. split; [reflexivity|].
      split; [|split; [constructor | exact Hdir]].
      unfold Load.leaf. rewrite Hl. destruct seg; [contradiction | reflexivity].
    + exfalso. destruct Hdir as [->|(d & ->)].
      * symmetry in E1. apply app_eq_nil in E1 as [_ E1].
        apply app_eq_nil in E1 as [_ ?]. discriminate.
      * rewrite app_assoc in E1. apply app_inj_tail in E1 as [_ <-].
        subst suf. rewrite Forall_app, Forall_app in Hsuf.
        destruct Hsuf as [[_ Hx] _]. inversion Hx as [|? ? Hs _]. discriminate.
Qed.

Lemma is_alnum_not_dot (c : ascii) :
  Load.is_alnum c = true -> Infer.char_eqb c "." = false /\ is_slash c = false.
Proof.
  unfold Load.is_alnum, Infer.char_eqb, is_slash. cbv zeta.
  change (Chars.code ".") with 46%N. intros H.
  split; apply N.eqb_neq; intros E; rewrite E in H; discriminate.
Qed.

Lemma toLowerCase_alnum (c : ascii) :
  Load.is_alnum (Chars.toLowerCase c) = true -> Load.is_alnum c = true.
Proof.
  unfold Chars.toLowerCase. cbv zeta.
  destruct ((65 <=? Chars.code c) && (Chars.code c <=? 90))%N eqn:E.
  - intros _. unfold Load.is_alnum. cbv zeta. rewrite E. reflexivity.
  - intros H. exact H.
Qed.

(** The extensions of audio files are made of letters and digits. *)
Lemma audio_ext_any_ext (l : list ascii) :
  Load.audio_ext l = true -> Load.any_ext l = true.
Proof.
  destruct l as [|c ext]; [discriminate|]. simpl.
  intros H. apply andb_true_iff in H as [Hc Hext]. rewrite Hc.
  apply bool_decide_eq_true in Hext.
  assert (Hall : forallb Load.is_alnum (map Chars.toLowerCase ext) = true
                 /\ ext <> []).
  { unfold Load.extensions in Hext.
    repeat (apply elem_of_cons in Hext as [Hext|Hext];
            [apply (f_equal list_ascii_of_string) in Hext;
             rewrite list_ascii_of_string_of_list_ascii in Hext;
             rewrite Hext; split; [reflexivity|];
             intros ->; discriminate|]).
    apply elem_of_nil in Hext. contradiction. }
  destruct Hall as [Hall Hne].
  destruct ext as [|d rest]; [contradiction|].
  change (forallb Load.is_alnum (d :: rest) = true).
  apply forallb_forall. intros x Hx.
  apply toLowerCase_alnum.
  rewrite forallb_forall in Hall. apply Hall, in_map, Hx.
Qed.

(** Cutting the extension off: what stands before the last dot stays. *)
Lemma cut_any_ext (k suf : list ascii) :
  Load.any_ext suf = true -> Load.cut Load.any_ext (k ++ suf) = k.
Proof.
  intros Hsuf.
  assert (Hdot : exists e, suf = "."%char :: e /\ e <> []).
  { destruct suf as [|c [|d rest]]; try discriminate.
    simpl in Hsuf. apply andb_true_iff in Hsuf as [Hc _].
    unfold Infer.char_eqb in Hc. apply N.eqb_eq in Hc.
    exists (d :: rest). split; [|discriminate].
    f_equal. unfold Chars.code in Hc.
    rewrite <- (ascii_N_embedding c), Hc. reflexivity. }
  destruct Hdot as (e & -> & He).
  induction k as [|c k IH].
  - simpl. destruct e as [|d rest]; [contradiction|].
    simpl in Hsuf. simpl. rewrite Hsuf. reflexivity.
  - change (Load.cut Load.any_ext ((c :: k) ++ "."%char :: e))
      with (if Load.any_ext (c :: k ++ "."%char :: e) then []
            else c :: Load.cut Load.any_ext (k ++ "."%char :: e)).
    rewrite IH.
    assert (Hno : Load.any_ext (c :: k ++ "."%char :: e) = false).
    { destruct (k ++ "."%char :: e) as [|d rest] eqn:Ek; [reflexivity|].
      unfold Load.any_ext. destruct (Infer.char_eqb c "."); [|reflexivity].
      cbn [andb]. rewrite <- Ek. apply not_true_is_false. intros Hall.
      rewrite forallb_forall in Hall.
      assert (Hd : Load.is_alnum "."%char = true)
        by (apply Hall, in_or_app; right; left; reflexivity).
      discriminate. }
    rewrite Hno. reflexivity.
Qed.

(** A file that [loadFromIA] keeps is named, after its directories, by a
    name, a dot and one of the audio extensions, in any case; its track has
    that name, the path as [fileName] and the archive's download URL of the
    encoded path, and weight 1. *)
Theorem mapFile_strips_extension (id full : string) :
  Load.test Load.audio_ext (list_ascii_of_string full) = true ->
  exists dir name ext,
    list_ascii_of_string full = dir ++ name ++ "."%char :: ext /\
    (dir = [] \/ exists d, dir = d ++ ["/"%char]) /\
    Forall (fun c => is_slash c = false) (name ++ "."%char :: ext) /\
    string_of_list_ascii (map Chars.toLowerCase ext) ∈ Load.extensions /\
    Track.name (mapFile id full) = string_of_list_ascii name /\
    Track.fileName (mapFile id full) = full /\
    Track.url (mapFile id full)
    = String.append Load.base (encodePathPreserveSlashes full) /\
    Track.weight (mapFile id full) = Some 1%Q.
Proof.
  intros Ht. apply test_spec in Ht as (pre & suf & E & Hsuf).
  pose proof (audio_ext_any_ext suf Hsuf) as Hany.
  assert (Hplain : Forall (fun c => is_slash c = false) suf /\ suf <> []).
  { destruct suf as [|c [|d rest]]; try discriminate.
    split; [|discriminate]. unfold Load.any_ext in Hany.
    apply andb_true_iff in Hany as [Hc Hall].
    constructor.
    - unfold Infer.char_eqb in Hc. apply N.eqb_eq in Hc.
      unfold is_slash. rewrite Hc. reflexivity.
    - apply Forall_forall. intros x Hx. rewrite forallb_forall in Hall.
      apply is_alnum_not_dot, Hall, list_elem_of_In, Hx. }
  destruct Hplain as [Hplain Hne].
  destruct (leaf_suffix pre suf Hne Hplain) as (dir & k & -> & Hleaf & Hk & Hdir).
  destruct suf as [|c ext]; [contradiction|].
  assert (Hc : c = "."%char).
  { simpl in Hsuf. apply andb_true_iff in Hsuf as [Hc _].
    unfold Infer.char_eqb in Hc. apply N.eqb_eq in Hc. unfold Chars.code in Hc.
    rewrite <- (ascii_N_embedding c), Hc. reflexivity. }
  subst c. exists dir, k, ext.
  split; [rewrite E, <- app_assoc; reflexivity|].
  split; [exact Hdir|]. split; [apply Forall_app; split; assumption|].
  split.
  { simpl in Hsuf. apply bool_decide_eq_true in Hsuf. exact Hsuf. }
  split; [|repeat split].
  unfold mapFile. simpl. rewrite E, Hleaf, cut_any_ext by exact Hany.
  reflexivity.
Qed.

Lemma encodePath_eq (p q : string) :
  encodePathPreserveSlashes p = encodePathPreserveSlashes q -> p = q.
Proof.
  intros E. apply (f_equal list_ascii_of_string) in E.
  unfold encodePathPreserveSlashes in E.
  rewrite !list_ascii_of_string_of_list_ascii, !encode_segments_chars in E.
  apply encode_path_chars_inj in E.
  rewrite <- (string_of_list_ascii_of_string p),
          <- (string_of_list_ascii_of_string q), E.
  reflexivity.
Qed.

Lemma append_inj (s x y : string) :
  String.append s x = String.append s y -> x = y.
Proof.
  induction s as [|c s IH]; simpl; intros E; [exact E|].
  injection E as E. apply IH, E.
Qed.

Lemma fileNames_imap (g : nat -> string) (l : list string) :
  map Track.fileName (imap (fun i n => mapFile (g i) n) l) = l.
Proof.
  revert g. induction l as [|n l IH]; intros g; [reflexivity|].
  simpl. f_equal. apply (IH (g ∘ S)).
Qed.

(** [loadFromIA] throws exactly when no file name ends in an audio
    extension.  Otherwise the catalog it sets is not empty and has one
    track for each such file, in the order of the files; the [i]-th track
    has the [i]-th identifier and is made from its own [fileName]; and two
    tracks with the same URL are of the same file. *)
Theorem loadFromIA_catalog (uid : nat -> string) (names : list string) :
  let audio n := Load.test Load.audio_ext (list_ascii_of_string n) in
  (loadFromIA uid names = None <-> Forall (fun n => audio n = false) names) /\
  (forall tracks,
     loadFromIA uid names = Some tracks ->
     tracks <> [] /\
     map Track.fileName tracks = List.filter audio names /\
     (forall i t, tracks !! i = Some t ->
        t = mapFile (uid i) (Track.fileName t) /\
        audio (Track.fileName t) = true) /\
     (forall t t', t ∈ tracks -> t' ∈ tracks ->
        Track.url t = Track.url t' -> Track.fileName t = Track.fileName t')).
Proof.
  intros audio. unfold loadFromIA. cbv zeta. fold audio.
  destruct (List.filter audio names) as [|n l] eqn:E.
  - split.
    + split; [intros _|reflexivity].
      apply Forall_forall. intros x Hx. apply list_elem_of_In in Hx.
      destruct (audio x) eqn:Ex; [|reflexivity].
      assert (Hin : In x (List.filter audio names))
        by (apply filter_In; split; assumption).
      rewrite E in Hin. contradiction.
    + intros tracks [=].
  - split.
    + split; [discriminate|]. intros Hall. exfalso.
      assert (Hin : In n (List.filter audio names)) by (rewrite E; left; reflexivity).
      apply filter_In in Hin as [Hin Hn]. rewrite Forall_forall in Hall.
      apply list_elem_of_In, Hall in Hin. congruence.
    + intros tracks [= <-].
      assert (Hmapped : forall i t,
                imap (fun i n => mapFile (uid i) n) (n :: l) !! i = Some t ->
                t = mapFile (uid i) (Track.fileName t)
                /\ audio (Track.fileName t) = true).
      { intros i t Hi. rewrite list_lookup_imap in Hi.
        destruct ((n :: l) !! i) as [x|] eqn:Ex; [|discriminate].
        injection Hi as <-. split; [reflexivity|]. simpl.
        assert (Hin : In x (List.filter audio names)).
        { rewrite E. apply list_elem_of_In. eapply list_elem_of_lookup_2, Ex. }
        apply filter_In in Hin as [_ Hx]. exact Hx. }
      split; [discriminate|]. split; [exact (fileNames_imap uid (n :: l))|].
      split; [exact Hmapped|].
      intros t t' Ht Ht' Hurl.
      apply list_elem_of_lookup_1 in Ht as [i Hi].
      apply list_elem_of_lookup_1 in Ht' as [j Hj].
      destruct (Hmapped i t Hi) as [Et _].
      destruct (Hmapped j t' Hj) as [Et' _].
      rewrite Et, Et' in Hurl. simpl in Hurl.
      apply encodePath_eq. eapply append_inj. exact Hurl.
Qed.

Lemma loadFromIA_catalog_witness :
  map Track.fileName
  <$> loadFromIA (fun _ => "k3j9x2lq")
        ["Montana 2000/Comp 1.mp3"; "Montana 2000/notes.txt"; "rain.OGG"]
  = Some ["Montana 2000/Comp 1.mp3"; "rain.OGG"].
Proof.
  destruct (loadFromIA_catalog (fun _ => "k3j9x2lq")
              ["Montana 2000/Comp 1.mp3"; "Montana 2000/notes.txt"; "rain.OGG"])
    as [_ H].
  destruct (loadFromIA _ _) as [tracks|] eqn:E; [|vm_compute in E; discriminate].
  destruct (H tracks eq_refl) as (_ & Hf & _).
  simpl. rewrite Hf. vm_compute. reflexivity.
Defined.

Lemma mapFile_strips_extension_witness :
  exists dir name ext,
    list_ascii_of_string "Montana 2000/Comp 1.mp3" = dir ++ name ++ "."%char :: ext /\
    Track.name (mapFile "k3j9x2lq" "Montana 2000/Comp 1.mp3")
    = string_of_list_ascii name.
Proof.
  destruct (mapFile_strips_extension "k3j9x2lq" "Montana 2000/Comp 1.mp3")
    as (dir & name & ext & E & _ & _ & _ & Hn & _).
  - vm_compute. reflexivity.
  - exists dir, name, ext. split; [exact E | exact Hn].
Defined.

Example mapFile_Comp1 :
  mapFile "k3j9x2lq" "Montana 2000/Comp 1.mp3" = Comp1.
Proof. vm_compute. reflexivity. Qed.

Example mapFile_two_dots :
  Track.name (mapFile "x" "a.b/Rain.Storm.FLAC") = "Rain.Storm".
Proof. vm_compute. reflexivity. Qed.

Example loadFromIA_none :
  loadFromIA (fun _ => "x") ["notes.txt"; "cover.jpg"; "mp3"] = None.
Proof. vm_compute. reflexivity. Qed.
(** ** [normalizeTag], twice *)

Lemma tag_char_lower (c : ascii) :
  Chars.is_tag_char c = true -> Chars.toLowerCase c = c.
Proof.
  unfold Chars.is_tag_char, Chars.toLowerCase. cbv zeta. intros H.
  destruct ((65 <=? Chars.code c) && (Chars.code c <=? 90))%N eqn:E;
    [|reflexivity].
  exfalso. apply andb_true_iff in E as [E1 E2].
  apply N.leb_le in E1, E2.
  repeat (apply orb_true_iff in H as [H|H]);
    repeat (apply andb_true_iff in H as [? H]);
    try apply N.leb_le in H; try apply N.eqb_eq in H;
    repeat match goal with
           | H' : (_ <=? _)%N = true |- _ => apply N.leb_le in H'
           end; lia.
Qed.

Lemma map_lower_tag (l : list ascii) :
  Forall (fun c => Chars.is_tag_char c = true) l -> map Chars.toLowerCase l = l.
Proof.
  induction 1 as [|c l Hc _ IH]; [reflexivity|].
  simpl. rewrite (tag_char_lower c Hc), IH. reflexivity.
Qed.

Lemma skip_spaces_clean (l : list ascii) :
  match l with
  | c :: _ => Chars.is_space c = false
  | [] => True
  end ->
  Chars.skip_spaces l = l.
Proof. destruct l as [|c l]; [reflexivity|]. simpl. intros ->. reflexivity. Qed.

Lemma skip_spaces_starts (l : list ascii) :
  match Chars.skip_spaces l with
  | c :: _ => Chars.is_space c = false
  | [] => True
  end.
Proof.
  induction l as [|c l IH]; [exact I|]. simpl.
  destruct (Chars.is_space c) eqn:E; [exact IH | exact E].
Qed.

Lemma skip_spaces_keeps_last (l : list ascii) (c : ascii) :
  Chars.is_space c = false ->
  exists p, Chars.skip_spaces (l ++ [c]) = p ++ [c].
Proof.
  intros Hc. induction l as [|x l IH]; simpl.
  - rewrite Hc. exists []. reflexivity.
  - destruct (Chars.is_space x); [exact IH|]. exists (x :: l). reflexivity.
Qed.

(** What [trim] returns neither starts nor ends with white space, and
    [trim] leaves such a string as it is. *)
Lemma trim_clean (l : list ascii) :
  let t := Chars.trim l in
  match t with c :: _ => Chars.is_space c = false | [] => True end /\
  match rev t with c :: _ => Chars.is_space c = false | [] => True end.
Proof.
  unfold Chars.trim. cbv zeta. split.
  - pose proof (skip_spaces_starts l) as Hs.
    destruct (Chars.skip_spaces l) as [|c m]; [exact I|].
    simpl. destruct (skip_spaces_keeps_last (rev m) c Hs) as [p ->].
    rewrite rev_app_distr. simpl. exact Hs.
  - rewrite rev_involutive. apply skip_spaces_starts.
Qed.

Lemma trim_fixed (l : list ascii) :
  match l with c :: _ => Chars.is_space c = false | [] => True end ->
  match rev l with c :: _ => Chars.is_space c = false | [] => True end ->
  Chars.trim l = l.
Proof.
  intros H1 H2. unfold Chars.trim.
  rewrite (skip_spaces_clean l H1), (skip_spaces_clean (rev l) H2).
  apply rev_involutive.
Qed.

Lemma squeeze_twice (l : list ascii) :
  Chars.squeeze false (Chars.squeeze false l) = Chars.squeeze false l /\
  Chars.squeeze true (Chars.squeeze true l) = Chars.squeeze true l /\
  Chars.squeeze false (Chars.squeeze true l) = Chars.squeeze true l.
Proof.
  induction l as [|c l (IH1 & IH2 & IH3)]; [repeat split|].
  simpl. destruct (Chars.is_space c) eqn:E; simpl.
  - rewrite IH2. repeat split; assumption.
  - rewrite E, IH1. repeat split.
Qed.

Lemma squeeze_Forall (P : ascii -> Prop) (b : bool) (l : list ascii) :
  P " "%char -> Forall P l -> Forall P (Chars.squeeze b l).
Proof.
  intros Hsp Hall. revert b. induction Hall as [|c l Hc _ IH]; intros b;
    [constructor|].
  simpl. destruct (Chars.is_space c), b; try apply IH;
    constructor; auto.
Qed.

Lemma squeeze_starts (l : list ascii) :
  match l with c :: _ => Chars.is_space c = false | [] => True end ->
  match Chars.squeeze false l with
  | c :: _ => Chars.is_space c = false
  | [] => True
  end.
Proof. destruct l as [|c l]; [auto|]. simpl. intros H. rewrite H. exact H. Qed.

Lemma squeeze_keeps_last (b : bool) (l : list ascii) (c : ascii) :
  Chars.is_space c = false ->
  Chars.squeeze b (l ++ [c]) = Chars.squeeze b l ++ [c].
Proof.
  intros Hc. revert b. induction l as [|x l IH]; intros b; simpl.
  - rewrite Hc. reflexivity.
  - destruct (Chars.is_space x), b; rewrite ?IH; reflexivity.
Qed.

Lemma squeeze_ends (l : list ascii) :
  match rev l with c :: _ => Chars.is_space c = false | [] => True end ->
  match rev (Chars.squeeze false l) with
  | c :: _ => Chars.is_space c = false
  | [] => True
  end.
Proof.
  destruct (exists_last_or_nil l) as [->|(l' & c & ->)]; [auto|].
  rewrite rev_app_distr. simpl. intros Hc.
  rewrite (squeeze_keeps_last false l' c Hc), rev_app_distr. simpl. exact Hc.
Qed.

Lemma filter_tag_fixed (l : list ascii) :
  Forall (fun c => Chars.is_tag_char c = true) l ->
  filter (fun c => Is_true (Chars.is_tag_char c)) l = l.
Proof.
  induction 1 as [|c l Hc _ IH]; [reflexivity|].
  rewrite filter_cons_True by (apply Is_true_true, Hc). rewrite IH. reflexivity.
Qed.

Lemma skip_spaces_Forall (P : ascii -> Prop) (l : list ascii) :
  Forall P l -> Forall P (Chars.skip_spaces l).
Proof.
  induction 1 as [|c l Hc Hl IH]; [constructor|].
  simpl. destruct (Chars.is_space c); [exact IH | constructor; assumption].
Qed.

Lemma trim_Forall (P : ascii -> Prop) (l : list ascii) :
  Forall P l -> Forall P (Chars.trim l).
Proof.
  intros H. unfold Chars.trim.
  apply List.Forall_rev, skip_spaces_Forall, List.Forall_rev,
    skip_spaces_Forall, H.
Qed.

(** On a string of the alphabet of tags, [normalizeTag] trims and squeezes
    the white space, and what it returns it leaves as it is. *)
Lemma normalizeTag_on_tag_chars (x : list ascii) :
  Forall (fun c => Chars.is_tag_char c = true) x ->
  let y := Chars.squeeze false (Chars.trim x) in
  normalizeTag (string_of_list_ascii x) = string_of_list_ascii y /\
  normalizeTag (string_of_list_ascii y) = string_of_list_ascii y.
Proof.
  intros Hall y.
  assert (Hy : Forall (fun c => Chars.is_tag_char c = true) y)
    by (apply squeeze_Forall; [reflexivity | apply trim_Forall, Hall]).
  split.
  - unfold normalizeTag. cbv zeta.
    rewrite list_ascii_of_string_of_list_ascii, (map_lower_tag x Hall).
    f_equal. apply filter_tag_fixed, Hy.
  - unfold normalizeTag. cbv zeta.
    rewrite list_ascii_of_string_of_list_ascii, (map_lower_tag y Hy).
    destruct (trim_clean x) as [Hs He].
    rewrite (trim_fixed y (squeeze_starts _ Hs) (squeeze_ends _ He)).
    unfold y at 1. rewrite (proj1 (squeeze_twice (Chars.trim x))).
    f_equal. apply filter_tag_fixed, Hy.
Qed.

(** [normalizeTag] is not idempotent: removing the characters outside the
    alphabet comes last and can leave two spaces in a row, or a space at an
    end, which a second pass removes.  On a string of the alphabet, such as
    it returns itself, it is idempotent: a third pass changes nothing. *)
Theorem normalizeTag_stabilises (s : string) :
  normalizeTag (normalizeTag (normalizeTag s)) = normalizeTag (normalizeTag s) /\
  (Forall (fun c => Chars.is_tag_char c = true) (list_ascii_of_string s) ->
   normalizeTag (normalizeTag s) = normalizeTag s) /\
  normalizeTag (normalizeTag "Rain & Thunder") <> normalizeTag "Rain & Thunder".
Proof.
  assert (Hidem : forall t,
            Forall (fun c => Chars.is_tag_char c = true) (list_ascii_of_string t) ->
            normalizeTag (normalizeTag t) = normalizeTag t).
  { intros t Ht.
    destruct (normalizeTag_on_tag_chars (list_ascii_of_string t) Ht) as [E1 E2].
    rewrite string_of_list_ascii_of_string in E1. rewrite E1. exact E2. }
  split; [apply Hidem, normalizeTag_tag_chars|].
  split; [apply Hidem|]. vm_compute. discriminate.
Qed.

Lemma normalizeTag_stabilises_witness :
  normalizeTag (normalizeTag "rain  thunder") = normalizeTag "rain  thunder".
Proof.
  destruct (normalizeTag_stabilises "rain  thunder") as (_ & H & _).
  apply H. apply List.Forall_forall, forallb_forall. reflexivity.
Defined.

Example normalizeTag_two_passes :
  normalizeTag "Rain & Thunder" = "rain  thunder" /\
  normalizeTag "rain  thunder" = "rain thunder".
Proof. split; vm_compute; reflexivity. Qed.
(** ** What [inferTagsFromPath] does not miss *)

Lemma elem_of_nonempty_dedupe (l : list string) (x : string) :
  x ∈ l -> x <> "" -> x ∈ List.filter Infer.nonempty (dedupe l).
Proof.
  intros Hin Hne. apply list_elem_of_In, filter_In. split.
  - apply list_elem_of_In. unfold dedupe. apply elem_of_dedupe_from.
    split; [exact Hin | apply not_elem_of_nil].
  - destruct x; [contradiction | reflexivity].
Qed.

(** Every keyword that the normal form of the path contains is a tag of
    the file; so is [year:] with each year found in the path, the tag of
    each test that the leaf name passes, and [folder:] with each of the
    first two segments of the path whose normal form is not empty. *)
Theorem inferTagsFromPath_complete (fullPath : string) :
  let chars := list_ascii_of_string fullPath in
  let s :=
    list_ascii_of_string
      (normalizeTag
         (string_of_list_ascii (Infer.underscores_to_space false chars))) in
  let leaf := map Chars.toLowerCase (Load.leaf chars) in
  let parts :=
    List.filter Infer.nonempty
      (map (fun p => normalizeTag (string_of_list_ascii p)) (split_slash chars)) in
  (forall k, k ∈ Infer.likely -> Infer.includes (list_ascii_of_string k) s = true ->
     k ∈ inferTagsFromPath fullPath) /\
  (forall y, y ∈ Infer.year_matches 0 false chars ->
     String.append "year:" (string_of_list_ascii y) ∈ inferTagsFromPath fullPath) /\
  (forall plain bounded tag,
     (plain, bounded, tag) ∈ Infer.heuristics ->
     Infer.test plain bounded leaf = true ->
     tag ∈ inferTagsFromPath fullPath) /\
  (forall i p, i < 2 -> parts !! i = Some p ->
     String.append "folder:" p ∈ inferTagsFromPath fullPath).
Proof.
  intros chars s leaf parts.
  pose proof vocabulary_normal as Hvoc. rewrite Forall_forall in Hvoc.
  unfold inferTagsFromPath. cbv zeta. fold chars. fold s.
  change (match last (split_slash chars) with
          | Some (c :: seg) => c :: seg
          | _ => chars
          end) with (Load.leaf chars).
  fold leaf. fold parts.
  split; [|split; [|split]].
  - intros k Hk Hinc. apply elem_of_nonempty_dedupe.
    + apply elem_of_app. left.
      assert (Hv : k ∈ Infer.vocabulary) by (apply elem_of_app; left; exact Hk).
      rewrite <- (Hvoc k Hv) at 1. apply list_elem_of_In, in_map, filter_In.
      split; [apply list_elem_of_In, Hk | exact Hinc].
    + intros ->. unfold Infer.likely in Hk.
      repeat (apply elem_of_cons in Hk as [Hk|Hk]; [discriminate|]).
      apply elem_of_nil in Hk. exact Hk.
  - intros y Hy. apply elem_of_nonempty_dedupe; [|discriminate].
    apply elem_of_app. right. apply elem_of_app. left.
    apply list_elem_of_In.
    apply (in_map (fun y => String.append "year:" (string_of_list_ascii y))).
    apply list_elem_of_In, Hy.
  - intros plain bounded tag Hh Htest. apply elem_of_nonempty_dedupe.
    + do 3 (apply elem_of_app; right).
      apply list_elem_of_In.
      apply (in_map (fun h => snd h) _ (plain, bounded, tag)).
      apply filter_In. split; [apply list_elem_of_In, Hh | exact Htest].
    + intros ->. unfold Infer.heuristics in Hh.
      repeat (apply elem_of_cons in Hh as [Hh|Hh]; [discriminate|]).
      apply elem_of_nil in Hh. exact Hh.
  - intros i p Hi Hp. apply elem_of_nonempty_dedupe; [|discriminate].
    do 2 (apply elem_of_app; right). apply elem_of_app. left.
    apply list_elem_of_In. apply (in_map (fun p => String.append "folder:" p)).
    apply list_elem_of_In. eapply list_elem_of_lookup_2.
    rewrite lookup_take_lt by exact Hi. exact Hp.
Qed.

Lemma inferTagsFromPath_complete_witness :
  "montana" ∈ inferTagsFromPath "Montana 2000/Comp 1.mp3".
Proof.
  destruct (inferTagsFromPath_complete "Montana 2000/Comp 1.mp3") as (H & _).
  apply H.
  - unfold Infer.likely. do 23 apply list_elem_of_further. apply list_elem_of_here.
  - vm_compute. reflexivity.
Defined.
(** ** The timing of a crossfade *)

Lemma pause_after_ramp (cf : Q) :
  (Qmax 0.01 cf * 1000 + 100 <= Qmax 250 (cf * 1000 + 100))%Q.
Proof.
  destruct (Q.max_spec 0.01 cf) as [[H1 E1]|[H1 E1]];
    destruct (Q.max_spec 250 (cf * 1000 + 100)) as [[H2 E2]|[H2 E2]];
    rewrite E1, E2; lra.
Qed.

(** In a crossfade the deck that fades out is paused only after its ramp
    has ended: the timeout that pauses it waits at least 100 ms longer
    than the ramp takes, whatever [crossfadeSec] is, negative values and 0
    included. *)
Theorem crossfade_pauses_after_ramp (env : Render.t) (track : Track.t)
    (o : Oracle) (w : World) :
  decks_match_ctx w ->
  startOk o = true ->
  Render.isPlaying env = true ->
  let w' := snd (playTrack env track true o w) in
  exists old seconds ms,
    inactiveDeck w' = Some old /\
    Deck.ramp old = Some (0%Q, seconds) /\
    last (timeouts w') = Some (ms, PauseDeck (activeRef w)) /\
    (0.01 <= seconds)%Q /\
    (250 <= ms)%Q /\
    (seconds * 1000 + 100 <= ms)%Q.
Proof.
  intros H Hok Hp. rewrite (playTrack_paths env track true o w H), Hok, Hp.
  cbn [andb snd].
  apply match_kept_ensureCtx with (env := env) (o := o) in H.
  pose proof (ensureCtx_some env o w) as Hc.
  unfold crossfaded, finished, started, loaded, inactiveDeck. cbv zeta.
  rewrite <- !(ensureCtx_activeRef env o w).
  revert Hc H. generalize (ensureCtx env o w). clear w. intros w Hc H.
  world_cases w H; try contradiction; cbn -[Qmax Qmult Qplus];
    eexists; exists (Qmax 0.01 (Render.crossfadeSec env));
    exists (Qmax 250 (Render.crossfadeSec env * 1000 + 100));
    (split; [reflexivity|]); (split; [reflexivity|]);
    (split; [rewrite last_snoc; reflexivity|]);
    (split; [apply Q.le_max_l|]); (split; [apply Q.le_max_l|]);
    apply pause_after_ramp.
Qed.

Lemma crossfade_pauses_after_ramp_witness :
  exists ms,
    last (timeouts (snd (playTrack (react near_end_world) BirdsDawn true
                           fulfilled near_end_world)))
    = Some (ms, PauseDeck (activeRef near_end_world)) /\ (250 <= ms)%Q.
Proof.
  destruct (crossfade_pauses_after_ramp (react near_end_world) BirdsDawn
              fulfilled near_end_world)
    as (old & seconds & ms & _ & _ & Hl & _ & Hms & _).
  - split; reflexivity.
  - reflexivity.
  - reflexivity.
  - exists ms. split; [exact Hl | exact Hms].
Defined.
